(** * deno-openapi-dereferencer: a shallow embedding of [dereferencer.ts]

    The four exported operations of [src/dereferencer.ts] work on plain
    JavaScript object graphs and update them in place, so the embedding is
    an explicit object store ([heap]) threaded through a small
    state-and-exception monad.  Values held in a property are either
    primitives or references to a stored object; two properties holding the
    same reference alias the same object, exactly as in the source.

    Modelling conventions
    - numbers are integers ([Z]); [0] is the only falsy number;
    - an object keeps its properties in insertion order, an assignment to an
      existing property keeps its position (the engine's rule that moves
      integer-like names to the front of an enumeration is not modelled);
    - the objects of a document are plain objects and arrays; the fixed
      names the code reads ([$ref], [allOf], [oneOf], [anyOf], [properties],
      an index) and the names a [for...in] loop enumerates are own
      properties or absent, since the built-in prototypes have no member of
      such a name and no enumerable member;
    - a pointer segment can be any name, also that of a member inherited
      from a built-in prototype ([constructor], [toString], ...): the walk
      of a pointer reads own properties first, and a read that may reach an
      inherited member ends the run with the outcome [Builtin], past which
      the code is not modelled;
    - [async] functions are modelled as ordinary functions and [await] as a
      direct call: the bodies perform no input or output, so an awaited
      call runs to its end before the caller continues;
    - recursion is bounded by a fuel argument; running out of fuel is the
      outcome [Timeout], which stands for the unbounded native recursion of
      the source. *)

From Stdlib Require Import ZArith String Ascii List Lia DecimalString DecimalNat.
From stdpp Require Import base list.
Import ListNotations.
#[local] Set Warnings "-register-all".
Local Open Scope string_scope.
Local Open Scope Z_scope.
Local Open Scope nat_scope.
Local Open Scope list_scope.

(** ** Documents as trees

    What [JSON.parse] produces and what a reader of a returned document
    sees.  [JUndef] only occurs in read-backs of stores in which a property
    was assigned [undefined]. *)
Inductive json : Type :=
| JUndef
| JNull
| JBool (b : bool)
| JNum (n : Z)
| JStr (s : string)
| JArr (xs : list json)
| JObj (kvs : list (string * json)).

(** ** Store *)
Abbreviation loc := nat.

Inductive value : Type :=
| VUndef
| VNull
| VBool (b : bool)
| VNum (n : Z)
| VStr (s : string)
| VRef (l : loc).

Inductive object : Type :=
| OObj (props : list (string * value))
| OArr (elems : list value).

Abbreviation heap := (list object).

(** JavaScript truthiness ([!x] is its negation). *)
Definition truthy (v : value) : bool :=
  match v with
  | VUndef | VNull => false
  | VBool b => b
  | VNum n => negb (Z.eqb n 0)
  | VStr s => negb (String.eqb s "")
  | VRef _ => true
  end.

(** [typeof v === "object" && v !== null] *)
Definition is_object (v : value) : bool :=
  match v with VRef _ => true | _ => false end.

(** ** Property names of arrays and strings *)
Definition string_of_nat (n : nat) : string :=
  NilZero.string_of_uint (Nat.to_uint n).

(** A name is an index when it is the canonical decimal spelling of a
    number. *)
Definition index_of_string (k : string) : option nat :=
  match NilZero.uint_of_string k with
  | Some d =>
      let n := Nat.of_uint d in
      if String.eqb (string_of_nat n) k then Some n else None
  | None => None
  end.

Fixpoint assoc {A} (k : string) (kvs : list (string * A)) : option A :=
  match kvs with
  | [] => None
  | (k', v) :: r => if String.eqb k k' then Some v else assoc k r
  end.

(** [o[k] = v] on a property list: overwrite in place, or append. *)
Fixpoint assoc_set {A} (k : string) (v : A) (kvs : list (string * A))
  : list (string * A) :=
  match kvs with
  | [] => [(k, v)]
  | (k', v') :: r =>
      if String.eqb k k' then (k', v) :: r else (k', v') :: assoc_set k v r
  end.

(** [delete o[k]] *)
Fixpoint assoc_del {A} (k : string) (kvs : list (string * A))
  : list (string * A) :=
  match kvs with
  | [] => []
  | (k', v') :: r =>
      if String.eqb k k' then assoc_del k r else (k', v') :: assoc_del k r
  end.

Definition char_at (s : string) (i : nat) : option string :=
  match String.get i s with
  | Some c => Some (String c EmptyString)
  | None => None
  end.

(** Own property [k] of [v], when there is one. *)
Definition own_get (h : heap) (v : value) (k : string) : option value :=
  match v with
  | VRef l =>
      match h !! l with
      | Some (OObj props) => assoc k props
      | Some (OArr elems) =>
          if String.eqb k "length" then Some (VNum (Z.of_nat (List.length elems)))
          else match index_of_string k with
               | Some i => elems !! i
               | None => None
               end
      | None => None
      end
  | VStr s =>
      if String.eqb k "length" then Some (VNum (Z.of_nat (String.length s)))
      else match index_of_string k with
           | Some i => option_map VStr (char_at s i)
           | None => None
           end
  | _ => None
  end.

(** The names a [for (const key in v)] loop visits. *)
Definition enum_keys (h : heap) (v : value) : list string :=
  match v with
  | VRef l =>
      match h !! l with
      | Some (OObj props) => map fst props
      | Some (OArr elems) => map string_of_nat (seq 0 (List.length elems))
      | None => []
      end
  | VStr s => map string_of_nat (seq 0 (String.length s))
  | _ => []
  end.

(** ** Outcomes and the store monad *)
Inductive error : Type :=
| RefError (pointer : string)  (* Error(`Could not resolve $ref path: ${pointer}`) *)
| TypeError
| SyntaxError.

Inductive outcome (A : Type) : Type :=
| Ret (a : A) (h : heap)
| Throw (e : error)
| Timeout
| Builtin.
Arguments Ret {A} a h.
Arguments Throw {A} e.
Arguments Timeout {A}.
Arguments Builtin {A}.

Definition M (A : Type) : Type := heap -> outcome A.

Definition ret {A} (a : A) : M A := fun h => Ret a h.
Definition throw {A} (e : error) : M A := fun _ => Throw e.
Definition timeout {A} : M A := fun _ => Timeout.
Definition bind {A B} (m : M A) (f : A -> M B) : M B :=
  fun h => match m h with
           | Ret a h' => f a h'
           | Throw e => Throw e
           | Timeout => Timeout
           | Builtin => Builtin
           end.

Notation "'let*' x ':=' m 'in' k" := (bind m (fun x => k))
  (at level 10, x name, m at level 100, k at level 200).

(** [v[k]] as an expression: reading a property of [null] or [undefined]
    throws, a missing property reads as [undefined]. *)
Definition getM (v : value) (k : string) : M value :=
  fun h => match v with
           | VUndef | VNull => Throw TypeError
           | _ => Ret (default VUndef (own_get h v k)) h
           end.

(** [v[k] = x] for a name [k] enumerated from [v].  The module is strict
    code, so assigning to an index of a primitive string throws. *)
Definition setM (v : value) (k : string) (x : value) : M unit :=
  fun h => match v with
           | VRef l =>
               match h !! l with
               | Some (OObj props) =>
                   Ret tt (<[l := OObj (assoc_set k x props)]> h)
               | Some (OArr elems) =>
                   match index_of_string k with
                   | Some i => Ret tt (<[l := OArr (<[i := x]> elems)]> h)
                   | None => Ret tt h
                   end
               | None => Throw TypeError
               end
           | _ => Throw TypeError
           end.

(** A fresh object. *)
Definition newM (o : object) : M value :=
  fun h => Ret (VRef (List.length h)) (h ++ [o]).

(** The body shared by every [for (const key in o) o[key] = f(o[key])]
    loop of the source. *)
Fixpoint for_in (f : value -> M value) (o : value) (ks : list string)
  : M unit :=
  match ks with
  | [] => ret tt
  | k :: ks' =>
      let* v := getM o k in
      let* v' := f v in
      let* _ := setM o k v' in
      for_in f o ks'
  end.

Definition for_in_keys (f : value -> M value) (o : value) : M unit :=
  fun h => for_in f o (enum_keys h o) h.

(** ** [JSON.parse] and [JSON.stringify] *)

(** Left-to-right traversal of a list in the monad. *)
Definition mapM_store {A B} (f : A -> M B) : list A -> M (list B) :=
  fix go (xs : list A) : M (list B) :=
    match xs with
    | [] => ret []
    | x :: r =>
        let* v := f x in
        let* vs := go r in
        ret (v :: vs)
    end.

(** [JSON.parse]: every array and object of the text becomes a fresh stored
    object, children first. *)
Fixpoint alloc (j : json) : M value :=
  match j with
  | JUndef => ret VUndef
  | JNull => ret VNull
  | JBool b => ret (VBool b)
  | JNum n => ret (VNum n)
  | JStr s => ret (VStr s)
  | JArr xs =>
      let* vs := mapM_store alloc xs in
      newM (OArr vs)
  | JObj kvs =>
      let* props :=
        mapM_store (fun '(k, x) => let* v := alloc x in ret (k, v)) kvs in
      newM (OObj props)
  end.

(** The tree a reader sees below [v]; [None] when [fuel] does not cover the
    depth of the graph (in particular when it is cyclic). *)
Fixpoint reify (fuel : nat) (h : heap) (v : value) : option json :=
  match v with
  | VUndef => Some JUndef
  | VNull => Some JNull
  | VBool b => Some (JBool b)
  | VNum n => Some (JNum n)
  | VStr s => Some (JStr s)
  | VRef l =>
      match fuel with
      | 0 => None
      | S n =>
          match h !! l with
          | Some (OArr elems) => JArr <$> mapM (reify n h) elems
          | Some (OObj props) =>
              JObj <$> mapM (fun kv => pair (fst kv) <$> reify n h (snd kv)) props
          | None => None
          end
      end
  end.

(** What [JSON.stringify] keeps: an [undefined] property is dropped, an
    [undefined] array element is written as [null]. *)
Fixpoint json_norm (j : json) : json :=
  match j with
  | JArr xs =>
      JArr (map (fun x => match x with JUndef => JNull | _ => json_norm x end) xs)
  | JObj kvs =>
      JObj (flat_map (fun '(k, x) => match x with
                                      | JUndef => []
                                      | _ => [(k, json_norm x)]
                                      end) kvs)
  | _ => j
  end.

(** [JSON.parse(JSON.stringify(v))].  [JSON.stringify(undefined)] is
    [undefined], which [JSON.parse] rejects.  A cyclic graph (a [TypeError]
    in the source) exhausts the fuel. *)
Definition json_clone (fuel : nat) (v : value) : M value :=
  fun h => match reify fuel h v with
           | None => Timeout
           | Some JUndef => Throw SyntaxError
           | Some j => alloc (json_norm j) h
           end.

(** ** Pointers and paths *)

(** [s.split(sep)] *)
Fixpoint split_on (sep : ascii) (s : string) : list string :=
  match s with
  | EmptyString => [EmptyString]
  | String c r =>
      if Ascii.eqb c sep then EmptyString :: split_on sep r
      else match split_on sep r with
           | [] => [String c EmptyString]
           | w :: ws => String c w :: ws
           end
  end.

(** [s.replace(/^#\//, '')] *)
Definition strip_fragment (s : string) : string :=
  match s with
  | String "#" (String "/" r) => r
  | _ => s
  end.

(** The path-query library (jsonpath-plus 7.0.0) is not part of the
    repository.  The model covers paths made of child steps, [$.a.b] being
    [["a"; "b"]] and [$] being [[]]: each step follows an own property.  The
    library answers [undefined] for a falsy document, and it calls a
    [callback] on every match without using what the callback returns. *)
Definition path := list string.

Fixpoint select (h : heap) (v : value) (p : path) : list value :=
  match p with
  | [] => [v]
  | k :: p' =>
      match own_get h v k with
      | Some v' => select h v' p'
      | None => []
      end
  end.

Definition JSONPath (p : path) (json : value) : M (option (list value)) :=
  fun h => if truthy json then Ret (Some (select h json p)) h else Ret None h.

(** ** [resolveRef] *)

(** The members of [Object.prototype]: the standard ones and those of the
    standard's annex for web browsers, which the engines implement. *)
Definition object_prototype_names : list string :=
  ["constructor"; "hasOwnProperty"; "isPrototypeOf"; "propertyIsEnumerable";
   "toLocaleString"; "toString"; "valueOf"; "__proto__";
   "__defineGetter__"; "__defineSetter__";
   "__lookupGetter__"; "__lookupSetter__"].

(** [k], which is not an own property of [v], may name a member that [v]
    inherits.  A plain object inherits from [Object.prototype].  An array,
    a string, a number and a boolean inherit from their own prototype
    first, whose members depend on the edition of the language the engine
    implements ([at], [toSorted], ...); none of these prototypes has a
    member named by an index, so every other name is taken as possibly
    inherited. *)
Definition builtin_member (h : heap) (v : value) (k : string) : bool :=
  match v with
  | VRef l =>
      match h !! l with
      | Some (OObj _) => existsb (String.eqb k) object_prototype_names
      | Some (OArr _) =>
          match index_of_string k with Some _ => false | None => true end
      | None => false
      end
  | VStr _ | VNum _ | VBool _ =>
      match index_of_string k with Some _ => false | None => true end
  | VUndef | VNull => false
  end.

(** [v[k]] for an arbitrary name [k]: the own property when there is one;
    otherwise the inherited member, which the model does not follow, or
    [undefined]. *)
Definition lookupM (v : value) (k : string) : M value :=
  fun h => match v with
           | VUndef | VNull => Throw TypeError
           | _ =>
               match own_get h v k with
               | Some x => Ret x h
               | None => if builtin_member h v k then Builtin
                         else Ret VUndef h
               end
           end.

(** The loop of [resolveRef] that follows the segments of a pointer from
    the document root: [derefObj = derefObj[part]; if (!derefObj) throw]. *)
Fixpoint walk (pointer : string) (refPath : list string) (derefObj : value)
  : M value :=
  match refPath with
  | [] => ret derefObj
  | part :: rest =>
      let* d := lookupM derefObj part in
      if truthy d then walk pointer rest d else throw (RefError pointer)
  end.

(** [obj && obj.$ref] *)
Definition ref_of (obj : value) : M value :=
  if truthy obj then getM obj "$ref" else ret obj.

Fixpoint resolveRef (fuel : nat) (obj api : value) : M value :=
  match fuel with
  | 0 => timeout
  | S n =>
      let* r := ref_of obj in
      if truthy r then
        match r with
        | VStr pointer =>
            let refPath := split_on "/" (strip_fragment pointer) in
            let* derefObj := walk pointer refPath api in
            resolveRef n derefObj api
        | _ => throw TypeError (* [replace] is a method of strings only *)
        end
      else
        let* _ := (if is_object obj
                   then for_in_keys (fun v => resolveRef n v api) obj
                   else ret tt) in
        ret obj
  end.

(** ** [dereferenceApi] *)

Fixpoint processSchema (fuel : nat) (apiDoc schema : value) : M value :=
  match fuel with
  | 0 => timeout
  | S n =>
      if negb (truthy schema) then ret schema
      else
        let* r := getM schema "$ref" in
        let* schema := (if truthy r then resolveRef n schema apiDoc
                        else ret schema) in
        let* _ := (if is_object schema
                   then for_in_keys (processSchema n apiDoc) schema
                   else ret tt) in
        ret schema
  end.

(** The function has two parameters; a call that passes a third argument
    runs the same body.  The result [VUndef] is the [undefined] returned
    when [startAt] matches nothing. *)
Definition dereferenceApi (fuel : nat) (apiDoc : value) (startAt : path)
  : M value :=
  let* dereferencedDoc := json_clone fuel apiDoc in
  let* startSchema := JSONPath startAt dereferencedDoc in
  match startSchema with
  | None => throw TypeError (* [undefined.length] *)
  | Some [] => ret VUndef
  | Some (s0 :: _) =>
      let* processedSection := processSchema fuel apiDoc s0 in
      (* the second query only hands [processedSection] to the library,
         which drops it *)
      let* _ := JSONPath startAt dereferencedDoc in
      ret dereferencedDoc
  end.

(** ** Running an operation on a document given as a tree *)

(** The tree below [v], as a step of the monad. *)
Definition readback (fuel : nat) (v : value) : M json :=
  fun h => match reify fuel h v with
           | Some j => Ret j h
           | None => Timeout
           end.

(** A caller that builds the document [j], applies [op] to it, and then
    looks at both the returned document and its own argument. *)
Definition call (fuel : nat) (op : value -> M value) (j : json)
  : outcome (json * json) :=
  (let* doc := alloc j in
   let* r := op doc in
   let* out := readback fuel r in
   let* arg := readback fuel doc in
   ret (out, arg)) [].

Definition result {A B} (o : outcome (A * B)) : option A :=
  match o with Ret (a, _) _ => Some a | _ => None end.

Definition argument_after {A B} (o : outcome (A * B)) : option B :=
  match o with Ret (_, b) _ => Some b | _ => None end.

Definition thrown {A} (o : outcome A) : option error :=
  match o with Throw e => Some e | _ => None end.

(** ** [flattenAllOf] *)

(** [Array.isArray(v)], with the elements. *)
Definition array_elems (h : heap) (v : value) : option (list value) :=
  match v with
  | VRef l => match h !! l with Some (OArr elems) => Some elems | _ => None end
  | _ => None
  end.

(** The own enumerable properties an object spread [{...v}] copies. *)
Definition spread (h : heap) (v : value) : list (string * value) :=
  match v with
  | VRef l =>
      match h !! l with
      | Some (OObj props) => props
      | Some (OArr elems) =>
          combine (map string_of_nat (seq 0 (List.length elems))) elems
      | None => []
      end
  | VStr s =>
      map (fun i => (string_of_nat i, VStr (default "" (char_at s i))))
          (seq 0 (String.length s))
  | _ => []
  end.

(** [{...acc, ...more}] on property lists. *)
Definition spread_into (acc more : list (string * value))
  : list (string * value) :=
  fold_left (fun acc kv => assoc_set (fst kv) (snd kv) acc) more acc.

(** [{...(v || {})}] contributes nothing when [v] is falsy. *)
Definition spread_or_empty (h : heap) (v : value) : list (string * value) :=
  if truthy v then spread h v else [].

(** The callback of the [reduce]:
    [{...merged, ...subSchema, properties: {...(merged.properties || {}),
                                            ...(subSchema.properties || {})}}] *)
Definition allOf_merge (merged subSchema : value) : M value :=
  let* mp := getM merged "properties" in
  let* sp := getM subSchema "properties" in
  let* properties :=
    (fun h => newM (OObj (spread_into (spread_into [] (spread_or_empty h mp))
                                      (spread_or_empty h sp))) h) in
  fun h => newM (OObj (assoc_set "properties" properties
                         (spread_into (spread_into [] (spread h merged))
                                      (spread h subSchema)))) h.

(** [elems.reduce(f, init)] *)
Fixpoint reduce (f : value -> value -> M value) (elems : list value)
  (acc : value) : M value :=
  match elems with
  | [] => ret acc
  | x :: r => let* acc' := f acc x in reduce f r acc'
  end.

(** [delete v[k]] on an object. *)
Definition delM (v : value) (k : string) : M unit :=
  fun h => match v with
           | VRef l =>
               match h !! l with
               | Some (OObj props) => Ret tt (<[l := OObj (assoc_del k props)]> h)
               | _ => Ret tt h
               end
           | _ => Ret tt h
           end.

(** [schema = members.reduce(..., {}); delete schema.allOf] *)
Definition merge_allOf (members : list value) : M value :=
  let* init := newM (OObj []) in
  let* merged := reduce allOf_merge members init in
  let* _ := delM merged "allOf" in
  ret merged.

Fixpoint processAllOf (fuel : nat) (schema : value) : M value :=
  match fuel with
  | 0 => timeout
  | S n =>
      if negb (truthy schema) || negb (is_object schema) then ret schema
      else
        let* a := getM schema "allOf" in
        let* schema :=
          (fun h => match array_elems h a with
                    | Some members => merge_allOf members h
                    | None => Ret schema h
                    end) in
        let* _ := for_in_keys (processAllOf n) schema in
        ret schema
  end.

Definition flattenAllOf (fuel : nat) (apiDoc : value) : M value :=
  let* flattenedDoc := json_clone fuel apiDoc in
  let* _ := processAllOf fuel flattenedDoc in
  ret flattenedDoc.

(** ** [selectFirstOfOneOf] and [selectFirstOfAnyOf]

    The two functions differ in the keyword only. *)
Fixpoint processFirstOf (keyword : string) (fuel : nat) (schema : value)
  : M value :=
  match fuel with
  | 0 => timeout
  | S n =>
      if negb (truthy schema) || negb (is_object schema) then ret schema
      else
        let* a := getM schema keyword in
        let* schema :=
          (fun h => match array_elems h a with
                    | Some _ => getM a "0" h
                    | None => Ret schema h
                    end) in
        let* _ := for_in_keys (processFirstOf keyword n) schema in
        ret schema
  end.

Definition processOneOf := processFirstOf "oneOf".
Definition processAnyOf := processFirstOf "anyOf".

Definition selectFirstOfOneOf (fuel : nat) (apiDoc : value) : M value :=
  let* processedDoc := json_clone fuel apiDoc in
  let* _ := processOneOf fuel processedDoc in
  ret processedDoc.

Definition selectFirstOfAnyOf (fuel : nat) (apiDoc : value) : M value :=
  let* processedDoc := json_clone fuel apiDoc in
  let* _ := processAnyOf fuel processedDoc in
  ret processedDoc.

(** ** Observations on trees *)

(** Some node of the tree has a property named [k]. *)
Fixpoint has_key (k : string) (j : json) : bool :=
  match j with
  | JArr xs => existsb (has_key k) xs
  | JObj kvs =>
      existsb (fun kv => String.eqb (fst kv) k || has_key k (snd kv)) kvs
  | _ => false
  end.

(** Own property of a tree node, as [own_get] reads it from the store. *)
Definition jget (j : json) (k : string) : option json :=
  match j with
  | JObj kvs => assoc k kvs
  | JArr xs =>
      if String.eqb k "length" then Some (JNum (Z.of_nat (List.length xs)))
      else match index_of_string k with
           | Some i => xs !! i
           | None => None
           end
  | JStr s =>
      if String.eqb k "length" then Some (JNum (Z.of_nat (String.length s)))
      else match index_of_string k with
           | Some i => option_map JStr (char_at s i)
           | None => None
           end
  | _ => None
  end.

(** The node a child-step path leads to. *)
Fixpoint jselect (j : json) (p : path) : option json :=
  match p with
  | [] => Some j
  | k :: p' => match jget j k with Some j' => jselect j' p' | None => None end
  end.

(** A segment whose lookup, after the segments before it were followed,
    gives a missing or falsy value. *)
Definition falsy_segment (h : heap) (pointer : string)
  (refPath : list string) (root : value) : Prop :=
  exists pre part post d x,
    refPath = pre ++ part :: post
    /\ walk pointer pre root h = Ret d h
    /\ lookupM d part h = Ret x h
    /\ truthy x = false.

(** The store and the root a caller holds after building [j]. *)
Definition stored (j : json) : value * heap :=
  match alloc j [] with
  | Ret v h => (v, h)
  | _ => (VUndef, [])
  end.

(** ** Sample documents *)

Definition doc_scope_ref : json :=
  JObj [("a", JObj [("$ref", JStr "#/b")]);
        ("b", JObj [("type", JStr "string")])].

Definition doc_ignored_subtree : json :=
  JObj [("components",
         JObj [("schemas", JObj [("S", JObj [("type", JStr "string")])]);
               ("x-stackQL-resources",
                JObj [("r", JObj [("$ref", JStr "#/components/missing")])])])].

Definition doc_nested_ref : json :=
  JObj [("components",
         JObj [("A", JObj [("x", JObj [("$ref", JStr "#/components/B")])]);
               ("B", JObj [("type", JStr "string")])]);
        ("p", JObj [("$ref", JStr "#/components/A")])].

Definition doc_nested_ref_after : json :=
  JObj [("components",
         JObj [("A", JObj [("x", JObj [("type", JStr "string")])]);
               ("B", JObj [("type", JStr "string")])]);
        ("p", JObj [("$ref", JStr "#/components/A")])].

Definition doc_root_allOf : json :=
  JObj [("allOf", JArr [JObj [("type", JStr "object")]])].

Definition doc_root_oneOf : json :=
  JObj [("oneOf", JArr [JObj [("type", JStr "string")]; JObj [("type", JStr "number")]])].

Definition doc_nested_oneOf : json :=
  JObj [("a", JObj [("oneOf",
           JArr [JObj [("oneOf", JArr [JObj [("type", JStr "string")]])]])])].

Definition doc_nested_anyOf : json :=
  JObj [("a", JObj [("anyOf",
           JArr [JObj [("anyOf", JArr [JObj [("type", JStr "string")]])]])])].

Definition doc_falsy_target : json :=
  JObj [("a", JObj [("$ref", JStr "#/b")]); ("b", JNum 0)].

(** ** Reference-free subgraphs

    Below [v], within depth [n], every object is stored and none has a
    truthy [$ref]. *)
Fixpoint plain_within (n : nat) (h : heap) (v : value) : Prop :=
  match v with
  | VRef l =>
      match n with
      | 0 => False
      | S n' =>
          match h !! l with
          | Some (OObj props) =>
              truthy (default VUndef (assoc "$ref" props)) = false
              /\ Forall (fun kv => plain_within n' h (snd kv)) props
          | Some (OArr elems) => Forall (plain_within n' h) elems
          | None => False
          end
      end
  | _ => True
  end.

Definition doc_chain : json :=
  JObj [("A", JObj [("$ref", JStr "#/B")]);
        ("B", JObj [("$ref", JStr "#/C")]);
        ("C", JObj [("type", JStr "string")])].
Definition api_chain : value := fst (stored doc_chain).
Definition heap_chain : heap := snd (stored doc_chain).

(** ** Trees and the store *)

(** The store holds the tree [j] at [v]. *)
Inductive rep (h : heap) : json -> value -> Prop :=
| rep_undef : rep h JUndef VUndef
| rep_null : rep h JNull VNull
| rep_bool b : rep h (JBool b) (VBool b)
| rep_num n : rep h (JNum n) (VNum n)
| rep_str s : rep h (JStr s) (VStr s)
| rep_arr l xs elems :
    h !! l = Some (OArr elems) ->
    Forall2 (rep h) xs elems ->
    rep h (JArr xs) (VRef l)
| rep_obj l kvs props :
    h !! l = Some (OObj props) ->
    Forall2 (fun kv p => fst kv = fst p /\ rep h (snd kv) (snd p)) kvs props ->
    rep h (JObj kvs) (VRef l).

(** Nesting depth of arrays and objects. *)
Fixpoint height (j : json) : nat :=
  match j with
  | JArr xs => S (fold_right (fun x m => Nat.max (height x) m) 0 xs)
  | JObj kvs => S (fold_right (fun kv m => Nat.max (height (snd kv)) m) 0 kvs)
  | _ => 0
  end.

(** A document as [JSON.parse] gives it: no [undefined] anywhere. *)
Fixpoint is_json (j : json) : bool :=
  match j with
  | JUndef => false
  | JArr xs => forallb is_json xs
  | JObj kvs => forallb (fun kv => is_json (snd kv)) kvs
  | _ => true
  end.

Definition jtruthy (j : json) : bool :=
  match j with
  | JUndef | JNull => false
  | JBool b => b
  | JNum n => negb (Z.eqb n 0)
  | JStr s => negb (String.eqb s "")
  | JArr _ | JObj _ => true
  end.

(** The path query [p] has a match in the document [j] (the library
    matches nothing in a falsy document). *)
Definition matches (j : json) (p : path) : bool :=
  jtruthy j && match jselect j p with Some _ => true | None => false end.

Definition doc_plain : json :=
  JObj [("components",
         JObj [("schemas",
                JObj [("S", JObj [("type", JStr "array");
                                  ("enum", JArr [JNum 1; JNull])])])]);
        ("paths", JObj [])].

(** ** Shapes

    Two objects have the same shape when they have the same property names
    in the same order (for arrays, the same length). *)
Definition same_shape (o o' : object) : Prop :=
  match o, o' with
  | OObj props, OObj props' => map fst props = map fst props'
  | OArr elems, OArr elems' => List.length elems = List.length elems'
  | _, _ => False
  end.

(** Every object of [h] is still in [h'], with its shape. *)
Definition keeps_shapes (h h' : heap) : Prop :=
  forall l o, h !! l = Some o -> exists o', h' !! l = Some o' /\ same_shape o o'.

(** ** The merge rule in the words of the specification

    A member of an [allOf] array is an object (with distinct property
    names) whose [properties], when present, is such an object too. *)
Definition plain_object (h : heap) (v : value) : Prop :=
  exists l props,
    v = VRef l /\ h !! l = Some (OObj props) /\ NoDup (map fst props).

(** [v.properties] *)
Definition props_of (h : heap) (v : value) : value :=
  default VUndef (own_get h v "properties").

Definition absent_or_object (h : heap) (v : value) : Prop :=
  v = VUndef \/ plain_object h v.

Definition schema_member (h : heap) (v : value) : Prop :=
  plain_object h v /\ absent_or_object h (props_of h v).

(** Later members overwrite earlier ones: the value of [k] in the last
    member, in array order, that has a property [k]. *)
Definition latest (h : heap) (members : list value) (k : string)
  : option value :=
  fold_left (fun acc m => match own_get h m k with
                          | Some v => Some v
                          | None => acc
                          end) members None.

(** Key union of the members' [properties]: the entry [k] of the last
    member whose [properties] has an entry [k]. *)
Definition latest_property (h : heap) (members : list value) (k : string)
  : option value :=
  fold_left (fun acc m => match own_get h (props_of h m) k with
                          | Some v => Some v
                          | None => acc
                          end) members None.

Definition doc_two_members : json :=
  JObj [("x", JObj [("allOf",
          JArr [JObj [("properties", JObj [("a", JObj [("type", JStr "string")])]);
                      ("type", JStr "object")];
                JObj [("properties", JObj [("b", JObj [("type", JStr "number")])]);
                      ("type", JStr "record")]])])].
Definition heap_two_members : heap := snd (stored doc_two_members).

(** What the accumulator of the [reduce] satisfies after the members
    [done], in a store [hc] that extends [h]. *)
Definition merged_inv (h hc : heap) (acc : value) (done : list value) : Prop :=
  exists la aprops,
    acc = VRef la /\ hc !! la = Some (OObj aprops) /\ NoDup (map fst aprops)
    /\ (forall k, k <> "properties" -> assoc k aprops = latest h done k)
    /\ absent_or_object hc (default VUndef (assoc "properties" aprops))
    /\ default VUndef (assoc "properties" aprops) <> acc
    /\ (forall k, own_get hc (default VUndef (assoc "properties" aprops)) k
                  = latest_property h done k).

Definition api_scope_ref : value := fst (stored doc_scope_ref).
Definition heap_scope_ref : heap := snd (stored doc_scope_ref).

(** ** Reference steps

    [a] is a reference node whose pointer, followed from the root [api],
    leads to [b]. *)
Definition refers_to (h : heap) (api a b : value) : Prop :=
  exists pointer,
    own_get h a "$ref" = Some (VStr pointer) /\ pointer <> ""
    /\ walk pointer (split_on "/" (strip_fragment pointer)) api h = Ret b h.

Definition doc_self_ref : json :=
  JObj [("a", JObj [("$ref", JStr "#/b")]);
        ("b", JObj [("$ref", JStr "#/a")])].
Definition api_self_ref : value := fst (stored doc_self_ref).
Definition heap_self_ref : heap := snd (stored doc_self_ref).

(** ** Pointer text *)

(** [parts.join(sep)] *)
Fixpoint join_with (sep : ascii) (parts : list string) : string :=
  match parts with
  | [] => EmptyString
  | [w] => w
  | w :: rest => String.append w (String sep (join_with sep rest))
  end.

Fixpoint contains_char (c : ascii) (s : string) : bool :=
  match s with
  | EmptyString => false
  | String c' r => Ascii.eqb c' c || contains_char c r
  end.

Definition doc_slash_key : json :=
  JObj [("paths", JObj [("/pets", JObj [("get", JStr "list")])]);
        ("r", JObj [("$ref", JStr "#/paths/~1pets")])].
Definition heap_slash_key : heap := snd (stored doc_slash_key).

(** ** Documents without a composition keyword *)

(** Some object of the tree holds an array under [kw]. *)
Fixpoint has_keyword (kw : string) (j : json) : bool :=
  match j with
  | JArr xs => existsb (has_keyword kw) xs
  | JObj kvs =>
      match assoc kw kvs with Some (JArr _) => true | _ => false end
      || existsb (fun kv => has_keyword kw (snd kv)) kvs
  | _ => false
  end.

(** Below [v], within depth [n], every object is stored and none holds an
    array under [kw]. *)
Fixpoint keyword_free_within (kw : string) (n : nat) (h : heap) (v : value)
  : Prop :=
  match v with
  | VRef l =>
      match n with
      | 0 => False
      | S n' =>
          match h !! l with
          | Some (OObj props) =>
              array_elems h (default VUndef (assoc kw props)) = None
              /\ Forall (fun kv => keyword_free_within kw n' h (snd kv)) props
          | Some (OArr elems) => Forall (keyword_free_within kw n' h) elems
          | None => False
          end
      end
  | _ => True
  end.

(** A name that is neither [length] nor an index, so that no array has it. *)
Definition plain_name (kw : string) : Prop :=
  String.eqb kw "length" = false /\ index_of_string kw = None.

Definition doc_named_allOf : json :=
  JObj [("schema",
         JObj [("type", JStr "object");
               ("properties",
                JObj [("allOf", JObj [("type", JStr "string")]);
                      ("oneOf", JStr "exclusive")])])].

Definition doc_alternatives : json :=
  JObj [("pet",
         JObj [("description", JStr "a pet");
               ("oneOf", JArr [JObj [("type", JStr "string")];
                               JObj [("type", JStr "number")]])])].
Definition heap_alternatives : heap := snd (stored doc_alternatives).

Definition doc_string_alternative : json :=
  JObj [("pet", JObj [("oneOf", JArr [JStr "cat"; JStr "dog"])])].
Definition heap_string_alternative : heap := snd (stored doc_string_alternative).

(** [v == null] *)
Definition is_nullish (v : value) : bool :=
  match v with VUndef | VNull => true | _ => false end.

(** ** Objects created after a point

    [above n v]: when [v] is a reference, it is to an object created at or
    after position [n] of the store.  [closed_above n h]: the objects of
    [h] from position [n] on only refer to such objects. *)
Definition above (n : nat) (v : value) : Prop :=
  match v with VRef l => n <= l | _ => True end.

Definition object_above (n : nat) (o : object) : Prop :=
  match o with
  | OObj props => Forall (fun kv => above n (snd kv)) props
  | OArr elems => Forall (above n) elems
  end.

Definition closed_above (n : nat) (h : heap) : Prop :=
  forall l o, n <= l -> h !! l = Some o -> object_above n o.

(** A computation that, started in a store closed above [n], only writes
    at or after position [n], keeps the store closed above [n], and returns
    a result satisfying [post]. *)
Definition writes_above {A} (n : nat) (m : M A) (post : A -> Prop) : Prop :=
  forall h a h',
    n <= List.length h -> closed_above n h -> m h = Ret a h' ->
    take n h' = take n h /\ closed_above n h'
    /\ List.length h <= List.length h' /\ post a.

(** ** Subgraphs free of a keyword

    [lacks kw h l]: the object at [l] has no truthy [kw].  [resolved_set kw
    h dn]: [dn] is a set of objects without a truthy [kw] whose properties
    only lead to objects of [dn]. *)
Definition in_set (dn : loc -> Prop) (v : value) : Prop :=
  match v with VRef l => dn l | _ => True end.

Definition lacks (kw : string) (h : heap) (l : loc) : Prop :=
  truthy (default VUndef (own_get h (VRef l) kw)) = false.

Definition resolved_set (kw : string) (h : heap) (dn : loc -> Prop) : Prop :=
  forall l, dn l ->
    lacks kw h l /\ forall k x, own_get h (VRef l) k = Some x -> in_set dn x.

(** The state of a walk in progress: [dn] is resolved, the objects of
    [pending] (whose loops are running) have no truthy [kw], the
    properties in [slots] (already assigned by those loops) lead into
    [dn], and all these objects satisfy [ok]. *)
Definition walk_inv (kw : string) (ok : heap -> value -> Prop) (h : heap)
  (dn pending : loc -> Prop) (slots : loc -> string -> Prop) : Prop :=
  resolved_set kw h dn
  /\ (forall l, pending l -> lacks kw h l)
  /\ (forall l k x, slots l k -> own_get h (VRef l) k = Some x -> in_set dn x)
  /\ (forall l, dn l \/ pending l \/ (exists k, slots l k) -> ok h (VRef l)).

(** What a walk needs of a condition [good] on stores and a condition [ok]
    on the values it meets: values that are not objects are [ok], [ok]
    survives every step that keeps shapes, what is read from a [good] store
    is [ok], and assignments keep the store [good] as long as [kw] is only
    assigned falsy values. *)
Definition store_discipline (kw : string) (good : heap -> Prop)
  (ok : heap -> value -> Prop) : Prop :=
  (forall h v, is_object v = false -> ok h v)
  /\ (forall h h' v, keeps_shapes h h' -> ok h v -> ok h' v)
  /\ (forall h l k, good h -> ok h (default VUndef (own_get h (VRef l) k)))
  /\ (forall l1 k x h h',
        good h -> In k (enum_keys h (VRef l1)) -> ok h x ->
        (k = kw -> truthy x = false) ->
        setM (VRef l1) k x h = Ret tt h' -> good h').

Definition any_store : heap -> Prop := fun _ => True.
Definition any_value : heap -> value -> Prop := fun _ _ => True.

(** What a walk guarantees for one value: [resolveRef] and [processSchema]
    for [$ref] in any store, [processAllOf] for [allOf]. *)
Definition resolves (kw : string) (good : heap -> Prop)
  (ok : heap -> value -> Prop) (f : value -> M value) : Prop :=
  forall v h r h',
    good h -> ok h v -> f v h = Ret r h' ->
    keeps_shapes h h' /\ good h' /\ ok h' r
    /\ (truthy v = false -> r = v)
    /\ forall dn pending slots,
         walk_inv kw ok h dn pending slots ->
         exists dn', (forall l, dn l -> dn' l)
                     /\ walk_inv kw ok h' dn' pending slots /\ in_set dn' r.

(** The check of the test suite:
    [if (typeof schema !== "object" || schema === null) return false;
     if (schema.$ref) return true;
     for (const key in schema) if (hasRefs(schema[key])) return true;
     return false] *)
Fixpoint hasRefs (fuel : nat) (h : heap) (schema : value) : option bool :=
  match fuel with
  | 0 => None
  | S n =>
      if negb (is_object schema) then Some false
      else if truthy (default VUndef (own_get h schema "$ref")) then Some true
      else
        (fix loop (ks : list string) : option bool :=
           match ks with
           | [] => Some false
           | k :: ks' =>
               match hasRefs n h (default VUndef (own_get h schema k)) with
               | Some true => Some true
               | Some false => loop ks'
               | None => None
               end
           end) (enum_keys h schema)
  end.

(** The first test of the suite, for the document [j]:
    [const d = await dereferenceApi(apiDoc); const refsExist = hasRefs(d)]. *)
Definition refs_exist_after_dereference (fuel : nat) (j : json)
  : outcome (option bool) :=
  (let* apiDoc := alloc j in
   let* dereferencedDoc := dereferenceApi fuel apiDoc [] in
   fun h => Ret (hasRefs fuel h dereferencedDoc) h) [].

(** Some object of the tree has a truthy [$ref]. *)
Fixpoint has_truthy_ref (j : json) : bool :=
  match j with
  | JArr xs => existsb has_truthy_ref xs
  | JObj kvs =>
      jtruthy (default JUndef (assoc "$ref" kvs))
      || existsb (fun kv => has_truthy_ref (snd kv)) kvs
  | _ => false
  end.

Definition doc_falsy_refs : json :=
  JObj [("example", JObj [("$ref", JNull); ("note", JStr "payload")]);
        ("items", JArr [JObj [("$ref", JStr "")]; JObj [("$ref", JNum 0)]])].

Definition api_nested_ref : value := fst (stored doc_nested_ref).
Definition heap_nested_ref : heap := snd (stored doc_nested_ref).

(** The clone of [doc_nested_ref], the node [$.components] of the clone, and
    the store after [dereferenceApi(doc_nested_ref, "$.components")]. *)
Definition clone_nested_ref : value * heap :=
  Eval vm_compute in
    match json_clone 20 api_nested_ref heap_nested_ref with
    | Ret d h => (d, h)
    | _ => (VUndef, [])
    end.
Definition scope_nested_ref : value :=
  Eval vm_compute in
    hd VUndef (select (snd clone_nested_ref) (fst clone_nested_ref) ["components"]).
Definition after_nested_ref : heap :=
  Eval vm_compute in
    match dereferenceApi 20 api_nested_ref ["components"] heap_nested_ref with
    | Ret _ h => h
    | _ => []
    end.

Definition doc_property_named_ref : json :=
  JObj [("properties", JObj [("$ref", JObj [("type", JStr "string")])])].
Definition heap_property_named_ref : heap := snd (stored doc_property_named_ref).

Definition doc_sibling_keys : json :=
  JObj [("pet",
         JObj [("description", JStr "a pet");
               ("allOf", JArr [JObj [("type", JStr "object")];
                               JObj [("required", JArr [JStr "name"])]])])].
Definition heap_sibling_keys : heap := snd (stored doc_sibling_keys).


(** [allocated h v]: when [v] is a reference, it is to an object of [h]. *)
Definition allocated (h : heap) (v : value) : Prop :=
  match v with VRef l => l < List.length h | _ => True end.


(** ** The check of the flattening test

    [Object.values(v)]: the values of the own enumerable properties, in
    enumeration order. *)
Definition object_values (h : heap) (v : value) : list value :=
  map (fun k => default VUndef (own_get h v k)) (enum_keys h v).

(** [vs.some(f)] *)
Fixpoint array_some (f : value -> option bool) (vs : list value)
  : option bool :=
  match vs with
  | [] => Some false
  | v :: vs' =>
      match f v with
      | Some true => Some true
      | Some false => array_some f vs'
      | None => None
      end
  end.

(** [if (typeof schema !== "object" || schema === null) return false;
     if (schema.allOf) return true;
     return Object.values(schema).some((value) => hasAllOf(value))] *)
Fixpoint hasAllOf (fuel : nat) (h : heap) (schema : value) : option bool :=
  match fuel with
  | 0 => None
  | S n =>
      if negb (is_object schema) then Some false
      else if truthy (default VUndef (own_get h schema "allOf")) then Some true
      else array_some (hasAllOf n h) (object_values h schema)
  end.

(** [const flattenedDoc = await flattenAllOf(doc); hasAllOf(flattenedDoc)],
    for the document [j]. *)
Definition allOf_exists_after_flatten (fuel : nat) (j : json)
  : outcome (option bool) :=
  (let* apiDoc := alloc j in
   let* flattenedDoc := flattenAllOf fuel apiDoc in
   fun h => Ret (hasAllOf fuel h flattenedDoc) h) [].

(** Stores in which [allOf] is used as the composition keyword: every
    property refers to an object of the store, and an [allOf] property is
    an array unless it is falsy. *)
Definition entry_ok (h : heap) (kv : string * value) : Prop :=
  allocated h (snd kv)
  /\ (fst kv = "allOf" ->
      truthy (snd kv) = false \/ array_elems h (snd kv) <> None).

Definition object_ok (h : heap) (o : object) : Prop :=
  match o with
  | OObj props => Forall (entry_ok h) props
  | OArr elems => Forall (allocated h) elems
  end.

Definition allOf_store (h : heap) : Prop := Forall (object_ok h) h.

(** The same for a JSON document. *)
Fixpoint allOf_arrays (j : json) : bool :=
  match j with
  | JArr xs => forallb allOf_arrays xs
  | JObj kvs =>
      forallb (fun kv =>
                 allOf_arrays (snd kv)
                 && (negb (String.eqb (fst kv) "allOf")
                     || negb (jtruthy (snd kv))
                     || match snd kv with JArr _ => true | _ => false end))
              kvs
  | _ => true
  end.


(** [h'] has every array of [h], and is at least as long. *)
Definition keeps_arrays (h h' : heap) : Prop :=
  List.length h <= List.length h'
  /\ forall l elems, h !! l = Some (OArr elems) ->
       exists elems', h' !! l = Some (OArr elems').


(** ** Trails

    [passes_ref h v]: [v] is an object without a truthy [$ref], which
    [processSchema] walks in place.  [passes_allOf h v]: [v] is an object
    without an [allOf] array, which [processAllOf] walks in place. *)
Definition passes_ref (h : heap) (v : value) : Prop :=
  is_object v = true
  /\ truthy (default VUndef (own_get h v "$ref")) = false.

Definition passes_allOf (h : heap) (v : value) : Prop :=
  is_object v = true
  /\ array_elems h (default VUndef (own_get h v "allOf")) = None.

(** [leads_only passes inert h v trail lq t]: following the property
    names [trail] from [v] leads to [t]; every node on the way is an
    object or array that [passes], and its other properties hold [inert]
    values; the last name of [trail] is a property of the object at
    [lq], which holds [t], and [lq] is met once. *)
Fixpoint leads_only (passes inert : heap -> value -> Prop) (h : heap)
  (v : value) (trail : list string) (lq : loc) (t : value) : Prop :=
  match trail with
  | [] => False
  | key :: trail' =>
      exists l before after c,
        v = VRef l /\ passes h v
        /\ enum_keys h v = before ++ key :: after
        /\ ~ In key before /\ ~ In key after
        /\ own_get h v key = Some c
        /\ (forall k, In k (before ++ after) ->
                      inert h (default VUndef (own_get h v k)))
        /\ match trail' with
           | [] => l = lq /\ c = t
           | _ :: _ => l <> lq /\ leads_only passes inert h c trail' lq t
           end
  end.


(** ** Pointers given by their segments *)

(** The node reached from [v] through the own properties [segs], each of
    which holds a truthy value. *)
Fixpoint follow (h : heap) (v : value) (segs : list string) : option value :=
  match segs with
  | [] => Some v
  | s :: r =>
      match own_get h v s with
      | Some x => if truthy x then follow h x r else None
      | None => None
      end
  end.

(** The pointer text [#/s1/s2/...]. *)
Definition pointer_to (segs : list string) : string :=
  String "#" (String "/" (join_with "/" segs)).

(** Names a pointer can spell: there is one at least, and none has a
    slash. *)
Definition segments_ok (segs : list string) : Prop :=
  segs <> [] /\ Forall (fun s => contains_char "/" s = false) segs.

(** A chain [get -> B -> C] with pointers of three segments, the reference
    node two levels below [paths], between two siblings without
    references; its clone and the node [$.paths] of the clone. *)
Definition doc_deep_chain : json :=
  JObj [("paths",
         JObj [("summary", JStr "s");
               ("/p", JObj [("get", JObj [("$ref", JStr "#/components/schemas/B")])]);
               ("tags", JArr [JStr "t"])]);
        ("components",
         JObj [("schemas",
                JObj [("B", JObj [("$ref", JStr "#/components/schemas/C")]);
                      ("C", JObj [("type", JStr "string")])])])].
Definition api_deep_chain : value := fst (stored doc_deep_chain).
Definition heap_deep_chain : heap := snd (stored doc_deep_chain).
Definition clone_deep_chain : value * heap :=
  Eval vm_compute in
    match json_clone 8 api_deep_chain heap_deep_chain with
    | Ret d h => (d, h)
    | _ => (VUndef, [])
    end.
Definition scope_deep_chain : value :=
  Eval vm_compute in
    hd VUndef (select (snd clone_deep_chain) (fst clone_deep_chain) ["paths"]).

(** The store a caller of [dereferenceApi(doc_chain)] is left with, and
    the document the call returned. *)
Definition after_chain : value * heap :=
  Eval vm_compute in
    match dereferenceApi 20 api_chain [] heap_chain with
    | Ret r h => (r, h)
    | _ => (VUndef, [])
    end.


(** The instance of the claim on [allOf] at the root of a document. *)
Definition doc_root_two_members : json :=
  JObj [("allOf",
         JArr [JObj [("properties", JObj [("a", JObj [("type", JStr "string")])])];
               JObj [("properties", JObj [("b", JObj [("type", JStr "number")])])]])].

(** An [allOf] node three levels below the root, beside a sibling and a
    key of its own; its clone. *)
Definition doc_deep_allOf : json :=
  JObj [("info", JObj [("title", JStr "t")]);
        ("components",
         JObj [("schemas",
                JObj [("Pet",
                       JObj [("description", JStr "d");
                             ("allOf",
                              JArr [JObj [("type", JStr "object");
                                          ("properties",
                                           JObj [("a", JObj [("type", JStr "string")]);
                                                 ("c", JObj [("type", JStr "integer")])])];
                                    JObj [("type", JStr "record");
                                          ("properties",
                                           JObj [("b", JObj [("type", JStr "number")]);
                                                 ("c", JObj [("type", JStr "boolean")])])]])]);
                      ("Tag", JObj [("type", JStr "string")])])])].
Definition api_deep_allOf : value := fst (stored doc_deep_allOf).
Definition heap_deep_allOf : heap := snd (stored doc_deep_allOf).
Definition clone_deep_allOf : value * heap :=
  Eval vm_compute in
    match json_clone 9 api_deep_allOf heap_deep_allOf with
    | Ret d h => (d, h)
    | _ => (VUndef, [])
    end.


(** ** The way to the first reference

    A step of the walk: into the property [k] of a node, or along the
    [$ref] of a reference node. *)
Inductive step : Type :=
| Key (k : string)
| Ref.

(** [reaches_first n h api v steps t]: the walk that starts at [v] gets to
    [t] by [steps], and to nothing else that holds a reference before.  A
    step [Key k] leaves an object or array that is no reference, whose
    properties visited before [k] hold values without references; a step
    [Ref] leaves a reference node whose pointer, given by its segments,
    leads from the root [api] to the next node. *)
Fixpoint reaches_first (n : nat) (h : heap) (api v : value)
  (steps : list step) (t : value) : Prop :=
  match steps with
  | [] => v = t
  | Key key :: rest =>
      exists before after c,
        passes_ref h v
        /\ enum_keys h v = before ++ key :: after
        /\ own_get h v key = Some c
        /\ (forall k, In k before ->
                      plain_within n h (default VUndef (own_get h v k)))
        /\ reaches_first n h api c rest t
  | Ref :: rest =>
      exists segs d,
        own_get h v "$ref" = Some (VStr (pointer_to segs))
        /\ segments_ok segs
        /\ follow h api segs = Some d
        /\ reaches_first n h api d rest t
  end.

(** A reference below [paths] to a schema of the document, one of whose
    properties, after a property without references, refers to a missing
    schema; its clone. *)
Definition doc_deep_missing : json :=
  JObj [("info", JObj [("title", JStr "t")]);
        ("paths",
         JObj [("/p", JObj [("get", JObj [("$ref", JStr "#/components/schemas/S")])])]);
        ("components",
         JObj [("schemas",
                JObj [("S", JObj [("title", JStr "s");
                                  ("items", JObj [("$ref", JStr "#/components/missing")])])])])].
Definition api_deep_missing : value := fst (stored doc_deep_missing).
Definition heap_deep_missing : heap := snd (stored doc_deep_missing).
Definition clone_deep_missing : value * heap :=
  Eval vm_compute in
    match json_clone 8 api_deep_missing heap_deep_missing with
    | Ret d h => (d, h)
    | _ => (VUndef, [])
    end.

(* ================================================================== *)
(** * Properties *)

(** ** The scope node itself is a reference *)

(** C1, at [dereferenceApi(doc_scope_ref, "$.a")]: the pointer [#/b]
    resolves and nothing is cyclic, yet the returned document is the
    unchanged clone, whose scope node [a] still holds its [$ref]; the
    resolved section that [processSchema] computes for the scope node (the
    object at [VRef 0] in the stored document) is not installed.  With the
    scope [$] the same reference, now a child of the scope node, is
    replaced. *)
Theorem dereferenceApi_scope_reference_kept :
  result (call 20 (fun d => dereferenceApi 20 d ["a"]) doc_scope_ref)
    = Some doc_scope_ref
  /\ option_map (has_key "$ref") (jselect doc_scope_ref ["a"]) = Some true
  /\ (let* processedSection := processSchema 20 api_scope_ref (VRef 0) in
      readback 20 processedSection) heap_scope_ref
     = Ret (JObj [("type", JStr "string")]) heap_scope_ref
  /\ result (call 20 (fun d => dereferenceApi 20 d []) doc_scope_ref)
     = Some (JObj [("a", JObj [("type", JStr "string")]);
                   ("b", JObj [("type", JStr "string")])]).
Proof. repeat split; vm_compute; reflexivity. Qed.

(** ** No third parameter *)

(** C2, at [dereferenceApi(doc_ignored_subtree, "$",
    ["$.components.x-stackQL-resources"])]: the function has no
    [ignorePaths] parameter, the walk enters the subtree and the call throws
    on its unresolvable pointer. *)
Theorem dereferenceApi_no_ignore_paths :
  thrown (call 20 (fun d => dereferenceApi 20 d []) doc_ignored_subtree)
    = Some (RefError "#/components/missing").
Proof. vm_compute; reflexivity. Qed.

(** ** The argument of [dereferenceApi] is updated in place *)

(** C3, at [dereferenceApi(doc_nested_ref)]: [resolveRef] walks the
    caller's document, not the clone, and assigns the resolved children into
    it; after the call the caller's [components.A.x] is no longer the
    reference it was. *)
Theorem dereferenceApi_mutates_argument :
  argument_after (call 20 (fun d => dereferenceApi 20 d []) doc_nested_ref)
    = Some doc_nested_ref_after
  /\ doc_nested_ref_after <> doc_nested_ref.
Proof. split; [vm_compute; reflexivity | discriminate]. Qed.

(** ** Keywords that survive *)

(** C4, at [flattenAllOf(doc_root_allOf)]: the merged root is dropped and
    the returned document still has its [allOf]. *)
Theorem flattenAllOf_root_allOf_kept :
  result (call 20 (flattenAllOf 20) doc_root_allOf) = Some doc_root_allOf
  /\ has_key "allOf" doc_root_allOf = true.
Proof. split; vm_compute; reflexivity. Qed.

(** C5, at a root [oneOf] and at a [oneOf] (an [anyOf]) whose first
    alternative is itself a [oneOf] ([anyOf]) node: the returned documents
    still contain the keyword. *)
Theorem selectFirstOf_keyword_kept :
  result (call 20 (selectFirstOfOneOf 20) doc_root_oneOf) = Some doc_root_oneOf
  /\ has_key "oneOf" doc_root_oneOf = true
  /\ result (call 20 (selectFirstOfOneOf 20) doc_nested_oneOf)
     = Some (JObj [("a", JObj [("oneOf", JArr [JObj [("type", JStr "string")]])])])
  /\ result (call 20 (selectFirstOfAnyOf 20) doc_nested_anyOf)
     = Some (JObj [("a", JObj [("anyOf", JArr [JObj [("type", JStr "string")]])])]).
Proof. repeat split; vm_compute; reflexivity. Qed.

(** ** The monad, one step at a time *)

Lemma bind_ret {A B} (m : M A) (f : A -> M B) h a h' :
  m h = Ret a h' -> bind m f h = f a h'.
Proof. intros E; unfold bind; rewrite E; reflexivity. Qed.

Lemma bind_throw {A B} (m : M A) (f : A -> M B) h e :
  m h = Throw e -> bind m f h = Throw e.
Proof. intros E; unfold bind; rewrite E; reflexivity. Qed.

Lemma bind_Ret_inv {A B} (m : M A) (f : A -> M B) h b h' :
  bind m f h = Ret b h' ->
  exists a h1, m h = Ret a h1 /\ f a h1 = Ret b h'.
Proof.
  unfold bind; destruct (m h) as [a h1| | |] eqn:E; try discriminate.
  intros E'; exists a, h1; split; [reflexivity | exact E'].
Qed.

Lemma getM_Ret_inv v k h x h' :
  getM v k h = Ret x h' -> h' = h /\ x = default VUndef (own_get h v k).
Proof.
  unfold getM; destruct v; try discriminate;
    intros E; injection E as <- <-; split; reflexivity.
Qed.

Lemma lookupM_Ret_heap v k h x h' : lookupM v k h = Ret x h' -> h' = h.
Proof.
  unfold lookupM. destruct v; try discriminate;
    (destruct (own_get h _ k); [|destruct (builtin_member h _ k)]);
    try discriminate; intros E; injection E as _ <-; reflexivity.
Qed.

Lemma lookupM_not_RefError v k h p : lookupM v k h <> Throw (RefError p).
Proof.
  unfold lookupM. destruct v; try discriminate;
    (destruct (own_get h _ k); [|destruct (builtin_member h _ k)]);
    discriminate.
Qed.

(** An own property is what the read gives, whatever the prototypes hold. *)
Lemma lookupM_own v k h x :
  own_get h v k = Some x -> lookupM v k h = Ret x h.
Proof.
  intros E. unfold lookupM. rewrite E.
  destruct v; try reflexivity; discriminate.
Qed.

(** ** Failure of a pointer *)

Lemma walk_Ret_heap pointer refPath : forall root h d h',
  walk pointer refPath root h = Ret d h' -> h' = h.
Proof.
  induction refPath as [|part rest IH]; intros root h d h' E; simpl in E.
  - injection E as _ <-; reflexivity.
  - apply bind_Ret_inv in E as (x & h1 & Eg & E).
    apply lookupM_Ret_heap in Eg as ->.
    destruct (truthy x); [eapply IH; exact E | discriminate].
Qed.

Lemma walk_throws_falsy pointer refPath : forall root h,
  walk pointer refPath root h = Throw (RefError pointer) ->
  falsy_segment h pointer refPath root.
Proof.
  induction refPath as [|part rest IH]; intros root h E; simpl in E.
  - discriminate.
  - unfold bind in E. destruct (lookupM root part h) as [x h1| e | |] eqn:Eg.
    + pose proof (lookupM_Ret_heap _ _ _ _ _ Eg) as ->.
      destruct (truthy x) eqn:Tx.
      * destruct (IH _ _ E) as (pre & p & post & d & y & -> & Ew & Ey & Ty).
        exists (part :: pre), p, post, d, y; repeat split; try assumption.
        simpl. rewrite (bind_ret _ _ _ _ _ Eg), Tx. exact Ew.
      * exists [], part, rest, root, x; repeat split; assumption.
    + exfalso. injection E as ->. exact (lookupM_not_RefError _ _ _ _ Eg).
    + discriminate.
    + discriminate.
Qed.

Lemma falsy_walk_throws pointer refPath root h :
  falsy_segment h pointer refPath root ->
  walk pointer refPath root h = Throw (RefError pointer).
Proof.
  intros (pre & part & post & d & x & -> & Ew & Ex & Tx).
  revert root Ew. induction pre as [|p pre IH]; intros root Ew; simpl in *.
  - injection Ew as ->. rewrite (bind_ret _ _ _ _ _ Ex), Tx. reflexivity.
  - unfold bind in Ew |- *. destruct (lookupM root p h) as [y h1| | |] eqn:Eg;
      try discriminate.
    pose proof (lookupM_Ret_heap _ _ _ _ _ Eg) as ->.
    destruct (truthy y); [apply IH; exact Ew | discriminate].
Qed.


Lemma ref_of_string_inv obj h pointer :
  ref_of obj h = Ret (VStr pointer) h -> pointer <> "" ->
  truthy obj = true /\ getM obj "$ref" h = Ret (VStr pointer) h.
Proof.
  unfold ref_of. destruct (truthy obj) eqn:T; intros E Hne.
  - split; [reflexivity | exact E].
  - injection E as ->. simpl in T. destruct pointer; [contradiction | discriminate].
Qed.

(** A node with an own [$ref] is an object, and [obj && obj.$ref] reads
    that property. *)
Lemma own_ref_ref_of h obj r :
  own_get h obj "$ref" = Some r -> ref_of obj h = Ret r h.
Proof.
  intros E. destruct obj as [| | | |s|l]; try discriminate.
  unfold ref_of, getM. cbn [truthy]. rewrite E. reflexivity.
Qed.

Lemma truthy_pointer pointer : pointer <> "" -> truthy (VStr pointer) = true.
Proof. destruct pointer; [contradiction | reflexivity]. Qed.

(** ** Names of array elements *)

Lemma unorm_not_Nil d : Decimal.unorm d <> Decimal.Nil.
Proof. induction d; simpl; try discriminate. exact IHd. Qed.

Lemma to_uint_not_Nil n : Nat.to_uint n <> Decimal.Nil.
Proof.
  rewrite <- (DecimalNat.Unsigned.of_to n) at 1.
  rewrite DecimalNat.Unsigned.to_of. apply unorm_not_Nil.
Qed.

Lemma index_of_string_of_nat i : index_of_string (string_of_nat i) = Some i.
Proof.
  unfold index_of_string, string_of_nat at 1.
  rewrite (NilZero.usu _ (to_uint_not_Nil i)).
  rewrite DecimalNat.Unsigned.of_to, String.eqb_refl. reflexivity.
Qed.

Lemma string_of_nat_not_length i : String.eqb (string_of_nat i) "length" = false.
Proof.
  destruct (String.eqb (string_of_nat i) "length") eqn:E; [|reflexivity].
  apply String.eqb_eq in E. pose proof (index_of_string_of_nat i) as P.
  rewrite E in P. vm_compute in P. discriminate.
Qed.

(** ** Property lists *)

Lemma assoc_In {A} k (kvs : list (string * A)) :
  In k (map fst kvs) -> exists v, assoc k kvs = Some v /\ In (k, v) kvs.
Proof.
  induction kvs as [|[k' v'] r IH]; simpl; [contradiction|].
  intros Hin. destruct (String.eqb k k') eqn:E.
  - apply String.eqb_eq in E as ->. exists v'; split; [reflexivity | left; reflexivity].
  - destruct Hin as [->|Hin]; [rewrite String.eqb_refl in E; discriminate|].
    destruct (IH Hin) as (v & Ev & Iv). exists v; split; [exact Ev | right; exact Iv].
Qed.

Lemma assoc_set_same {A} k (v : A) kvs :
  assoc k kvs = Some v -> assoc_set k v kvs = kvs.
Proof.
  induction kvs as [|[k' v'] r IH]; simpl; [discriminate|].
  destruct (String.eqb k k'); intros E.
  - injection E as ->; reflexivity.
  - rewrite (IH E); reflexivity.
Qed.

(** ** A loop that changes nothing *)

Lemma for_in_unchanged f o h : forall ks,
  (forall k, In k ks ->
     exists v, getM o k h = Ret v h /\ f v h = Ret v h /\ setM o k v h = Ret tt h) ->
  for_in f o ks h = Ret tt h.
Proof.
  induction ks as [|k ks IH]; intros Hk; simpl; [reflexivity|].
  destruct (Hk k (or_introl eq_refl)) as (v & Eg & Ef & Es).
  rewrite (bind_ret _ _ _ _ _ Eg), (bind_ret _ _ _ _ _ Ef), (bind_ret _ _ _ _ _ Es).
  apply IH. intros k' Hin. apply Hk. right; exact Hin.
Qed.

Lemma for_in_keys_unchanged f l h (Q : value -> Prop) :
  (forall v, Q v -> f v h = Ret v h) ->
  match h !! l with
  | Some (OObj props) => Forall (fun kv => Q (snd kv)) props
  | Some (OArr elems) => Forall Q elems
  | None => True
  end ->
  for_in_keys f (VRef l) h = Ret tt h.
Proof.
  intros Hf Hq. unfold for_in_keys, enum_keys.
  destruct (h !! l) as [[props|elems]|] eqn:El; [| |reflexivity].
  - apply for_in_unchanged. intros k Hin.
    destruct (assoc_In _ _ Hin) as (v & Ev & Iv). exists v.
    rewrite List.Forall_forall in Hq. specialize (Hq _ Iv). simpl in Hq.
    unfold getM, setM, own_get. rewrite El, Ev. cbn [default from_option].
    rewrite (assoc_set_same _ _ _ Ev). rewrite (list_insert_id _ _ _ El).
    repeat split. apply Hf, Hq.
  - apply for_in_unchanged. intros k Hin.
    apply in_map_iff in Hin as (i & <- & Hi). apply in_seq in Hi.
    destruct (lookup_lt_is_Some_2 elems i) as [v Ev]; [lia|]. exists v.
    rewrite List.Forall_forall in Hq.
    assert (Qv : Q v).
    { apply Hq. apply list_elem_of_In. eapply list_elem_of_lookup_2; exact Ev. }
    unfold getM, setM, own_get.
    rewrite El, string_of_nat_not_length, index_of_string_of_nat, Ev.
    cbn [default from_option].
    rewrite (list_insert_id _ _ _ Ev), (list_insert_id _ _ _ El).
    repeat split. apply Hf, Qv.
Qed.

(** ** Reference-free subgraphs are left as they are *)

Lemma resolveRef_S fuel obj api :
  resolveRef (S fuel) obj api =
  (let* r := ref_of obj in
   if truthy r then
     match r with
     | VStr pointer =>
         let* derefObj := walk pointer (split_on "/" (strip_fragment pointer)) api in
         resolveRef fuel derefObj api
     | _ => throw TypeError
     end
   else
     let* _ := (if is_object obj
                then for_in_keys (fun v => resolveRef fuel v api) obj
                else ret tt) in
     ret obj).
Proof. reflexivity. Qed.

Lemma processSchema_S fuel apiDoc schema :
  processSchema (S fuel) apiDoc schema =
  if negb (truthy schema) then ret schema
  else
    let* r := getM schema "$ref" in
    let* schema := (if truthy r then resolveRef fuel schema apiDoc
                    else ret schema) in
    let* _ := (if is_object schema
               then for_in_keys (processSchema fuel apiDoc) schema
               else ret tt) in
    ret schema.
Proof. reflexivity. Qed.

Lemma own_get_array_name h l elems k :
  h !! l = Some (OArr elems) ->
  String.eqb k "length" = false -> index_of_string k = None ->
  own_get h (VRef l) k = None.
Proof. intros El E1 E2. unfold own_get. rewrite El, E1, E2. reflexivity. Qed.

Lemma ref_of_prim v h :
  is_object v = false -> exists r, ref_of v h = Ret r h /\ truthy r = false.
Proof.
  unfold ref_of. destruct v as [| |b|n|s|l]; try discriminate; intros _;
    try (eexists; split; reflexivity).
  - destruct b; eexists; split; reflexivity.
  - destruct (truthy (VNum n)) eqn:T; eexists; split; try reflexivity; exact T.
  - destruct (truthy (VStr s)) eqn:T; eexists; split; try reflexivity; exact T.
Qed.

Lemma resolveRef_plain api : forall fuel n v h,
  n < fuel -> plain_within n h v -> resolveRef fuel v api h = Ret v h.
Proof.
  induction fuel as [|fuel IH]; intros n v h Hlt Hp; [lia|].
  rewrite resolveRef_S.
  destruct (is_object v) eqn:Ov.
  - destruct v as [| | | | |l]; try discriminate.
    destruct n as [|n]; [contradiction|]. cbn [plain_within] in Hp.
    assert (L : for_in_keys (fun v => resolveRef fuel v api) (VRef l) h = Ret tt h).
    { apply for_in_keys_unchanged with (Q := plain_within n h).
      - intros v Hv. apply (IH n); [lia | exact Hv].
      - destruct (h !! l) as [[props|elems]|]; [apply Hp | exact Hp | exact I]. }
    destruct (h !! l) as [[props|elems]|] eqn:El; [| |contradiction].
    + destruct Hp as [Hr _].
      unfold ref_of, bind, getM, own_get. cbn [truthy]. rewrite El, Hr.
      cbn [is_object]. rewrite L. reflexivity.
    + unfold ref_of, bind, getM. cbn [truthy].
      rewrite (own_get_array_name _ _ _ "$ref" El eq_refl eq_refl).
      cbn [default from_option truthy is_object]. rewrite L. reflexivity.
  - destruct (ref_of_prim v h Ov) as (r & Er & Tr).
    rewrite (bind_ret _ _ _ _ _ Er), Tr. reflexivity.
Qed.

Lemma processSchema_plain api : forall fuel n v h,
  n < fuel -> plain_within n h v -> processSchema fuel api v h = Ret v h.
Proof.
  induction fuel as [|fuel IH]; intros n v h Hlt Hp; [lia|].
  rewrite processSchema_S.
  destruct (truthy v) eqn:Tv; [|reflexivity]. cbn [negb].
  destruct (is_object v) eqn:Ov.
  - destruct v as [| | | | |l]; try discriminate.
    destruct n as [|n]; [contradiction|]. cbn [plain_within] in Hp.
    assert (L : for_in_keys (processSchema fuel api) (VRef l) h = Ret tt h).
    { apply for_in_keys_unchanged with (Q := plain_within n h).
      - intros v Hv. apply (IH n); [lia | exact Hv].
      - destruct (h !! l) as [[props|elems]|]; [apply Hp | exact Hp | exact I]. }
    destruct (h !! l) as [[props|elems]|] eqn:El; [| |contradiction].
    + destruct Hp as [Hr _].
      unfold bind, getM, own_get, ret. rewrite El, Hr.
      cbn [is_object]. rewrite L. reflexivity.
    + unfold bind, getM, ret.
      rewrite (own_get_array_name _ _ _ "$ref" El eq_refl eq_refl).
      cbn [default from_option truthy is_object]. rewrite L. reflexivity.
  - destruct (ref_of_prim v h Ov) as (r & Er & Tr).
    unfold ref_of in Er. rewrite Tv in Er.
    rewrite (bind_ret _ _ _ _ _ Er), Tr.
    unfold bind, ret. rewrite Ov. reflexivity.
Qed.

Lemma processSchema_loop_plain api fuel n c h :
  n < S fuel -> plain_within n h c ->
  (if is_object c then for_in_keys (processSchema fuel api) c else ret tt) h
    = Ret tt h.
Proof.
  intros Hlt Hp. destruct c as [| | | | |l]; try reflexivity.
  destruct n as [|n]; [contradiction|]. cbn [plain_within] in Hp. cbn [is_object].
  apply for_in_keys_unchanged with (Q := plain_within n h).
  - intros v Hv. apply (processSchema_plain api fuel n); [lia | exact Hv].
  - destruct (h !! l) as [[props|elems]|]; [apply Hp | exact Hp | exact I].
Qed.

(** ** Chained references *)

(** When [a] refers to [b] and [b] refers to [c], both pointers being
    followed from the root [api], and the subgraph of [c] is free of
    references, then resolving [a] returns [c] itself and changes nothing;
    the per-node step of [dereferenceApi] does the same. *)
Lemma chain_resolves
  (fuel n : nat) (h : heap) (api a b c : value) (pB pC : string)
  (Ha : own_get h a "$ref" = Some (VStr pB)) (HpB : pB <> "")
  (HwB : walk pB (split_on "/" (strip_fragment pB)) api h = Ret b h)
  (Hb : own_get h b "$ref" = Some (VStr pC)) (HpC : pC <> "")
  (HwC : walk pC (split_on "/" (strip_fragment pC)) api h = Ret c h)
  (HC : plain_within n h c)
  (Hfuel : n + 2 < fuel) :
  resolveRef fuel a api h = Ret c h
  /\ processSchema (S fuel) api a h = Ret c h.
Proof.
  pose proof (own_ref_ref_of _ _ _ Ha) as HA.
  pose proof (own_ref_ref_of _ _ _ Hb) as HB.
  destruct fuel as [|[|fuel]]; try lia.
  assert (R : resolveRef (S (S fuel)) a api h = Ret c h).
  { rewrite resolveRef_S, (bind_ret _ _ _ _ _ HA), (truthy_pointer _ HpB).
    rewrite (bind_ret _ _ _ _ _ HwB).
    rewrite resolveRef_S, (bind_ret _ _ _ _ _ HB), (truthy_pointer _ HpC).
    rewrite (bind_ret _ _ _ _ _ HwC).
    apply (resolveRef_plain api fuel n); [lia | exact HC]. }
  split; [exact R|].
  destruct (ref_of_string_inv _ _ _ HA HpB) as [Ta Ea].
  rewrite processSchema_S, Ta. cbn [negb].
  rewrite (bind_ret _ _ _ _ _ Ea), (truthy_pointer _ HpB).
  rewrite (bind_ret _ _ _ _ _ R).
  rewrite (bind_ret _ _ _ _ _
             (processSchema_loop_plain api (S (S fuel)) n c h ltac:(lia) HC)).
  reflexivity.
Qed.

(** ** Trees held in the store *)

Lemma json_ind_deep (P : json -> Prop)
  (Hundef : P JUndef) (Hnull : P JNull) (Hbool : forall b, P (JBool b))
  (Hnum : forall n, P (JNum n)) (Hstr : forall s, P (JStr s))
  (Harr : forall xs, Forall P xs -> P (JArr xs))
  (Hobj : forall kvs, Forall (fun kv => P (snd kv)) kvs -> P (JObj kvs)) :
  forall j, P j.
Proof.
  fix IH 1. intros [| |b|n|s|xs|kvs];
    [exact Hundef | exact Hnull | apply Hbool | apply Hnum | apply Hstr | | ].
  - apply Harr. induction xs as [|x xs IHxs]; constructor; [apply IH | exact IHxs].
  - apply Hobj. induction kvs as [|[k x] kvs IHkvs]; constructor;
      [apply IH | exact IHkvs].
Qed.

Lemma rep_ext h ext : forall j v, rep h j v -> rep (h ++ ext) j v.
Proof.
  induction j as [| |b|n|s|xs IH|kvs IH] using json_ind_deep;
    intros v R; inversion R; subst; try constructor.
  - econstructor; [apply lookup_app_l_Some; eassumption|].
    match goal with H : Forall2 _ xs _ |- _ => revert IH H end.
    clear. intros IH F. induction F; constructor.
    + apply Forall_inv in IH. apply IH; assumption.
    + apply IHF. eapply Forall_inv_tail; exact IH.
  - econstructor; [apply lookup_app_l_Some; eassumption|].
    match goal with H : Forall2 _ kvs _ |- _ => revert IH H end.
    clear. intros IH F. induction F as [|kv p kvs props [Hk Hr] F IHF]; constructor.
    + split; [exact Hk|]. apply Forall_inv in IH. apply IH; assumption.
    + apply IHF. eapply Forall_inv_tail; exact IH.
Qed.

Lemma Forall2_rep_ext h ext xs vs :
  Forall2 (rep h) xs vs -> Forall2 (rep (h ++ ext)) xs vs.
Proof. induction 1; constructor; [apply rep_ext; assumption | assumption]. Qed.

Lemma Forall2_rep_props_ext h ext (kvs : list (string * json)) props :
  Forall2 (fun kv p => fst kv = fst p /\ rep h (snd kv) (snd p)) kvs props ->
  Forall2 (fun kv p => fst kv = fst p /\ rep (h ++ ext) (snd kv) (snd p)) kvs props.
Proof.
  induction 1 as [|kv p kvs props [Hk Hr] F IHF]; constructor;
    [split; [exact Hk | apply rep_ext; exact Hr] | exact IHF].
Qed.

(** [JSON.parse] cannot fail: it extends the store and returns a value
    that holds the tree. *)
Lemma alloc_rep : forall j h,
  exists v ext, alloc j h = Ret v (h ++ ext) /\ rep (h ++ ext) j v.
Proof.
  induction j as [| |b|n|s|xs IH|kvs IH] using json_ind_deep; intros h;
    try (eexists _, []; rewrite app_nil_r; split; [reflexivity | constructor]).
  - assert (L : exists vs ext, mapM_store alloc xs h = Ret vs (h ++ ext)
                 /\ Forall2 (rep (h ++ ext)) xs vs).
    { clear -IH. revert h. induction xs as [|x xs IHxs]; intros h.
      - exists [], []. rewrite app_nil_r. split; [reflexivity | constructor].
      - destruct (Forall_inv IH h) as (v & e1 & Ev & Rv).
        destruct (IHxs (Forall_inv_tail IH) (h ++ e1)) as (vs & e2 & Evs & Rvs).
        exists (v :: vs), (e1 ++ e2). rewrite app_assoc. split.
        + cbn [mapM_store]. rewrite (bind_ret _ _ _ _ _ Ev).
          change ((fix go (xs : list json) : M (list value) := _) xs)
            with (mapM_store alloc xs).
          rewrite (bind_ret _ _ _ _ _ Evs). reflexivity.
        + constructor; [apply rep_ext; exact Rv | exact Rvs]. }
    destruct L as (vs & ext & Evs & Rvs).
    exists (VRef (List.length (h ++ ext))), (ext ++ [OArr vs]).
    rewrite app_assoc. split.
    + cbn [alloc]. rewrite (bind_ret _ _ _ _ _ Evs). reflexivity.
    + econstructor; [apply list_lookup_middle; reflexivity|].
      apply Forall2_rep_ext; exact Rvs.
  - assert (L : exists ps ext,
                 mapM_store (fun '(k, x) => let* v := alloc x in ret (k, v)) kvs h
                   = Ret ps (h ++ ext)
                 /\ Forall2 (fun kv p => fst kv = fst p
                                         /\ rep (h ++ ext) (snd kv) (snd p)) kvs ps).
    { clear -IH. revert h. induction kvs as [|[k x] kvs IHkvs]; intros h.
      - exists [], []. rewrite app_nil_r. split; [reflexivity | constructor].
      - destruct (Forall_inv IH h) as (v & e1 & Ev & Rv). cbn [snd] in Ev, Rv.
        destruct (IHkvs (Forall_inv_tail IH) (h ++ e1)) as (ps & e2 & Eps & Rps).
        exists ((k, v) :: ps), (e1 ++ e2). rewrite app_assoc. split.
        + cbn [mapM_store]. unfold bind at 1 2. rewrite Ev. cbn [ret].
          unfold bind at 1.
          change ((fix go (xs : list (string * json)) : M (list (string * value)) := _) kvs)
            with (mapM_store (fun '(k, x) => let* v := alloc x in ret (k, v)) kvs).
          rewrite Eps. reflexivity.
        + constructor; [split; [reflexivity | apply rep_ext; exact Rv]|exact Rps]. }
    destruct L as (ps & ext & Eps & Rps).
    exists (VRef (List.length (h ++ ext))), (ext ++ [OObj ps]).
    rewrite app_assoc. split.
    + cbn [alloc]. rewrite (bind_ret _ _ _ _ _ Eps). reflexivity.
    + econstructor; [apply list_lookup_middle; reflexivity|].
      apply Forall2_rep_props_ext; exact Rps.
Qed.

Lemma plain_within_prim n h v : is_object v = false -> plain_within n h v.
Proof. destruct n, v; try discriminate; intros _; exact I. Qed.

Lemma plain_within_mono h : forall n m v,
  n <= m -> plain_within n h v -> plain_within m h v.
Proof.
  induction n as [|n IH]; intros m v Hle Hp; destruct v as [| | | | |l];
    try (apply plain_within_prim; reflexivity); [destruct Hp|].
  destruct m as [|m]; [lia|]. cbn [plain_within] in *.
  destruct (h !! l) as [[props|elems]|]; [| |contradiction].
  - destruct Hp as [Hr Hp]. split; [exact Hr|].
    eapply Forall_impl; [exact Hp|]. intros kv Hkv. apply (IH m); [lia | exact Hkv].
  - eapply Forall_impl; [exact Hp|]. intros x Hx. apply (IH m); [lia | exact Hx].
Qed.

Lemma assoc_None_fst {A B} (R : A -> B -> Prop) k
  (kvs : list (string * A)) (props : list (string * B)) :
  Forall2 (fun kv p => fst kv = fst p /\ R (snd kv) (snd p)) kvs props ->
  match assoc k kvs with
  | Some x => exists y, assoc k props = Some y /\ R x y
  | None => assoc k props = None
  end.
Proof.
  induction 1 as [|[k1 x] [k2 y] kvs props [Hk Hr] F IHF]; simpl in *;
    [reflexivity|]. subst k2.
  destruct (String.eqb k k1); [exists y; split; [reflexivity | exact Hr] | exact IHF].
Qed.

Lemma has_key_assoc k kvs :
  has_key k (JObj kvs) = false -> assoc k kvs = None.
Proof.
  cbn [has_key]. induction kvs as [|[k' x] kvs IH]; simpl; [reflexivity|].
  intros E. apply orb_false_iff in E as [E1 E2].
  apply orb_false_iff in E1 as [E1 _].
  rewrite String.eqb_sym, E1. apply IH, E2.
Qed.

(** A tree without a [$ref] key is a reference-free subgraph once stored. *)
Lemma rep_plain h : forall j v,
  rep h j v -> has_key "$ref" j = false -> plain_within (height j) h v.
Proof.
  induction j as [| |b|n|s|xs IH|kvs IH] using json_ind_deep;
    intros v R K; inversion R; subst;
    try (apply plain_within_prim; reflexivity).
  - cbn [height plain_within].
    match goal with H : h !! _ = Some _ |- _ => rewrite H end.
    match goal with H : Forall2 _ xs _ |- _ => revert IH K H end.
    clear. cbn [has_key]. intros IH K F.
    induction F as [|x v xs vs Rx F IHF]; [constructor|].
    cbn [existsb] in K. apply orb_false_iff in K as [K1 K2].
    cbn [fold_right]. constructor.
    + eapply plain_within_mono; [apply Nat.le_max_l|].
      apply (Forall_inv IH); assumption.
    + eapply Forall_impl; [apply IHF; [eapply Forall_inv_tail; exact IH | exact K2]|].
      intros y Hy. eapply plain_within_mono; [apply Nat.le_max_r | exact Hy].
  - cbn [height plain_within].
    match goal with H : h !! _ = Some _ |- _ => rewrite H end.
    match goal with H : Forall2 _ kvs _ |- _ => rename H into F end.
    split.
    + pose proof (assoc_None_fst (rep h) "$ref" _ _ F) as A.
      rewrite (has_key_assoc _ _ K) in A. rewrite A. reflexivity.
    + revert IH K F. clear. cbn [has_key]. intros IH K F.
      induction F as [|[k x] [k' v] kvs ps [Hk Rx] F IHF]; [constructor|].
      cbn [existsb fst snd] in K. apply orb_false_iff in K as [K1 K2].
      apply orb_false_iff in K1 as [_ K1].
      cbn [fold_right snd] in *. constructor.
      * eapply plain_within_mono; [apply Nat.le_max_l|].
        apply (Forall_inv IH); assumption.
      * eapply Forall_impl; [apply IHF; [eapply Forall_inv_tail; exact IH | exact K2]|].
        intros y Hy. eapply plain_within_mono; [apply Nat.le_max_r | exact Hy].
Qed.

(** Reading a stored tree back gives the tree. *)
Lemma rep_reify h : forall j v fuel,
  rep h j v -> height j <= fuel -> reify fuel h v = Some j.
Proof.
  induction j as [| |b|n|s|xs IH|kvs IH] using json_ind_deep;
    intros v fuel R Hh; inversion R; subst;
    try (destruct fuel; reflexivity).
  - cbn [height] in Hh. destruct fuel as [|fuel]; [lia|]. cbn [reify].
    match goal with H : h !! _ = Some _ |- _ => rewrite H end.
    assert (E : mapM (reify fuel h) elems = Some xs).
    { apply mapM_Some. apply Nat.succ_le_mono in Hh.
      match goal with H : Forall2 _ xs _ |- _ => revert IH Hh H end.
      clear. intros IH Hh F.
      induction F as [|x v xs vs Rx F IHF]; constructor; cbn [fold_right] in Hh.
      - apply (Forall_inv IH); [exact Rx | lia].
      - apply IHF; [eapply Forall_inv_tail; exact IH | lia]. }
    rewrite E. reflexivity.
  - cbn [height] in Hh. destruct fuel as [|fuel]; [lia|]. cbn [reify].
    match goal with H : h !! _ = Some _ |- _ => rewrite H end.
    assert (E : mapM (fun kv => pair (fst kv) <$> reify fuel h (snd kv)) props
                = Some kvs).
    { apply mapM_Some. apply Nat.succ_le_mono in Hh.
      match goal with H : Forall2 _ kvs _ |- _ => revert IH Hh H end.
      clear. intros IH Hh F.
      induction F as [|[k x] [k' v] kvs ps [Hk Rx] F IHF]; constructor;
        cbn [fold_right fst snd] in *.
      - subst k'. pose proof (Forall_inv IH) as IHx. cbn [snd] in IHx.
        rewrite (IHx v fuel Rx); [reflexivity | lia].
      - apply IHF; [eapply Forall_inv_tail; exact IH | lia]. }
    rewrite E. reflexivity.
Qed.

Lemma json_norm_id : forall j, is_json j = true -> json_norm j = j.
Proof.
  induction j as [| |b|n|s|xs IH|kvs IH] using json_ind_deep;
    intros J; try reflexivity; cbn [json_norm is_json] in *; f_equal.
  - induction xs as [|x xs IHxs]; [reflexivity|].
    cbn [forallb map] in *. apply andb_true_iff in J as [J1 J2].
    rewrite (IHxs (Forall_inv_tail IH) J2).
    pose proof (Forall_inv IH J1) as E.
    destruct x; try discriminate; rewrite <- E at 2; reflexivity.
  - induction kvs as [|[k x] kvs IHkvs]; [reflexivity|].
    cbn [forallb flat_map snd] in *. apply andb_true_iff in J as [J1 J2].
    rewrite (IHkvs (Forall_inv_tail IH) J2).
    pose proof (Forall_inv IH J1) as E. cbn [snd] in E.
    destruct x; try discriminate; cbn [app]; rewrite <- E at 2; reflexivity.
Qed.

Lemma rep_truthy h j v : rep h j v -> truthy v = jtruthy j.
Proof. destruct 1; reflexivity. Qed.

(** Own properties of a stored tree are those of the tree. *)
Lemma rep_own_get h j v k :
  rep h j v ->
  match jget j k with
  | Some j' => exists v', own_get h v k = Some v' /\ rep h j' v'
  | None => own_get h v k = None
  end.
Proof.
  destruct 1 as [| | | |s|l xs elems El F|l kvs props El F];
    cbn [jget own_get]; try reflexivity.
  - destruct (String.eqb k "length");
      [eexists; split; [reflexivity | constructor]|].
    destruct (index_of_string k) as [i|]; [|reflexivity].
    destruct (char_at s i); cbn [option_map];
      [eexists; split; [reflexivity | constructor] | reflexivity].
  - rewrite El. rewrite (Forall2_length _ _ _ F).
    destruct (String.eqb k "length");
      [eexists; split; [reflexivity | constructor]|].
    destruct (index_of_string k) as [i|]; [|reflexivity].
    destruct (xs !! i) as [x|] eqn:Ex.
    + destruct (Forall2_lookup_l _ _ _ _ _ F Ex) as (y & Ey & Rxy).
      exists y; split; assumption.
    + apply lookup_ge_None. apply lookup_ge_None in Ex.
      rewrite <- (Forall2_length _ _ _ F). exact Ex.
  - rewrite El. apply (assoc_None_fst (rep h) k _ _ F).
Qed.

Lemma rep_select h : forall p j v j',
  rep h j v -> jselect j p = Some j' ->
  exists v', select h v p = [v'] /\ rep h j' v'.
Proof.
  induction p as [|k p IH]; intros j v j' R E; cbn [jselect select] in *.
  - injection E as <-. exists v; split; [reflexivity | exact R].
  - pose proof (rep_own_get h j v k R) as G.
    destruct (jget j k) as [j1|]; [|discriminate].
    destruct G as (v1 & -> & R1). eapply IH; eassumption.
Qed.

Lemma fold_max_lookup {A} (f : A -> nat) (xs : list A) i x :
  xs !! i = Some x -> f x <= fold_right (fun x m => Nat.max (f x) m) 0 xs.
Proof.
  revert i. induction xs as [|y xs IH]; intros [|i] E; try discriminate;
    cbn [fold_right]; cbn in E.
  - injection E as ->. apply Nat.le_max_l.
  - etransitivity; [eapply IH; exact E | apply Nat.le_max_r].
Qed.

Lemma existsb_false_lookup {A} (f : A -> bool) (xs : list A) i x :
  existsb f xs = false -> xs !! i = Some x -> f x = false.
Proof.
  revert i. induction xs as [|y xs IH]; intros [|i] E L; try discriminate;
    cbn in E, L; apply orb_false_iff in E as [E1 E2].
  - injection L as ->. exact E1.
  - eapply IH; eassumption.
Qed.

Lemma assoc_lookup {A} k (kvs : list (string * A)) x :
  assoc k kvs = Some x -> exists i k', kvs !! i = Some (k', x).
Proof.
  induction kvs as [|[k' y] kvs IH]; simpl; [discriminate|].
  destruct (String.eqb k k'); intros E.
  - injection E as ->. exists 0, k'. reflexivity.
  - destruct (IH E) as (i & k1 & L). exists (S i), k1. exact L.
Qed.

(** A property of a tree is not deeper than the tree and has no key the
    tree does not have. *)
Lemma jget_sub r j k j' :
  jget j k = Some j' ->
  height j' <= height j /\ (has_key r j = false -> has_key r j' = false).
Proof.
  destruct j as [| |b|n|s|xs|kvs]; cbn [jget]; try discriminate.
  - destruct (String.eqb k "length");
      [intros E; injection E as <-; split; [cbn; lia | reflexivity]|].
    destruct (index_of_string k); [|discriminate].
    destruct (char_at s n); [|discriminate].
    intros E; injection E as <-; split; [cbn; lia | reflexivity].
  - destruct (String.eqb k "length");
      [intros E; injection E as <-; split; [cbn; lia | reflexivity]|].
    destruct (index_of_string k) as [i|]; [|discriminate]. intros E. split.
    + cbn [height]. pose proof (fold_max_lookup height xs i j' E). lia.
    + cbn [has_key]. intros K. eapply existsb_false_lookup; eassumption.
  - intros E. destruct (assoc_lookup _ _ _ E) as (i & k' & L). split.
    + cbn [height].
      pose proof (fold_max_lookup (fun kv => height (snd kv)) kvs i _ L) as P.
      cbn [snd] in P. lia.
    + cbn [has_key]. intros K.
      pose proof (existsb_false_lookup _ kvs i _ K L) as P. cbn [fst snd] in P.
      apply orb_false_iff in P as [_ P]. exact P.
Qed.

Lemma jselect_sub r : forall p j j',
  jselect j p = Some j' ->
  height j' <= height j /\ (has_key r j = false -> has_key r j' = false).
Proof.
  induction p as [|k p IH]; intros j j' E; cbn [jselect] in E.
  - injection E as <-. split; [lia | tauto].
  - destruct (jget j k) as [j1|] eqn:G; [|discriminate].
    destruct (jget_sub r _ _ _ G) as [H1 K1].
    destruct (IH _ _ E) as [H2 K2]. split; [lia | tauto].
Qed.

Lemma json_clone_rep fuel h j v :
  rep h j v -> is_json j = true -> height j <= fuel ->
  exists d ext, json_clone fuel v h = Ret d (h ++ ext) /\ rep (h ++ ext) j d.
Proof.
  intros R J Hh. unfold json_clone. rewrite (rep_reify h j v fuel R Hh).
  rewrite (json_norm_id j J).
  destruct (alloc_rep j h) as (d & ext & Ea & Ra). exists d, ext.
  split; [|exact Ra]. destruct j; try discriminate; exact Ea.
Qed.

Lemma readback_rep fuel h j v :
  rep h j v -> height j <= fuel -> readback fuel v h = Ret j h.
Proof. intros R Hh. unfold readback. rewrite (rep_reify h j v fuel R Hh). reflexivity. Qed.

(** ** Documents without references *)

Lemma ref_free_call (j : json) (p : path) (fuel : nat) :
  is_json j = true -> has_key "$ref" j = false -> matches j p = true ->
  height j < fuel ->
  exists h, call fuel (fun d => dereferenceApi fuel d p) j = Ret (j, j) h.
Proof.
  intros J K Hm Hf. unfold matches in Hm. apply andb_true_iff in Hm as [Tj Hs].
  destruct (jselect j p) as [js|] eqn:Es; [clear Hs | discriminate].
  destruct (alloc_rep j []) as (doc & h1 & Ea & Rdoc). cbn [app] in Ea, Rdoc.
  destruct (json_clone_rep fuel h1 j doc Rdoc J ltac:(lia)) as (d & ext & Ec & Rd).
  set (h2 := h1 ++ ext) in *.
  assert (Rdoc2 : rep h2 j doc) by (apply rep_ext; exact Rdoc).
  destruct (rep_select h2 p j d js Rd Es) as (s0 & Esel & Rs).
  destruct (jselect_sub "$ref" p j js Es) as [Hjs Kjs].
  assert (Ej : JSONPath p d h2 = Ret (Some [s0]) h2).
  { unfold JSONPath. rewrite (rep_truthy _ _ _ Rd), Tj, Esel. reflexivity. }
  assert (Ep : processSchema fuel doc s0 h2 = Ret s0 h2).
  { apply (processSchema_plain doc fuel (height js)); [lia|].
    apply rep_plain; [exact Rs | apply Kjs, K]. }
  exists h2. unfold call.
  rewrite (bind_ret _ _ _ _ _ Ea).
  assert (Ed : dereferenceApi fuel doc p h1 = Ret d h2).
  { unfold dereferenceApi.
    rewrite (bind_ret _ _ _ _ _ Ec), (bind_ret _ _ _ _ _ Ej).
    rewrite (bind_ret _ _ _ _ _ Ep), (bind_ret _ _ _ _ _ Ej). reflexivity. }
  rewrite (bind_ret _ _ _ _ _ Ed).
  rewrite (bind_ret _ _ _ _ _ (readback_rep fuel h2 j d Rd ltac:(lia))).
  rewrite (bind_ret _ _ _ _ _ (readback_rep fuel h2 j doc Rdoc2 ltac:(lia))).
  reflexivity.
Qed.

(** C9: a document without any [$ref] key, dereferenced at a scope that
    matches, comes back equal to the input; running the call again on that
    output therefore returns it unchanged. *)
Theorem dereferenceApi_ref_free (j : json) (p : path) (fuel : nat)
  (Hjson : is_json j = true) (Hfree : has_key "$ref" j = false)
  (Hscope : matches j p = true) (Hfuel : height j < fuel) :
  result (call fuel (fun d => dereferenceApi fuel d p) j) = Some j
  /\ forall out,
       result (call fuel (fun d => dereferenceApi fuel d p) j) = Some out ->
       result (call fuel (fun d => dereferenceApi fuel d p) out) = Some out.
Proof.
  destruct (ref_free_call j p fuel Hjson Hfree Hscope Hfuel)
    as (h & E).
  rewrite E. cbn [result]. split; [reflexivity|].
  intros out Eo. injection Eo as <-. rewrite E. reflexivity.
Qed.

Lemma dereferenceApi_ref_free_witness :
  result (call 8 (fun d => dereferenceApi 8 d ["components"]) doc_plain)
    = Some doc_plain.
Proof.
  refine (proj1 (dereferenceApi_ref_free doc_plain ["components"] 8 _ _ _ _));
    try reflexivity.
  simpl; lia.
Defined.

(** ** Assignments in the loops keep the shape of every object *)

Lemma same_shape_refl o : same_shape o o.
Proof. destruct o; reflexivity. Qed.

Lemma same_shape_trans o1 o2 o3 :
  same_shape o1 o2 -> same_shape o2 o3 -> same_shape o1 o3.
Proof.
  destruct o1, o2, o3; cbn; try contradiction; intros -> ->; reflexivity.
Qed.

Lemma keeps_shapes_refl h : keeps_shapes h h.
Proof. intros l o E. exists o. split; [exact E | apply same_shape_refl]. Qed.

Lemma keeps_shapes_trans h1 h2 h3 :
  keeps_shapes h1 h2 -> keeps_shapes h2 h3 -> keeps_shapes h1 h3.
Proof.
  intros K1 K2 l o E. destruct (K1 l o E) as (o2 & E2 & S2).
  destruct (K2 l o2 E2) as (o3 & E3 & S3).
  exists o3. split; [exact E3 | eapply same_shape_trans; eassumption].
Qed.

Lemma keeps_shapes_app h ext : keeps_shapes h (h ++ ext).
Proof.
  intros l o E. exists o.
  split; [apply lookup_app_l_Some; exact E | apply same_shape_refl].
Qed.

Lemma keeps_shapes_insert h l o o' :
  h !! l = Some o -> same_shape o o' -> keeps_shapes h (<[l := o']> h).
Proof.
  intros E S l1 o1 E1. destruct (decide (l1 = l)) as [->|N].
  - rewrite E in E1. injection E1 as <-. exists o'. split; [|exact S].
    apply list_lookup_insert_eq. eapply lookup_lt_Some; exact E.
  - exists o1. split; [|apply same_shape_refl].
    rewrite list_lookup_insert_ne; [exact E1 | congruence].
Qed.

Lemma keeps_shapes_length h h' : keeps_shapes h h' -> List.length h <= List.length h'.
Proof.
  intros K. destruct (List.length h) as [|n] eqn:E; [lia|].
  destruct (lookup_lt_is_Some_2 h n) as [o Eo]; [lia|].
  destruct (K n o Eo) as (o' & Eo' & _). apply lookup_lt_Some in Eo'. lia.
Qed.

Lemma assoc_set_keys {A} k (x : A) kvs :
  In k (map fst kvs) -> map fst (assoc_set k x kvs) = map fst kvs.
Proof.
  induction kvs as [|[k' y] kvs IH]; simpl; [contradiction|].
  destruct (String.eqb k k') eqn:E; [reflexivity|].
  intros [->|Hin]; [rewrite String.eqb_refl in E; discriminate|].
  simpl. rewrite (IH Hin). reflexivity.
Qed.

Lemma setM_keeps o k x h h' :
  In k (enum_keys h o) -> setM o k x h = Ret tt h' -> keeps_shapes h h'.
Proof.
  unfold setM, enum_keys. destruct o as [| | | | |l]; try discriminate.
  destruct (h !! l) as [[props|elems]|] eqn:El; [| |discriminate].
  - intros Hin E. injection E as <-.
    eapply keeps_shapes_insert; [exact El|]. cbn.
    symmetry. apply assoc_set_keys, Hin.
  - intros _ E. destruct (index_of_string k) as [i|].
    + injection E as <-. eapply keeps_shapes_insert; [exact El|]. cbn.
      symmetry. apply length_insert.
    + injection E as <-. apply keeps_shapes_refl.
Qed.

Lemma enum_keys_keeps h h' o k :
  keeps_shapes h h' -> In k (enum_keys h o) -> In k (enum_keys h' o).
Proof.
  intros K. unfold enum_keys. destruct o as [| | | | |l]; try (intros []; fail);
    [tauto|].
  destruct (h !! l) as [ob|] eqn:El; [|intros []].
  destruct (K l ob El) as (ob' & -> & S).
  destruct ob, ob'; cbn in S; try contradiction; rewrite S; tauto.
Qed.

Lemma for_in_keeps f o :
  (forall v h r h', f v h = Ret r h' -> keeps_shapes h h') ->
  forall ks h h',
    (forall k, In k ks -> In k (enum_keys h o)) ->
    for_in f o ks h = Ret tt h' -> keeps_shapes h h'.
Proof.
  intros Hf. induction ks as [|k ks IH]; intros h h' Hk E; cbn [for_in] in E.
  - injection E as <-. apply keeps_shapes_refl.
  - apply bind_Ret_inv in E as (v & h0 & Eg & E).
    apply getM_Ret_inv in Eg as [-> _].
    apply bind_Ret_inv in E as (v' & h1 & Ef & E).
    apply bind_Ret_inv in E as ([] & h2 & Es & E).
    pose proof (Hf _ _ _ _ Ef) as K1.
    assert (K2 : keeps_shapes h1 h2).
    { eapply setM_keeps; [|exact Es].
      eapply enum_keys_keeps; [exact K1 | apply Hk; left; reflexivity]. }
    pose proof (keeps_shapes_trans _ _ _ K1 K2) as K12.
    eapply keeps_shapes_trans; [exact K12|].
    apply (IH h2 h'); [|exact E].
    intros k' Hin. eapply enum_keys_keeps; [exact K12 | apply Hk; right; exact Hin].
Qed.

Lemma for_in_keys_keeps f o h h' :
  (forall v h r h', f v h = Ret r h' -> keeps_shapes h h') ->
  for_in_keys f o h = Ret tt h' -> keeps_shapes h h'.
Proof.
  intros Hf E. unfold for_in_keys in E.
  eapply for_in_keeps; [exact Hf | | exact E]. tauto.
Qed.

Lemma processFirstOf_keeps keyword : forall fuel schema h r h',
  processFirstOf keyword fuel schema h = Ret r h' -> keeps_shapes h h'.
Proof.
  induction fuel as [|fuel IH]; intros schema h r h' E; [discriminate|].
  cbn [processFirstOf] in E.
  destruct (negb (truthy schema) || negb (is_object schema)).
  { injection E as _ <-. apply keeps_shapes_refl. }
  apply bind_Ret_inv in E as (a & h0 & Eg & E).
  apply getM_Ret_inv in Eg as [-> _].
  apply bind_Ret_inv in E as (s' & h1 & Es & E).
  assert (h1 = h) as ->.
  { destruct (array_elems h a).
    - apply getM_Ret_inv in Es as [-> _]. reflexivity.
    - injection Es as _ <-. reflexivity. }
  apply bind_Ret_inv in E as ([] & h2 & El & E).
  injection E as _ <-.
  eapply for_in_keys_keeps; [|exact El]. exact IH.
Qed.

(** The result of a merge is an object created by the merge. *)
Lemma allOf_merge_fresh merged sub h m h' :
  allOf_merge merged sub h = Ret m h' ->
  keeps_shapes h h' /\ exists l, m = VRef l /\ List.length h <= l.
Proof.
  unfold allOf_merge. intros E.
  apply bind_Ret_inv in E as (mp & h0 & Eg & E).
  apply getM_Ret_inv in Eg as [-> _].
  apply bind_Ret_inv in E as (sp & h0 & Eg & E).
  apply getM_Ret_inv in Eg as [-> _].
  apply bind_Ret_inv in E as (p & h1 & Ep & E).
  unfold newM in Ep, E. injection Ep as <- <-. injection E as <- <-.
  split.
  - rewrite <- app_assoc. apply keeps_shapes_app.
  - eexists. split; [reflexivity|]. rewrite length_app. lia.
Qed.

Lemma reduce_allOf_merge_fresh n : forall members acc h m h',
  (exists l, acc = VRef l /\ n <= l) -> n <= List.length h ->
  reduce allOf_merge members acc h = Ret m h' ->
  keeps_shapes h h' /\ exists l, m = VRef l /\ n <= l.
Proof.
  induction members as [|x members IH]; intros acc h m h' Hacc Hn E;
    cbn [reduce] in E.
  - injection E as <- <-. split; [apply keeps_shapes_refl | exact Hacc].
  - apply bind_Ret_inv in E as (acc' & h1 & Em & E).
    destruct (allOf_merge_fresh _ _ _ _ _ Em) as (K1 & l1 & -> & Hl1).
    pose proof (keeps_shapes_length _ _ K1) as Hlen.
    destruct (IH (VRef l1) h1 m h') as (K2 & Hm); try assumption.
    + exists l1. split; [reflexivity | lia].
    + lia.
    + split; [eapply keeps_shapes_trans; eassumption | exact Hm].
Qed.

Lemma delM_fresh_keeps l k h0 h h' :
  List.length h0 <= l -> keeps_shapes h0 h ->
  delM (VRef l) k h = Ret tt h' -> keeps_shapes h0 h'.
Proof.
  intros Hl K E. unfold delM in E.
  destruct (h !! l) as [[props|elems]|]; injection E as <-; try exact K.
  intros l1 o1 E1. destruct (K l1 o1 E1) as (o' & Eo' & S).
  exists o'. split; [|exact S].
  rewrite list_lookup_insert_ne; [exact Eo'|].
  apply lookup_lt_Some in E1. lia.
Qed.

Lemma processAllOf_keeps : forall fuel schema h r h',
  processAllOf fuel schema h = Ret r h' -> keeps_shapes h h'.
Proof.
  induction fuel as [|fuel IH]; intros schema h r h' E; [discriminate|].
  cbn [processAllOf] in E.
  destruct (negb (truthy schema) || negb (is_object schema)).
  { injection E as _ <-. apply keeps_shapes_refl. }
  apply bind_Ret_inv in E as (a & h0 & Eg & E).
  apply getM_Ret_inv in Eg as [-> _].
  apply bind_Ret_inv in E as (s' & h1 & Es & E).
  assert (K1 : keeps_shapes h h1).
  { destruct (array_elems h a) as [members|].
    - unfold merge_allOf in Es.
      apply bind_Ret_inv in Es as (init & hi & Ei & Es).
      unfold newM in Ei. injection Ei as <- <-.
      apply bind_Ret_inv in Es as (m & hm & Em & Es).
      apply bind_Ret_inv in Es as ([] & hd & Ed & Es).
      injection Es as _ <-.
      destruct (reduce_allOf_merge_fresh (List.length h) members
                  (VRef (List.length h)) (h ++ [OObj []]) m hm)
        as (Km & lm & -> & Hlm);
        [exists (List.length h); split; [reflexivity | lia]
        | rewrite length_app; lia | exact Em |].
      eapply delM_fresh_keeps; [exact Hlm | | exact Ed].
      eapply keeps_shapes_trans; [apply keeps_shapes_app | exact Km].
    - injection Es as _ <-. apply keeps_shapes_refl. }
  apply bind_Ret_inv in E as ([] & h2 & El & E).
  injection E as _ <-.
  eapply keeps_shapes_trans; [exact K1|].
  eapply for_in_keys_keeps; [|exact El]. exact IH.
Qed.

(** A read-back that succeeds gives the tree the store holds. *)
Lemma reify_rep_inv h : forall j v fuel j',
  rep h j v -> reify fuel h v = Some j' -> j' = j.
Proof.
  induction j as [| |b|n|s|xs IH|kvs IH] using json_ind_deep;
    intros v fuel j' R E; inversion R; subst;
    try (destruct fuel; cbn in E; congruence).
  - destruct fuel as [|fuel]; [discriminate|]. cbn [reify] in E.
    match goal with H : h !! _ = Some _ |- _ => rewrite H in E end.
    destruct (mapM (reify fuel h) elems) as [ys|] eqn:Em; [|discriminate].
    injection E as <-. f_equal. apply mapM_Some in Em.
    match goal with H : Forall2 _ xs _ |- _ => revert ys Em IH H end.
    clear. intros ys Em IH F. revert ys Em.
    induction F as [|x v xs vs Rx F IHF]; intros ys Em; inversion Em; subst;
      [reflexivity|]. f_equal.
    + eapply (Forall_inv IH); eassumption.
    + apply IHF; [eapply Forall_inv_tail; exact IH | assumption].
  - destruct fuel as [|fuel]; [discriminate|]. cbn [reify] in E.
    match goal with H : h !! _ = Some _ |- _ => rewrite H in E end.
    destruct (mapM (fun kv => pair (fst kv) <$> reify fuel h (snd kv)) props)
      as [ys|] eqn:Em; [|discriminate].
    injection E as <-. f_equal. apply mapM_Some in Em.
    match goal with H : Forall2 _ kvs _ |- _ => revert ys Em IH H end.
    clear. intros ys Em IH F. revert ys Em.
    induction F as [|[k x] [k' v] kvs ps [Hk Rx] F IHF]; intros ys Em;
      inversion Em as [|? y ? ys' Ey Em']; subst; [reflexivity|].
    cbn [fst snd] in *. subst k'. f_equal.
    + destruct (reify fuel h v) as [x'|] eqn:Er; [|discriminate].
      injection Ey as <-. f_equal.
      pose proof (Forall_inv IH) as IHx. cbn [snd] in IHx.
      eapply IHx; eassumption.
    + apply IHF; [eapply Forall_inv_tail; exact IH | assumption].
Qed.

Lemma reify_object_keys fuel h l props out :
  h !! l = Some (OObj props) -> reify fuel h (VRef l) = Some out ->
  exists kvs, out = JObj kvs /\ map fst kvs = map fst props.
Proof.
  intros El E. destruct fuel as [|fuel]; [discriminate|]. cbn [reify] in E.
  rewrite El in E.
  destruct (mapM (fun kv => pair (fst kv) <$> reify fuel h (snd kv)) props)
    as [kvs|] eqn:Em; [|discriminate].
  injection E as <-. exists kvs. split; [reflexivity|].
  apply mapM_Some in Em. clear El.
  induction Em as [|[k v] kv ps kvs Ey Em IHm];
    [reflexivity|]. cbn [map fst snd] in *.
  destruct (reify fuel h v); [|discriminate]. injection Ey as <-.
  cbn [fst]. rewrite IHm. reflexivity.
Qed.

Lemma rep_props_keys h (kvs : list (string * json)) props :
  Forall2 (fun kv p => fst kv = fst p /\ rep h (snd kv) (snd p)) kvs props ->
  map fst kvs = map fst props.
Proof.
  induction 1 as [|kv p kvs props [Hk _] F IHF]; [reflexivity|].
  cbn [map]. rewrite Hk, IHF. reflexivity.
Qed.

(** An operation of the form "clone, run a helper on the clone, return the
    clone" returns a root object with the property names of the input's
    root, whatever the helper returns, as long as the helper keeps the
    shapes of existing objects. *)
Lemma clone_then_helper_root_keys (proc : nat -> value -> M value) :
  (forall fuel s h r h', proc fuel s h = Ret r h' -> keeps_shapes h h') ->
  forall fuel kvs out,
    is_json (JObj kvs) = true ->
    result (call fuel (fun doc => let* clone := json_clone fuel doc in
                                  let* _ := proc fuel clone in
                                  ret clone) (JObj kvs)) = Some out ->
    exists kvs', out = JObj kvs' /\ map fst kvs' = map fst kvs.
Proof.
  intros Hproc fuel kvs out J E. unfold result in E.
  match type of E with
  | match ?c with _ => _ end = _ => destruct c as [[o a] hf| | |] eqn:Ecall
  end; try discriminate.
  injection E as ->. unfold call in Ecall.
  apply bind_Ret_inv in Ecall as (doc & h1 & Ea & E).
  apply bind_Ret_inv in E as (c & h3 & Eop & E).
  apply bind_Ret_inv in Eop as (c' & h2 & Ec & Eop).
  apply bind_Ret_inv in Eop as (r & h3' & Ep & Eop).
  injection Eop as -> ->.
  destruct (alloc_rep (JObj kvs) []) as (doc' & h1' & Ea' & Rdoc).
  cbn [app] in Ea', Rdoc. rewrite Ea in Ea'. injection Ea' as <- <-.
  unfold json_clone in Ec.
  destruct (reify fuel h1 doc) as [j'|] eqn:Er; [|discriminate].
  rewrite (reify_rep_inv h1 _ _ _ _ Rdoc Er) in Ec.
  rewrite (json_norm_id _ J) in Ec.
  destruct (alloc_rep (JObj kvs) h1) as (d & ext & Ea2 & Rd).
  rewrite Ea2 in Ec. injection Ec as <- <-.
  inversion Rd as [| | | | | |l kvs0 props El F]; subst.
  destruct (Hproc _ _ _ _ _ Ep l _ El) as (o' & El' & S).
  destruct o' as [props'|]; [|contradiction]. cbn in S.
  apply bind_Ret_inv in E as (o1 & h4 & Eo & E).
  unfold readback in Eo.
  destruct (reify fuel h3 (VRef l)) as [o2|] eqn:Eout; [|discriminate].
  injection Eo as -> <-.
  apply bind_Ret_inv in E as (a1 & h5 & _ & E). injection E as <- _ _.
  destruct (reify_object_keys _ _ _ _ _ El' Eout) as (kvs' & -> & Hk).
  exists kvs'. split; [reflexivity|].
  rewrite Hk, <- S. symmetry. eapply rep_props_keys; exact F.
Qed.

Lemma assoc_Some_key {A} k (kvs : list (string * A)) x :
  assoc k kvs = Some x -> In k (map fst kvs).
Proof.
  induction kvs as [|[k' y] kvs IH]; simpl; [discriminate|].
  destruct (String.eqb k k') eqn:E; intros Ex.
  - left. symmetry. apply String.eqb_eq. exact E.
  - right. apply IH, Ex.
Qed.

Lemma key_kept k (kvs kvs' : list (string * json)) x :
  assoc k kvs = Some x -> map fst kvs' = map fst kvs ->
  exists x', jget (JObj kvs') k = Some x'.
Proof.
  intros Ex Hk. apply assoc_Some_key in Ex. rewrite <- Hk in Ex.
  destruct (assoc_In _ _ Ex) as (x' & Ex' & _). exists x'. exact Ex'.
Qed.

(** ** The root keeps its keyword *)

(** C10: when the root of the document has an [allOf] ([oneOf], [anyOf])
    array, the document returned by [flattenAllOf] ([selectFirstOfOneOf],
    [selectFirstOfAnyOf]) still has that key at its root: the function
    returns its clone, not what the helper returned for the root. *)
Theorem root_keyword_kept (fuel : nat) (kvs : list (string * json)) (out : json)
  (Hjson : is_json (JObj kvs) = true) :
  (forall members,
     assoc "allOf" kvs = Some (JArr members) ->
     result (call fuel (flattenAllOf fuel) (JObj kvs)) = Some out ->
     exists x, jget out "allOf" = Some x)
  /\ (forall alternatives,
        assoc "oneOf" kvs = Some (JArr alternatives) ->
        result (call fuel (selectFirstOfOneOf fuel) (JObj kvs)) = Some out ->
        exists x, jget out "oneOf" = Some x)
  /\ (forall alternatives,
        assoc "anyOf" kvs = Some (JArr alternatives) ->
        result (call fuel (selectFirstOfAnyOf fuel) (JObj kvs)) = Some out ->
        exists x, jget out "anyOf" = Some x).
Proof.
  repeat split; intros xs Ex E.
  - destruct (clone_then_helper_root_keys processAllOf processAllOf_keeps
                fuel kvs out Hjson E) as (kvs' & -> & Hk).
    eapply key_kept; eassumption.
  - destruct (clone_then_helper_root_keys (processFirstOf "oneOf")
                (processFirstOf_keeps "oneOf") fuel kvs out Hjson E)
      as (kvs' & -> & Hk).
    eapply key_kept; eassumption.
  - destruct (clone_then_helper_root_keys (processFirstOf "anyOf")
                (processFirstOf_keeps "anyOf") fuel kvs out Hjson E)
      as (kvs' & -> & Hk).
    eapply key_kept; eassumption.
Qed.

Lemma root_keyword_kept_witness :
  (exists x, jget doc_root_allOf "allOf" = Some x)
  /\ (exists x, jget doc_root_oneOf "oneOf" = Some x).
Proof.
  split.
  - refine (proj1 (root_keyword_kept 20
                     [("allOf", JArr [JObj [("type", JStr "object")]])]
                     doc_root_allOf eq_refl)
              [JObj [("type", JStr "object")]] eq_refl _).
    vm_compute; reflexivity.
  - refine (proj1 (proj2 (root_keyword_kept 20
                     [("oneOf", JArr [JObj [("type", JStr "string")];
                                      JObj [("type", JStr "number")]])]
                     doc_root_oneOf eq_refl))
              [JObj [("type", JStr "string")]; JObj [("type", JStr "number")]]
              eq_refl _).
    vm_compute; reflexivity.
Defined.

(** ** Property lists under spreads *)

Lemma assoc_assoc_set {A} k k' (v : A) kvs :
  assoc k (assoc_set k' v kvs) = if String.eqb k k' then Some v else assoc k kvs.
Proof.
  induction kvs as [|[k1 v1] kvs IH]; simpl.
  - destruct (String.eqb k k'); reflexivity.
  - destruct (String.eqb k' k1) eqn:E1; simpl.
    + apply String.eqb_eq in E1 as ->.
      destruct (String.eqb k k1); reflexivity.
    + destruct (String.eqb k k1) eqn:E2.
      * apply String.eqb_eq in E2 as ->.
        rewrite String.eqb_sym, E1. reflexivity.
      * exact IH.
Qed.

Lemma assoc_assoc_del {A} k k' (kvs : list (string * A)) :
  assoc k (assoc_del k' kvs) = if String.eqb k k' then None else assoc k kvs.
Proof.
  induction kvs as [|[k1 v1] kvs IH]; simpl.
  - destruct (String.eqb k k'); reflexivity.
  - destruct (String.eqb k' k1) eqn:E1; simpl.
    + apply String.eqb_eq in E1 as ->. rewrite IH.
      destruct (String.eqb k k1); reflexivity.
    + rewrite IH. destruct (String.eqb k k1) eqn:E2; [|reflexivity].
      apply String.eqb_eq in E2 as ->. rewrite String.eqb_sym, E1. reflexivity.
Qed.

Lemma assoc_set_keys_new {A} k (x : A) kvs :
  ~ In k (map fst kvs) -> map fst (assoc_set k x kvs) = map fst kvs ++ [k].
Proof.
  induction kvs as [|[k' y] kvs IH]; simpl; [reflexivity|].
  intros N. destruct (String.eqb k k') eqn:E.
  - apply String.eqb_eq in E as ->. contradiction N. left; reflexivity.
  - simpl. rewrite IH; [reflexivity | tauto].
Qed.

Lemma assoc_set_NoDup {A} k (x : A) kvs :
  NoDup (map fst kvs) -> NoDup (map fst (assoc_set k x kvs)).
Proof.
  intros N. destruct (in_dec string_dec k (map fst kvs)) as [I|I].
  - rewrite (assoc_set_keys _ _ _ I). exact N.
  - rewrite (assoc_set_keys_new _ _ _ I). apply NoDup_app. repeat split.
    + exact N.
    + intros y Hy Hy'. apply list_elem_of_In in Hy. apply list_elem_of_In in Hy'.
      destruct Hy' as [<-|[]]. exact (I Hy).
    + apply NoDup_singleton.
Qed.

Lemma spread_into_NoDup more : forall acc,
  NoDup (map fst acc) -> NoDup (map fst (spread_into acc more)).
Proof.
  unfold spread_into. induction more as [|[k v] more IH]; intros acc N;
    cbn [fold_left]; [exact N|]. apply IH, assoc_set_NoDup, N.
Qed.

Lemma assoc_not_In {A} k (kvs : list (string * A)) :
  ~ In k (map fst kvs) -> assoc k kvs = None.
Proof.
  induction kvs as [|[k' v] kvs IH]; simpl; [reflexivity|].
  intros N. destruct (String.eqb k k') eqn:E.
  - apply String.eqb_eq in E as ->. contradiction N. left; reflexivity.
  - apply IH. tauto.
Qed.

(** [{...acc, ...more}[k]]: the entry of [more] when it has one, else that
    of [acc]. *)
Lemma assoc_spread_into k more : forall acc,
  NoDup (map fst more) ->
  assoc k (spread_into acc more)
  = match assoc k more with Some v => Some v | None => assoc k acc end.
Proof.
  unfold spread_into. induction more as [|[k1 v1] more IH]; intros acc N;
    cbn [fold_left]; [reflexivity|].
  cbn [map fst] in N. apply NoDup_cons in N as [N1 N].
  rewrite (IH _ N), assoc_assoc_set. cbn [assoc fst snd].
  destruct (String.eqb k k1) eqn:E; [|reflexivity].
  apply String.eqb_eq in E as ->.
  rewrite assoc_not_In; [reflexivity|].
  intros I. apply N1. apply list_elem_of_In. exact I.
Qed.

(** ** The fold over the members *)

Lemma option_first_id {A} (o : option A) :
  match o with Some v => Some v | None => None end = o.
Proof. destruct o; reflexivity. Qed.

Lemma latest_snoc h done x k :
  latest h (done ++ [x]) k
  = match own_get h x k with Some v => Some v | None => latest h done k end.
Proof. unfold latest. rewrite fold_left_app. reflexivity. Qed.

Lemma latest_property_snoc h done x k :
  latest_property h (done ++ [x]) k
  = match own_get h (props_of h x) k with
    | Some v => Some v
    | None => latest_property h done k
    end.
Proof. unfold latest_property. rewrite fold_left_app. reflexivity. Qed.

Lemma plain_object_ext h ext v :
  plain_object h v ->
  plain_object (h ++ ext) v /\ forall k, own_get (h ++ ext) v k = own_get h v k.
Proof.
  intros (l & props & -> & El & N). split.
  - exists l, props. repeat split; [apply lookup_app_l_Some; exact El | exact N].
  - intros k. unfold own_get. rewrite (lookup_app_l_Some _ _ _ _ El), El. reflexivity.
Qed.

Lemma absent_or_object_ext h ext v :
  absent_or_object h v ->
  absent_or_object (h ++ ext) v
  /\ forall k, own_get (h ++ ext) v k = own_get h v k.
Proof.
  intros [->|P]; [split; [left; reflexivity | reflexivity]|].
  destruct (plain_object_ext h ext v P) as [P' E]. split; [right; exact P' | exact E].
Qed.

Lemma absent_or_object_spread h v :
  absent_or_object h v ->
  NoDup (map fst (spread_or_empty h v))
  /\ forall k, assoc k (spread_or_empty h v) = own_get h v k.
Proof.
  intros [->|(l & props & -> & El & N)]; unfold spread_or_empty, spread, own_get;
    cbn [truthy].
  - split; [constructor | reflexivity].
  - rewrite El. split; [exact N | reflexivity].
Qed.

Lemma allOf_merge_inv h ext acc done x :
  merged_inv h (h ++ ext) acc done -> schema_member h x ->
  exists m ext',
    allOf_merge acc x (h ++ ext) = Ret m (h ++ ext')
    /\ merged_inv h (h ++ ext') m (done ++ [x]).
Proof.
  intros (la & aprops & -> & Ela & Na & Hk & Hao & _ & Hp) [Px Hx].
  destruct (plain_object_ext h ext x Px) as [Px' Ex].
  destruct Px' as (lx & xprops & -> & Elx & Nx).
  destruct (absent_or_object_ext h ext _ Hx) as [Hx' Esp].
  set (hc := h ++ ext) in *.
  set (mp := default VUndef (assoc "properties" aprops)) in *.
  set (sp := props_of h (VRef lx)) in *.
  destruct (absent_or_object_spread hc mp Hao) as [Nmp Amp].
  destruct (absent_or_object_spread hc sp Hx') as [Nsp Asp].
  set (P := spread_into (spread_into [] (spread_or_empty hc mp))
                        (spread_or_empty hc sp)).
  set (mprops := assoc_set "properties" (VRef (List.length hc))
                   (spread_into (spread_into [] aprops) xprops)).
  assert (Eget_x : forall k, own_get h (VRef lx) k = assoc k xprops).
  { intros k. rewrite <- Ex. unfold own_get. rewrite Elx. reflexivity. }
  assert (Esp' : props_of hc (VRef lx) = sp).
  { unfold props_of, sp. rewrite Ex. reflexivity. }
  exists (VRef (List.length (hc ++ [OObj P]))), (ext ++ [OObj P; OObj mprops]).
  assert (Eh : h ++ ext ++ [OObj P; OObj mprops]
               = (hc ++ [OObj P]) ++ [OObj mprops]).
  { unfold hc. rewrite <- !app_assoc. reflexivity. }
  rewrite Eh. split.
  - assert (Emp : default VUndef (own_get hc (VRef la) "properties") = mp).
    { unfold own_get. rewrite Ela. reflexivity. }
    unfold props_of in Esp'.
    unfold allOf_merge, bind, getM, newM. cbv beta iota.
    rewrite Emp, Esp'. unfold spread.
    rewrite (lookup_app_l_Some _ _ _ _ Ela), (lookup_app_l_Some _ _ _ _ Elx).
    reflexivity.
  - exists (List.length (hc ++ [OObj P])), mprops.
    assert (Eprop : assoc "properties" mprops = Some (VRef (List.length hc))).
    { unfold mprops. rewrite assoc_assoc_set. reflexivity. }
    assert (ElP : ((hc ++ [OObj P]) ++ [OObj mprops]) !! List.length hc
                  = Some (OObj P)).
    { apply lookup_app_l_Some. apply list_lookup_middle. reflexivity. }
    assert (NP : NoDup (map fst P)).
    { unfold P. apply spread_into_NoDup, spread_into_NoDup. constructor. }
    repeat split.
    + apply list_lookup_middle. reflexivity.
    + unfold mprops. apply assoc_set_NoDup, spread_into_NoDup, spread_into_NoDup.
      constructor.
    + intros k Hne. unfold mprops. rewrite assoc_assoc_set.
      destruct (String.eqb k "properties") eqn:E;
        [apply String.eqb_eq in E; contradiction|].
      rewrite (assoc_spread_into _ _ _ Nx), (assoc_spread_into _ _ _ Na).
      cbn [assoc]. rewrite option_first_id, latest_snoc, Eget_x, (Hk k Hne).
      reflexivity.
    + rewrite Eprop. right. exists (List.length hc), P.
      repeat split; [exact ElP | exact NP].
    + rewrite Eprop. cbn [default from_option id]. intros [= E].
      rewrite length_app in E. cbn [List.length] in E. lia.
    + intros k. rewrite Eprop. cbn [default from_option id].
      unfold own_get. rewrite ElP. unfold P.
      rewrite (assoc_spread_into _ _ _ Nsp), (assoc_spread_into _ _ _ Nmp).
      cbn [assoc]. rewrite option_first_id, Asp, Amp, Esp, Hp.
      rewrite latest_property_snoc. reflexivity.
Qed.

Lemma reduce_allOf_merge_inv h : forall members done acc ext,
  merged_inv h (h ++ ext) acc done -> Forall (schema_member h) members ->
  exists m ext',
    reduce allOf_merge members acc (h ++ ext) = Ret m (h ++ ext')
    /\ merged_inv h (h ++ ext') m (done ++ members).
Proof.
  induction members as [|x members IH]; intros done acc ext I F.
  - exists acc, ext. rewrite app_nil_r. split; [reflexivity | exact I].
  - destruct (allOf_merge_inv h ext acc done x I (Forall_inv F))
      as (m1 & ext1 & E1 & I1).
    destruct (IH (done ++ [x]) m1 ext1 I1 (Forall_inv_tail F))
      as (m & ext' & E & I').
    exists m, ext'. rewrite <- app_assoc in I'. split; [|exact I'].
    cbn [reduce]. rewrite (bind_ret _ _ _ _ _ E1). exact E.
Qed.

(* ================================================================== *)
(** * Further properties of the code *)

(** ** Reference cycles *)

Lemma resolveRef_step fuel h api a b :
  refers_to h api a b ->
  resolveRef (S fuel) a api h = resolveRef fuel b api h.
Proof.
  intros (pointer & Ha & Hne & Hw).
  rewrite resolveRef_S, (bind_ret _ _ _ _ _ (own_ref_ref_of _ _ _ Ha)).
  rewrite (truthy_pointer _ Hne), (bind_ret _ _ _ _ _ Hw). reflexivity.
Qed.

Lemma processSchema_step fuel h api a b :
  refers_to h api a b ->
  processSchema (S fuel) api a h
  = (let* schema := resolveRef fuel a api in
     let* _ := (if is_object schema
                then for_in_keys (processSchema fuel api) schema
                else ret tt) in
     ret schema) h.
Proof.
  intros (pointer & Ha & Hne & Hw).
  pose proof (own_ref_ref_of _ _ _ Ha) as Hr.
  destruct (ref_of_string_inv _ _ _ Hr Hne) as [Ta Eg].
  rewrite processSchema_S, Ta. cbn [negb].
  rewrite (bind_ret _ _ _ _ _ Eg), (truthy_pointer _ Hne). reflexivity.
Qed.

(** [resolveRef] has no cycle detection: on a set of reference nodes each of
    which refers to another node of the set, [resolveRef] and
    [processSchema] use up any amount of fuel, and so does a
    [dereferenceApi] call whose scope node is in the set. *)
Theorem reference_cycle_never_returns
  (h : heap) (api : value) (cyc : value -> Prop)
  (Hcyc : forall a, cyc a -> exists b, refers_to h api a b /\ cyc b)
  (fuel : nat) (a : value) (Ha : cyc a) :
  resolveRef fuel a api h = Timeout
  /\ processSchema fuel api a h = Timeout
  /\ forall h0 doc startAt rest,
       json_clone fuel api h0 = Ret doc h ->
       JSONPath startAt doc h = Ret (Some (a :: rest)) h ->
       dereferenceApi fuel api startAt h0 = Timeout.
Proof.
  assert (R : forall n x, cyc x -> resolveRef n x api h = Timeout).
  { induction n as [|n IH]; intros x Hx; [reflexivity|].
    destruct (Hcyc x Hx) as (b & Hab & Hb).
    rewrite (resolveRef_step _ _ _ _ _ Hab). apply IH, Hb. }
  assert (P : processSchema fuel api a h = Timeout).
  { destruct fuel as [|n]; [reflexivity|].
    destruct (Hcyc a Ha) as (b & Hab & _).
    rewrite (processSchema_step _ _ _ _ _ Hab).
    unfold bind. rewrite (R n a Ha). reflexivity. }
  repeat split; [apply R, Ha | exact P |].
  intros h0 doc startAt rest Ec Ej. unfold dereferenceApi.
  rewrite (bind_ret _ _ _ _ _ Ec), (bind_ret _ _ _ _ _ Ej).
  unfold bind. rewrite P. reflexivity.
Qed.

Lemma reference_cycle_never_returns_witness :
  resolveRef 1000 (VRef 0) api_self_ref heap_self_ref = Timeout.
Proof.
  refine (proj1 (reference_cycle_never_returns heap_self_ref api_self_ref
                   (fun v => v = VRef 0 \/ v = VRef 1) _ 1000 (VRef 0) _)).
  - intros a [->| ->].
    + exists (VRef 1). split; [|right; reflexivity].
      exists "#/b".
      split; [reflexivity | split; [discriminate | vm_compute; reflexivity]].
    + exists (VRef 0). split; [|left; reflexivity].
      exists "#/a".
      split; [reflexivity | split; [discriminate | vm_compute; reflexivity]].
  - left; reflexivity.
Defined.

(** ** A scope that matches nothing *)

Lemma rep_select_None h : forall p j v,
  rep h j v -> jselect j p = None -> select h v p = [].
Proof.
  induction p as [|k p IH]; intros j v R E; cbn [jselect select] in *;
    [discriminate|].
  pose proof (rep_own_get h j v k R) as G.
  destruct (jget j k) as [j1|].
  - destruct G as (v1 & -> & R1). eapply IH; eassumption.
  - rewrite G. reflexivity.
Qed.

(** When [startAt] leads to no node of a (truthy) document, [dereferenceApi]
    returns [undefined] and resolves nothing: the call succeeds whatever
    references the document holds, and the caller's document is as it was. *)
Theorem dereferenceApi_no_match (j : json) (p : path) (fuel : nat)
  (Hjson : is_json j = true) (Htruthy : jtruthy j = true)
  (Hnone : jselect j p = None) (Hfuel : height j <= fuel) :
  result (call fuel (fun d => dereferenceApi fuel d p) j) = Some JUndef
  /\ argument_after (call fuel (fun d => dereferenceApi fuel d p) j) = Some j.
Proof.
  destruct (alloc_rep j []) as (doc & h1 & Ea & Rdoc). cbn [app] in Ea, Rdoc.
  destruct (json_clone_rep fuel h1 j doc Rdoc Hjson Hfuel) as (d & ext & Ec & Rd).
  assert (Ej : JSONPath p d (h1 ++ ext) = Ret (Some []) (h1 ++ ext)).
  { unfold JSONPath.
    rewrite (rep_truthy _ _ _ Rd), Htruthy, (rep_select_None _ _ _ _ Rd Hnone).
    reflexivity. }
  assert (E : call fuel (fun d => dereferenceApi fuel d p) j
              = Ret (JUndef, j) (h1 ++ ext)).
  { unfold call. rewrite (bind_ret _ _ _ _ _ Ea).
    assert (Ed : dereferenceApi fuel doc p h1 = Ret VUndef (h1 ++ ext)).
    { unfold dereferenceApi.
      rewrite (bind_ret _ _ _ _ _ Ec), (bind_ret _ _ _ _ _ Ej). reflexivity. }
    rewrite (bind_ret _ _ _ _ _ Ed).
    assert (Er : readback fuel VUndef (h1 ++ ext) = Ret JUndef (h1 ++ ext))
      by (destruct fuel; reflexivity).
    rewrite (bind_ret _ _ _ _ _ Er).
    rewrite (bind_ret _ _ _ _ _
               (readback_rep fuel _ j doc (rep_ext _ ext _ _ Rdoc) Hfuel)).
    reflexivity. }
  rewrite E. split; reflexivity.
Qed.

Lemma dereferenceApi_no_match_witness :
  result (call 5 (fun d => dereferenceApi 5 d ["paths"]) doc_ignored_subtree)
    = Some JUndef.
Proof.
  refine (proj1 (dereferenceApi_no_match doc_ignored_subtree ["paths"] 5 _ _ _ _));
    try reflexivity.
  simpl; lia.
Defined.

(** ** The segments of a pointer *)

Lemma split_on_not_nil sep s : split_on sep s <> [].
Proof.
  destruct s as [|c r]; cbn [split_on]; [discriminate|].
  destruct (Ascii.eqb c sep); [discriminate|].
  destruct (split_on sep r); discriminate.
Qed.

Lemma split_on_no_sep sep : forall s,
  Forall (fun w => contains_char sep w = false) (split_on sep s).
Proof.
  induction s as [|c r IH]; cbn [split_on].
  - repeat constructor.
  - destruct (Ascii.eqb c sep) eqn:E.
    + constructor; [reflexivity | exact IH].
    + destruct (split_on sep r) as [|w ws].
      * repeat constructor. cbn. rewrite E. reflexivity.
      * constructor; [|eapply Forall_inv_tail; exact IH].
        cbn. rewrite E. exact (Forall_inv IH).
Qed.

Lemma join_split sep : forall s, join_with sep (split_on sep s) = s.
Proof.
  induction s as [|c r IH]; cbn [split_on]; [reflexivity|].
  destruct (Ascii.eqb c sep) eqn:E.
  - apply Ascii.eqb_eq in E as ->.
    pose proof (split_on_not_nil sep r) as N.
    destruct (split_on sep r) as [|w ws]; [contradiction|].
    cbn [join_with String.append]. cbn [join_with] in IH. rewrite IH. reflexivity.
  - destruct (split_on sep r) as [|w ws] eqn:Er.
    + exfalso. exact (split_on_not_nil sep r Er).
    + destruct ws as [|w' ws']; cbn [join_with String.append] in *;
        rewrite IH; reflexivity.
Qed.

(** The segments [resolveRef] follows are the literal pieces of the pointer
    between its slashes: there is at least one, none contains a slash, and
    joining them with slashes gives back the pointer text, so nothing is
    unescaped on the way. *)
Theorem pointer_segments_literal (pointer : string) :
  let refPath := split_on "/" (strip_fragment pointer) in
  refPath <> []
  /\ Forall (fun part => contains_char "/" part = false) refPath
  /\ join_with "/" refPath = strip_fragment pointer.
Proof.
  repeat split;
    [apply split_on_not_nil | apply split_on_no_sep | apply join_split].
Qed.

Lemma assoc_slash_keys {A} (props : list (string * A)) part :
  Forall (fun kv => contains_char "/" (fst kv) = true) props ->
  contains_char "/" part = false ->
  assoc part props = None.
Proof.
  intros F Hp. induction props as [|[k v] props IH]; [reflexivity|].
  cbn [assoc]. destruct (String.eqb part k) eqn:E.
  - apply String.eqb_eq in E as ->. pose proof (Forall_inv F) as Hk.
    cbn [fst] in Hk. congruence.
  - apply IH. eapply Forall_inv_tail; exact F.
Qed.

Lemma walk_app pointer pre : forall post root h d,
  walk pointer pre root h = Ret d h ->
  walk pointer (pre ++ post) root h = walk pointer post d h.
Proof.
  induction pre as [|p pre IH]; intros post root h d E; cbn [walk app] in *.
  - injection E as ->. reflexivity.
  - unfold bind in E |- *. destruct (lookupM root p h) as [y h1| | |] eqn:Eg;
      try discriminate.
    pose proof (lookupM_Ret_heap _ _ _ _ _ Eg) as ->.
    destruct (truthy y); [apply IH; exact E | discriminate].
Qed.

(** A property whose name contains a slash cannot be referenced: when the
    segments of a pointer lead to an object all of whose names contain a
    slash (the [paths] object of an OpenAPI document), the next segment,
    whatever it is, including the escaped spelling [~1] of JSON Pointer,
    is not one of the object's properties: the walk fails there, unless
    the segment names a member of [Object.prototype], where the walk
    leaves the document. *)
Theorem slash_names_unreachable
  (h : heap) (api : value) (pointer : string)
  (pre : list string) (part : string) (post : list string)
  (l : loc) (props : list (string * value))
  (Hsplit : split_on "/" (strip_fragment pointer) = pre ++ part :: post)
  (Hpre : walk pointer pre api h = Ret (VRef l) h)
  (Hobj : h !! l = Some (OObj props))
  (Hnames : Forall (fun kv => contains_char "/" (fst kv) = true) props) :
  own_get h (VRef l) part = None
  /\ walk pointer (split_on "/" (strip_fragment pointer)) api h
     = if existsb (String.eqb part) object_prototype_names
       then Builtin else Throw (RefError pointer).
Proof.
  pose proof (split_on_no_sep "/" (strip_fragment pointer)) as F.
  rewrite Hsplit in F. apply Forall_app in F as [_ F].
  assert (N : own_get h (VRef l) part = None).
  { unfold own_get. rewrite Hobj.
    exact (assoc_slash_keys props part Hnames (Forall_inv F)). }
  split; [exact N|].
  rewrite Hsplit, (walk_app _ _ _ _ _ _ Hpre). cbn [walk].
  unfold bind, lookupM. rewrite N. cbn [builtin_member]. rewrite Hobj.
  destruct (existsb (String.eqb part) object_prototype_names); reflexivity.
Qed.

Lemma slash_names_unreachable_witness :
  walk "#/paths/~1pets" (split_on "/" (strip_fragment "#/paths/~1pets"))
    (VRef 3) heap_slash_key
  = Throw (RefError "#/paths/~1pets").
Proof.
  refine (proj2 (slash_names_unreachable heap_slash_key (VRef 3) "#/paths/~1pets"
            ["paths"] "~1pets" [] 1 [("/pets", VRef 0)] eq_refl _ eq_refl _)).
  - vm_compute; reflexivity.
  - repeat constructor.
Defined.

(** ** Pointers and scope paths *)

Lemma lookupM_truthy_own v k h x h' :
  lookupM v k h = Ret x h' -> truthy x = true -> own_get h v k = Some x.
Proof.
  unfold lookupM. intros E T.
  destruct v; try discriminate;
    (destruct (own_get h _ k) as [y|];
     [injection E as <- _; reflexivity
     |destruct (builtin_member h _ k); [discriminate|];
      injection E as <- _; discriminate T]).
Qed.

Lemma walk_select pointer : forall parts root h d h',
  walk pointer parts root h = Ret d h' ->
  select h root parts = [d] /\ (parts <> [] -> truthy d = true).
Proof.
  induction parts as [|part rest IH]; intros root h d h' E; cbn [walk select] in *.
  - injection E as <- _. split; [reflexivity | congruence].
  - apply bind_Ret_inv in E as (x & h1 & Eg & E).
    pose proof (lookupM_Ret_heap _ _ _ _ _ Eg) as ->.
    destruct (truthy x) eqn:Tx; [|discriminate].
    rewrite (lookupM_truthy_own _ _ _ _ _ Eg Tx).
    destruct (IH _ _ _ _ E) as [Es Ht]. split; [exact Es|].
    intros _. destruct rest as [|part' rest'].
    + cbn [walk] in E. injection E as <- _. exact Tx.
    + apply Ht. discriminate.
Qed.

(** A pointer whose walk stays in the document (every segment is read from
    an own property) reaches the node that the scope path with the same
    names selects: [#/a/b] and [$.a.b] address the same node, the store is
    not changed by the lookup, and the node is truthy. *)
Theorem pointer_agrees_with_path
  (h h' : heap) (api d : value) (pointer : string)
  (Hwalk : walk pointer (split_on "/" (strip_fragment pointer)) api h = Ret d h') :
  h' = h
  /\ select h api (split_on "/" (strip_fragment pointer)) = [d]
  /\ truthy d = true.
Proof.
  destruct (walk_select _ _ _ _ _ _ Hwalk) as [Es Ht].
  repeat split; [eapply walk_Ret_heap; exact Hwalk | exact Es |].
  apply Ht, split_on_not_nil.
Qed.

Lemma pointer_agrees_with_path_witness :
  select heap_two_members (VRef 8) (split_on "/" (strip_fragment "#/x/allOf/1"))
    = [VRef 5].
Proof.
  refine (proj1 (proj2 (pointer_agrees_with_path heap_two_members
                          heap_two_members (VRef 8) (VRef 5) "#/x/allOf/1" _))).
  vm_compute; reflexivity.
Defined.

(** ** Nodes without the keyword are left as they are *)

Lemma processAllOf_S fuel schema :
  processAllOf (S fuel) schema =
  if negb (truthy schema) || negb (is_object schema) then ret schema
  else
    let* a := getM schema "allOf" in
    let* schema :=
      (fun h => match array_elems h a with
                | Some members => merge_allOf members h
                | None => Ret schema h
                end) in
    let* _ := for_in_keys (processAllOf fuel) schema in
    ret schema.
Proof. reflexivity. Qed.

Lemma processFirstOf_S keyword fuel schema :
  processFirstOf keyword (S fuel) schema =
  if negb (truthy schema) || negb (is_object schema) then ret schema
  else
    let* a := getM schema keyword in
    let* schema :=
      (fun h => match array_elems h a with
                | Some _ => getM a "0" h
                | None => Ret schema h
                end) in
    let* _ := for_in_keys (processFirstOf keyword fuel) schema in
    ret schema.
Proof. reflexivity. Qed.

Lemma keyword_free_within_prim kw n h v :
  is_object v = false -> keyword_free_within kw n h v.
Proof. destruct n, v; try discriminate; intros _; exact I. Qed.

Lemma keyword_free_within_mono kw h : forall n m v,
  n <= m -> keyword_free_within kw n h v -> keyword_free_within kw m h v.
Proof.
  induction n as [|n IH]; intros m v Hle Hp; destruct v as [| | | | |l];
    try (apply keyword_free_within_prim; reflexivity); [destruct Hp|].
  destruct m as [|m]; [lia|]. cbn [keyword_free_within] in *.
  destruct (h !! l) as [[props|elems]|]; [| |contradiction].
  - destruct Hp as [Hr Hp]. split; [exact Hr|].
    eapply Forall_impl; [exact Hp|]. intros kv Hkv. apply (IH m); [lia | exact Hkv].
  - eapply Forall_impl; [exact Hp|]. intros x Hx. apply (IH m); [lia | exact Hx].
Qed.

(** The keyword read from a keyword-free node is not an array. *)
Lemma keyword_free_read kw n h l :
  plain_name kw -> keyword_free_within kw (S n) h (VRef l) ->
  exists a, getM (VRef l) kw h = Ret a h /\ array_elems h a = None.
Proof.
  intros [N1 N2] Hp. cbn [keyword_free_within] in Hp.
  unfold getM. eexists. split; [reflexivity|].
  destruct (h !! l) as [[props|elems]|] eqn:El; [| |contradiction].
  - unfold own_get. rewrite El. apply Hp.
  - rewrite (own_get_array_name _ _ _ kw El N1 N2). reflexivity.
Qed.

Lemma keyword_free_children kw n h l :
  keyword_free_within kw (S n) h (VRef l) ->
  match h !! l with
  | Some (OObj props) => Forall (fun kv => keyword_free_within kw n h (snd kv)) props
  | Some (OArr elems) => Forall (keyword_free_within kw n h) elems
  | None => True
  end.
Proof.
  cbn [keyword_free_within].
  destruct (h !! l) as [[props|elems]|]; [intros [_ H]; exact H | tauto | tauto].
Qed.

Lemma processFirstOf_keyword_free kw : plain_name kw -> forall fuel n v h,
  n < fuel -> keyword_free_within kw n h v ->
  processFirstOf kw fuel v h = Ret v h.
Proof.
  intros Hkw. induction fuel as [|fuel IH]; intros n v h Hlt Hp; [lia|].
  rewrite processFirstOf_S.
  destruct v as [| |b|z|s|l]; try reflexivity;
    try (destruct (truthy _); reflexivity).
  destruct n as [|n]; [destruct Hp|]. cbn [truthy is_object negb orb].
  destruct (keyword_free_read kw n h l Hkw Hp) as (a & Ea & Na).
  rewrite (bind_ret _ _ _ _ _ Ea). unfold bind at 1. rewrite Na.
  assert (L : for_in_keys (processFirstOf kw fuel) (VRef l) h = Ret tt h).
  { apply for_in_keys_unchanged with (Q := keyword_free_within kw n h).
    - intros v Hv. apply (IH n); [lia | exact Hv].
    - apply keyword_free_children, Hp. }
  rewrite (bind_ret _ _ _ _ _ L). reflexivity.
Qed.

Lemma processAllOf_keyword_free : forall fuel n v h,
  n < fuel -> keyword_free_within "allOf" n h v ->
  processAllOf fuel v h = Ret v h.
Proof.
  induction fuel as [|fuel IH]; intros n v h Hlt Hp; [lia|].
  rewrite processAllOf_S.
  destruct v as [| |b|z|s|l]; try reflexivity;
    try (destruct (truthy _); reflexivity).
  destruct n as [|n]; [destruct Hp|]. cbn [truthy is_object negb orb].
  destruct (keyword_free_read "allOf" n h l (conj eq_refl eq_refl) Hp)
    as (a & Ea & Na).
  rewrite (bind_ret _ _ _ _ _ Ea). unfold bind at 1. rewrite Na.
  assert (L : for_in_keys (processAllOf fuel) (VRef l) h = Ret tt h).
  { apply for_in_keys_unchanged with (Q := keyword_free_within "allOf" n h).
    - intros v Hv. apply (IH n); [lia | exact Hv].
    - apply keyword_free_children, Hp. }
  rewrite (bind_ret _ _ _ _ _ L). reflexivity.
Qed.

Lemma rep_not_array h x y :
  rep h x y -> (forall xs, x <> JArr xs) -> array_elems h y = None.
Proof.
  destruct 1 as [| | | | |l xs elems El F|l kvs props El F]; intros N;
    try reflexivity.
  - exfalso. exact (N xs eq_refl).
  - cbn. rewrite El. reflexivity.
Qed.

Lemma rep_keyword_free kw h : forall j v,
  rep h j v -> has_keyword kw j = false ->
  keyword_free_within kw (height j) h v.
Proof.
  induction j as [| |b|n|s|xs IH|kvs IH] using json_ind_deep;
    intros v R K; inversion R; subst;
    try (apply keyword_free_within_prim; reflexivity).
  - cbn [height keyword_free_within].
    match goal with H : h !! _ = Some _ |- _ => rewrite H end.
    match goal with H : Forall2 _ xs _ |- _ => revert IH K H end.
    clear. cbn [has_keyword]. intros IH K F.
    induction F as [|x v xs vs Rx F IHF]; [constructor|].
    cbn [existsb] in K. apply orb_false_iff in K as [K1 K2].
    cbn [fold_right]. constructor.
    + eapply keyword_free_within_mono; [apply Nat.le_max_l|].
      apply (Forall_inv IH); assumption.
    + eapply Forall_impl; [apply IHF; [eapply Forall_inv_tail; exact IH | exact K2]|].
      intros y Hy. eapply keyword_free_within_mono; [apply Nat.le_max_r | exact Hy].
  - cbn [height keyword_free_within].
    match goal with H : h !! _ = Some _ |- _ => rewrite H end.
    match goal with H : Forall2 _ kvs _ |- _ => rename H into F end.
    cbn [has_keyword] in K. apply orb_false_iff in K as [Ka K].
    split.
    + pose proof (assoc_None_fst (rep h) kw _ _ F) as A.
      destruct (assoc kw kvs) as [x|].
      * destruct A as (y & -> & Rxy). cbn [default from_option id].
        apply (rep_not_array h x y Rxy). intros xs ->. discriminate.
      * rewrite A. reflexivity.
    + revert IH K F. clear. intros IH K F.
      induction F as [|[k x] [k' v] kvs ps [Hk Rx] F IHF]; [constructor|].
      cbn [existsb fst snd] in K. apply orb_false_iff in K as [K1 K2].
      cbn [fold_right snd] in *. constructor.
      * eapply keyword_free_within_mono; [apply Nat.le_max_l|].
        apply (Forall_inv IH); assumption.
      * eapply Forall_impl; [apply IHF; [eapply Forall_inv_tail; exact IH | exact K2]|].
        intros y Hy. eapply keyword_free_within_mono; [apply Nat.le_max_r | exact Hy].
Qed.

Lemma clone_then_unchanged (proc : nat -> value -> M value) j fuel :
  is_json j = true -> height j <= fuel ->
  (forall h v, rep h j v -> proc fuel v h = Ret v h) ->
  exists h, call fuel (fun doc => let* clone := json_clone fuel doc in
                                  let* _ := proc fuel clone in
                                  ret clone) j = Ret (j, j) h.
Proof.
  intros J Hf Hproc.
  destruct (alloc_rep j []) as (doc & h1 & Ea & Rdoc). cbn [app] in Ea, Rdoc.
  destruct (json_clone_rep fuel h1 j doc Rdoc J Hf) as (d & ext & Ec & Rd).
  exists (h1 ++ ext). unfold call.
  rewrite (bind_ret _ _ _ _ _ Ea).
  unfold bind at 1. unfold bind at 1. rewrite Ec.
  unfold bind at 1. rewrite (Hproc _ _ Rd). cbn [ret].
  rewrite (bind_ret _ _ _ _ _ (readback_rep fuel _ j d Rd Hf)).
  rewrite (bind_ret _ _ _ _ _
             (readback_rep fuel _ j doc (rep_ext _ ext _ _ Rdoc) Hf)).
  reflexivity.
Qed.

(** A document in which no object holds an array under [allOf] ([oneOf],
    [anyOf]) is returned unchanged by [flattenAllOf] ([selectFirstOfOneOf],
    [selectFirstOfAnyOf]); a property that merely has the keyword as its
    name, with a value that is not an array, is not touched. *)
Theorem composition_without_keyword (j : json) (fuel : nat)
  (Hjson : is_json j = true) (Hfuel : height j < fuel) :
  (has_keyword "allOf" j = false ->
   result (call fuel (flattenAllOf fuel) j) = Some j)
  /\ (has_keyword "oneOf" j = false ->
      result (call fuel (selectFirstOfOneOf fuel) j) = Some j)
  /\ (has_keyword "anyOf" j = false ->
      result (call fuel (selectFirstOfAnyOf fuel) j) = Some j).
Proof.
  repeat split; intros K.
  - destruct (clone_then_unchanged processAllOf j fuel Hjson ltac:(lia)) as (h & E).
    + intros h v R. apply (processAllOf_keyword_free fuel (height j)); [lia|].
      apply rep_keyword_free; assumption.
    + unfold flattenAllOf. rewrite E. reflexivity.
  - destruct (clone_then_unchanged (processFirstOf "oneOf") j fuel Hjson ltac:(lia))
      as (h & E).
    + intros h v R.
      apply (processFirstOf_keyword_free "oneOf" (conj eq_refl eq_refl)
               fuel (height j)); [lia|].
      apply rep_keyword_free; assumption.
    + unfold selectFirstOfOneOf, processOneOf. rewrite E. reflexivity.
  - destruct (clone_then_unchanged (processFirstOf "anyOf") j fuel Hjson ltac:(lia))
      as (h & E).
    + intros h v R.
      apply (processFirstOf_keyword_free "anyOf" (conj eq_refl eq_refl)
               fuel (height j)); [lia|].
      apply rep_keyword_free; assumption.
    + unfold selectFirstOfAnyOf, processAnyOf. rewrite E. reflexivity.
Qed.

Lemma composition_without_keyword_witness :
  result (call 6 (flattenAllOf 6) doc_named_allOf) = Some doc_named_allOf
  /\ result (call 6 (selectFirstOfOneOf 6) doc_named_allOf) = Some doc_named_allOf.
Proof.
  assert (Hf : height doc_named_allOf < 6) by (simpl; lia).
  destruct (composition_without_keyword doc_named_allOf 6 eq_refl Hf)
    as (A & O & _).
  split; [apply A | apply O]; reflexivity.
Defined.

(** ** The first alternative *)

Lemma first_of_read kw h l props a elems :
  h !! l = Some (OObj props) -> assoc kw props = Some a ->
  array_elems h a = Some elems ->
  getM (VRef l) kw h = Ret a h
  /\ getM a "0" h = Ret (default VUndef (elems !! 0)) h.
Proof.
  intros El Ea Ee. split.
  - unfold getM, own_get. rewrite El, Ea. reflexivity.
  - destruct a as [| | | | |la]; try discriminate. cbn in Ee.
    destruct (h !! la) as [[?|elems']|] eqn:Ela; try discriminate.
    injection Ee as ->. unfold getM, own_get. rewrite Ela. reflexivity.
Qed.

(** A node that holds an array under the keyword is replaced by element 0
    of the array, as it is, when that element has no such keyword below it
    and is not a non-empty string: the other properties of the node and
    the other alternatives are dropped, and an empty array gives
    [undefined]. *)
Theorem first_alternative_selected
  (kw : string) (fuel n : nat) (h : heap) (l : loc)
  (props : list (string * value)) (a : value) (elems : list value)
  (Hkw : plain_name kw)
  (Hobj : h !! l = Some (OObj props)) (Ha : assoc kw props = Some a)
  (Harr : array_elems h a = Some elems)
  (Hfree : keyword_free_within kw n h (default VUndef (elems !! 0)))
  (Hstr : forall s, default VUndef (elems !! 0) = VStr s -> s = "")
  (Hfuel : n <= fuel) :
  processFirstOf kw (S fuel) (VRef l) h = Ret (default VUndef (elems !! 0)) h.
Proof.
  destruct (first_of_read kw h l props a elems Hobj Ha Harr) as [E1 E2].
  set (x := default VUndef (elems !! 0)) in *.
  rewrite processFirstOf_S. cbn [truthy is_object negb orb].
  rewrite (bind_ret _ _ _ _ _ E1). unfold bind at 1. rewrite Harr, E2.
  assert (L : for_in_keys (processFirstOf kw fuel) x h = Ret tt h).
  { destruct x as [| |b|z|s|lx] eqn:Ex; try reflexivity.
    - rewrite (Hstr s eq_refl). reflexivity.
    - destruct n as [|n']; [destruct Hfree|].
      apply for_in_keys_unchanged with (Q := keyword_free_within kw n' h).
      + intros v Hv. apply (processFirstOf_keyword_free kw Hkw fuel n');
          [lia | exact Hv].
      + apply keyword_free_children, Hfree. }
  rewrite (bind_ret _ _ _ _ _ L). reflexivity.
Qed.

Lemma first_alternative_selected_witness :
  processFirstOf "oneOf" 3 (VRef 3) heap_alternatives
    = Ret (VRef 0) heap_alternatives.
Proof.
  refine (first_alternative_selected "oneOf" 2 1 heap_alternatives 3
            [("description", VStr "a pet"); ("oneOf", VRef 2)] (VRef 2)
            [VRef 0; VRef 1] (conj eq_refl eq_refl) eq_refl eq_refl eq_refl
            _ _ _).
  - cbn. split; [reflexivity | repeat constructor].
  - discriminate.
  - lia.
Defined.

Lemma string_of_nat_0 : string_of_nat 0 = "0".
Proof. reflexivity. Qed.

(** An alternative that is a non-empty string makes the call throw: the
    loop visits the indices of the string and assigns to them. *)
Theorem string_alternative_throws
  (kw : string) (fuel : nat) (h : heap) (l : loc)
  (props : list (string * value)) (a : value) (elems : list value)
  (c : ascii) (s : string)
  (Hobj : h !! l = Some (OObj props)) (Ha : assoc kw props = Some a)
  (Harr : array_elems h a = Some elems)
  (Hfirst : elems !! 0 = Some (VStr (String c s))) :
  processFirstOf kw (S (S fuel)) (VRef l) h = Throw TypeError.
Proof.
  destruct (first_of_read kw h l props a elems Hobj Ha Harr) as [E1 E2].
  rewrite Hfirst in E2. cbn [default from_option id] in E2.
  rewrite processFirstOf_S. cbn [truthy is_object negb orb].
  rewrite (bind_ret _ _ _ _ _ E1). unfold bind at 1. rewrite Harr, E2.
  unfold bind at 1, for_in_keys, enum_keys.
  cbn [String.length seq map for_in]. rewrite string_of_nat_0.
  unfold bind at 1. unfold getM at 1.
  unfold bind at 1. rewrite processFirstOf_S.
  assert (O : is_object (default VUndef (own_get h (VStr (String c s)) "0")) = false).
  { reflexivity. }
  rewrite O, orb_true_r. reflexivity.
Qed.

Lemma string_alternative_throws_witness :
  processFirstOf "oneOf" 2 (VRef 1) heap_string_alternative = Throw TypeError.
Proof.
  exact (string_alternative_throws "oneOf" 0 heap_string_alternative 1
           [("oneOf", VRef 0)] (VRef 0) [VStr "cat"; VStr "dog"] "c" "at"
           eq_refl eq_refl eq_refl eq_refl).
Defined.

(** ** Members that are not objects *)

Lemma allOf_merge_outcome la x h :
  if is_nullish x then allOf_merge (VRef la) x h = Throw TypeError
  else exists lm hm, allOf_merge (VRef la) x h = Ret (VRef lm) hm.
Proof.
  unfold allOf_merge, bind, getM at 1.
  destruct x as [| |b|z|s|lx]; cbn [is_nullish]; try reflexivity;
    unfold getM, newM; eexists _, _; reflexivity.
Qed.

Lemma reduce_allOf_merge_outcome : forall members la h,
  if existsb is_nullish members
  then reduce allOf_merge members (VRef la) h = Throw TypeError
  else exists lm hm, reduce allOf_merge members (VRef la) h = Ret (VRef lm) hm.
Proof.
  induction members as [|x members IH]; intros la h; cbn [existsb reduce].
  - exists la, h. reflexivity.
  - pose proof (allOf_merge_outcome la x h) as Hx.
    destruct (is_nullish x); cbn [orb].
    + apply bind_throw, Hx.
    + destruct Hx as (lm & hm & Em). rewrite (bind_ret _ _ _ _ _ Em).
      apply IH.
Qed.

Lemma merge_allOf_start members h :
  merge_allOf members h
  = (let* merged := reduce allOf_merge members (VRef (List.length h)) in
     let* _ := delM merged "allOf" in
     ret merged) (h ++ [OObj []]).
Proof. reflexivity. Qed.

(** The fold of [flattenAllOf] throws a [TypeError] exactly when some member
    of the [allOf] array is [null]; members of any other kind (objects,
    arrays, strings, numbers, booleans) are folded and an object is
    returned. *)
Theorem merge_allOf_null_member (h : heap) (members : list value) :
  (existsb is_nullish members = true ->
   merge_allOf members h = Throw TypeError)
  /\ (existsb is_nullish members = false ->
      exists merged h', merge_allOf members h = Ret (VRef merged) h').
Proof.
  pose proof (reduce_allOf_merge_outcome members (List.length h) (h ++ [OObj []]))
    as R.
  rewrite merge_allOf_start.
  split; intros E; rewrite E in R.
  - apply bind_throw, R.
  - destruct R as (lm & hm & Er). rewrite (bind_ret _ _ _ _ _ Er).
    unfold bind, delM.
    destruct (hm !! lm) as [[props|elems]|]; eexists _, _; reflexivity.
Qed.

Lemma merge_allOf_null_member_witness :
  merge_allOf [VRef 2; VNull; VRef 5] heap_two_members = Throw TypeError
  /\ exists merged h',
       merge_allOf [VRef 2; VStr "x"; VRef 6] heap_two_members
       = Ret (VRef merged) h'.
Proof.
  split.
  - exact (proj1 (merge_allOf_null_member heap_two_members
                    [VRef 2; VNull; VRef 5]) eq_refl).
  - exact (proj2 (merge_allOf_null_member heap_two_members
                    [VRef 2; VStr "x"; VRef 6]) eq_refl).
Defined.

(** ** The composition functions work on their clone *)

Lemma writes_above_ret {A} n (a : A) (post : A -> Prop) :
  post a -> writes_above n (ret a) post.
Proof.
  intros P h a' h' _ C E. injection E as <- <-. repeat split; auto.
Qed.

Lemma writes_above_bind {A B} n (m : M A) (f : A -> M B) P Q :
  writes_above n m P ->
  (forall a, P a -> writes_above n (f a) Q) ->
  writes_above n (bind m f) Q.
Proof.
  intros Hm Hf h b h' L C E.
  apply bind_Ret_inv in E as (a & h1 & Em & Ef).
  destruct (Hm h a h1 L C Em) as (T1 & C1 & L1 & Pa).
  destruct (Hf a Pa h1 b h' ltac:(lia) C1 Ef) as (T2 & C2 & L2 & Qb).
  repeat split; [congruence | exact C2 | lia | exact Qb].
Qed.

Lemma writes_above_weaken {A} n (m : M A) (P Q : A -> Prop) :
  writes_above n m P -> (forall a, P a -> Q a) -> writes_above n m Q.
Proof.
  intros Hm HPQ h a h' L C E. destruct (Hm h a h' L C E) as (T & C' & L' & Pa).
  repeat split; auto.
Qed.

Lemma above_own_get n h v k x :
  closed_above n h -> above n v -> own_get h v k = Some x -> above n x.
Proof.
  intros C A E. destruct v as [| | | |s|l]; try discriminate.
  - unfold own_get in E. destruct (String.eqb k "length");
      [injection E as <-; exact I|].
    destruct (index_of_string k); [|discriminate].
    destruct (char_at s n0); [injection E as <-; exact I | discriminate].
  - cbn [above] in A. unfold own_get in E.
    destruct (h !! l) as [[props|elems]|] eqn:El; [| |discriminate].
    + pose proof (C l _ A El) as O. cbn in O.
      destruct (assoc_lookup _ _ _ E) as (i & k' & Li).
      rewrite Forall_lookup in O. exact (O i _ Li).
    + pose proof (C l _ A El) as O. cbn in O.
      destruct (String.eqb k "length"); [injection E as <-; exact I|].
      destruct (index_of_string k) as [i|]; [|discriminate].
      rewrite Forall_lookup in O. exact (O i _ E).
Qed.

Lemma writes_above_getM n v k :
  above n v -> writes_above n (getM v k) (above n).
Proof.
  intros A h x h' L C E. apply getM_Ret_inv in E as [-> ->].
  repeat split; auto.
  destruct (own_get h v k) as [y|] eqn:Ey; [|exact I].
  eapply above_own_get; eassumption.
Qed.

Lemma closed_above_insert n h l o :
  closed_above n h -> object_above n o -> closed_above n (<[l := o]> h).
Proof.
  intros C O l1 o1 L1 E1. destruct (decide (l1 = l)) as [->|N].
  - destruct (decide (l < List.length h)) as [Lt|Ge].
    + rewrite list_lookup_insert_eq in E1 by exact Lt. injection E1 as <-. exact O.
    + rewrite list_insert_ge in E1 by lia. eapply C; eassumption.
  - rewrite list_lookup_insert_ne in E1 by congruence. eapply C; eassumption.
Qed.

Lemma take_insert_above n (h : heap) l o :
  n <= l -> take n (<[l := o]> h) = take n h.
Proof. intros L. apply take_insert_ge. exact L. Qed.

Lemma assoc_set_above n k x (props : list (string * value)) :
  above n x -> Forall (fun kv => above n (snd kv)) props ->
  Forall (fun kv => above n (snd kv)) (assoc_set k x props).
Proof.
  intros A F. induction props as [|[k' y] props IH]; cbn [assoc_set].
  - repeat constructor. exact A.
  - destruct (String.eqb k k').
    + constructor; [exact A | eapply Forall_inv_tail; exact F].
    + constructor; [exact (Forall_inv F) | apply IH; eapply Forall_inv_tail; exact F].
Qed.

Lemma assoc_del_above n k (props : list (string * value)) :
  Forall (fun kv => above n (snd kv)) props ->
  Forall (fun kv => above n (snd kv)) (assoc_del k props).
Proof.
  intros F. induction props as [|[k' y] props IH]; cbn [assoc_del];
    [constructor|].
  destruct (String.eqb k k').
  - apply IH. eapply Forall_inv_tail; exact F.
  - constructor; [exact (Forall_inv F) | apply IH; eapply Forall_inv_tail; exact F].
Qed.

Lemma writes_above_setM n v k x :
  above n v -> above n x -> writes_above n (setM v k x) (fun _ => True).
Proof.
  intros Av Ax h [] h' L C E. unfold setM in E.
  destruct v as [| | | | |l]; try discriminate. cbn [above] in Av.
  destruct (h !! l) as [[props|elems]|] eqn:El; [| |discriminate].
  - injection E as <-. rewrite length_insert.
    repeat split; [apply take_insert_above, Av | | lia].
    apply closed_above_insert; [exact C|]. cbn.
    apply assoc_set_above; [exact Ax | exact (C l _ Av El)].
  - destruct (index_of_string k) as [i|].
    + injection E as <-. rewrite length_insert.
      repeat split; [apply take_insert_above, Av | | lia].
      apply closed_above_insert; [exact C|]. cbn.
      pose proof (C l _ Av El) as O. cbn in O.
      apply Forall_insert; assumption.
    + injection E as <-. repeat split; auto.
Qed.

Lemma writes_above_newM n o :
  object_above n o -> writes_above n (newM o) (above n).
Proof.
  intros O h v h' L C E. unfold newM in E. injection E as <- <-.
  rewrite length_app. cbn [List.length].
  repeat split; [apply take_app_le; exact L | | lia | exact L].
  intros l o1 Ll E1. destruct (decide (l < List.length h)) as [Lt|Ge].
  - rewrite lookup_app_l in E1 by exact Lt. eapply C; eassumption.
  - rewrite lookup_app_r in E1 by lia.
    destruct (l - List.length h) as [|i]; cbn in E1; [|discriminate].
    injection E1 as <-. exact O.
Qed.

Lemma writes_above_for_in n f o :
  above n o ->
  (forall v, above n v -> writes_above n (f v) (above n)) ->
  forall ks, writes_above n (for_in f o ks) (fun _ => True).
Proof.
  intros Ao Hf. induction ks as [|k ks IH]; cbn [for_in].
  - apply writes_above_ret. exact I.
  - eapply writes_above_bind; [apply writes_above_getM, Ao|].
    intros v Av. eapply writes_above_bind; [apply Hf, Av|].
    intros v' Av'. eapply writes_above_bind;
      [apply writes_above_setM; assumption|].
    intros _ _. exact IH.
Qed.

Lemma writes_above_for_in_keys n f o :
  above n o ->
  (forall v, above n v -> writes_above n (f v) (above n)) ->
  writes_above n (for_in_keys f o) (fun _ => True).
Proof.
  intros Ao Hf h a h' L C E. unfold for_in_keys in E.
  eapply (writes_above_for_in n f o Ao Hf); eassumption.
Qed.

Lemma writes_above_delM n v k :
  above n v -> writes_above n (delM v k) (fun _ => True).
Proof.
  intros Av h [] h' L C E. unfold delM in E.
  destruct v as [| | | | |l]; try (injection E as <-; repeat split; auto; fail).
  cbn [above] in Av.
  destruct (h !! l) as [[props|elems]|] eqn:El;
    try (injection E as <-; repeat split; auto; fail).
  injection E as <-. rewrite length_insert.
  repeat split; [apply take_insert_above, Av | | lia].
  apply closed_above_insert; [exact C|]. cbn.
  apply assoc_del_above. exact (C l _ Av El).
Qed.

Lemma Forall_combine_snd {A B} (P : B -> Prop) (xs : list B) : forall ks : list A,
  Forall P xs -> Forall (fun kv => P (snd kv)) (combine ks xs).
Proof.
  induction xs as [|x xs IH]; intros [|k ks] F; cbn [combine]; try constructor.
  - exact (Forall_inv F).
  - apply IH. eapply Forall_inv_tail; exact F.
Qed.

Lemma spread_above n h v :
  closed_above n h -> above n v ->
  Forall (fun kv => above n (snd kv)) (spread h v).
Proof.
  intros C A. unfold spread. destruct v as [| | | |s|l]; try constructor.
  - apply Forall_forall. intros kv Hin. apply list_elem_of_In in Hin.
    apply in_map_iff in Hin as (i & <- & _). exact I.
  - cbn [above] in A. destruct (h !! l) as [[props|elems]|] eqn:El;
      [| |constructor].
    + exact (C l _ A El).
    + apply Forall_combine_snd. exact (C l _ A El).
Qed.

Lemma spread_or_empty_above n h v :
  closed_above n h -> above n v ->
  Forall (fun kv => above n (snd kv)) (spread_or_empty h v).
Proof.
  intros C A. unfold spread_or_empty.
  destruct (truthy v); [apply spread_above; assumption | constructor].
Qed.

Lemma spread_into_above n more : forall acc,
  Forall (fun kv => above n (snd kv)) acc ->
  Forall (fun kv => above n (snd kv)) more ->
  Forall (fun kv => above n (snd kv)) (spread_into acc more).
Proof.
  unfold spread_into. induction more as [|[k v] more IH]; intros acc Fa Fm;
    cbn [fold_left]; [exact Fa|].
  apply IH; [|eapply Forall_inv_tail; exact Fm].
  apply assoc_set_above; [exact (Forall_inv Fm) | exact Fa].
Qed.

Lemma writes_above_new_from n (mk : heap -> object) :
  (forall h, closed_above n h -> object_above n (mk h)) ->
  writes_above n (fun h => newM (mk h) h) (above n).
Proof.
  intros Hmk h v h' L C E.
  exact (writes_above_newM n (mk h) (Hmk h C) h v h' L C E).
Qed.

Lemma writes_above_allOf_merge n merged sub :
  above n merged -> above n sub ->
  writes_above n (allOf_merge merged sub) (above n).
Proof.
  intros Am As. unfold allOf_merge.
  eapply writes_above_bind; [apply writes_above_getM, Am|]. intros mp Amp.
  eapply writes_above_bind; [apply writes_above_getM, As|]. intros sp Asp.
  eapply writes_above_bind.
  - apply (writes_above_new_from n
             (fun h => OObj (spread_into (spread_into [] (spread_or_empty h mp))
                                         (spread_or_empty h sp)))).
    intros h C. cbn.
    apply spread_into_above; [apply spread_into_above; [constructor|]|];
      apply spread_or_empty_above; assumption.
  - intros p Ap.
    apply (writes_above_new_from n
             (fun h => OObj (assoc_set "properties" p
                               (spread_into (spread_into [] (spread h merged))
                                            (spread h sub))))).
    intros h C. cbn. apply assoc_set_above; [exact Ap|].
    apply spread_into_above; [apply spread_into_above; [constructor|]|];
      apply spread_above; assumption.
Qed.

Lemma writes_above_reduce n : forall members acc,
  Forall (above n) members -> above n acc ->
  writes_above n (reduce allOf_merge members acc) (above n).
Proof.
  induction members as [|x members IH]; intros acc F Aacc; cbn [reduce].
  - apply writes_above_ret, Aacc.
  - eapply writes_above_bind;
      [apply writes_above_allOf_merge; [exact Aacc | exact (Forall_inv F)]|].
    intros acc' A'. apply IH; [eapply Forall_inv_tail; exact F | exact A'].
Qed.

Lemma writes_above_merge_allOf n members :
  Forall (above n) members -> writes_above n (merge_allOf members) (above n).
Proof.
  intros F. unfold merge_allOf.
  eapply writes_above_bind; [apply writes_above_newM; constructor|].
  intros init Ai.
  eapply writes_above_bind; [apply writes_above_reduce; assumption|].
  intros merged Am.
  eapply writes_above_bind; [apply writes_above_delM, Am|].
  intros _ _. apply writes_above_ret, Am.
Qed.

Lemma array_elems_above n h a members :
  closed_above n h -> above n a -> array_elems h a = Some members ->
  Forall (above n) members.
Proof.
  intros C A E. destruct a as [| | | | |l]; try discriminate. cbn in E, A.
  destruct (h !! l) as [[props|elems]|] eqn:El; try discriminate.
  injection E as <-. exact (C l _ A El).
Qed.

Lemma writes_above_processAllOf n : forall fuel schema,
  above n schema -> writes_above n (processAllOf fuel schema) (above n).
Proof.
  induction fuel as [|fuel IH]; intros schema As.
  - intros h a h' _ _ E. discriminate.
  - rewrite processAllOf_S.
    destruct (negb (truthy schema) || negb (is_object schema));
      [apply writes_above_ret, As|].
    eapply writes_above_bind; [apply writes_above_getM, As|]. intros a Aa.
    eapply writes_above_bind with (P := above n).
    + intros h s h' L C E.
      destruct (array_elems h a) as [members|] eqn:Ee.
      * eapply (writes_above_merge_allOf n members); try eassumption.
        eapply array_elems_above; eassumption.
      * injection E as <- <-. repeat split; auto.
    + intros s As'. eapply writes_above_bind;
        [apply writes_above_for_in_keys; [exact As' | exact IH]|].
      intros _ _. apply writes_above_ret, As'.
Qed.

Lemma writes_above_processFirstOf kw n : forall fuel schema,
  above n schema -> writes_above n (processFirstOf kw fuel schema) (above n).
Proof.
  induction fuel as [|fuel IH]; intros schema As.
  - intros h a h' _ _ E. discriminate.
  - rewrite processFirstOf_S.
    destruct (negb (truthy schema) || negb (is_object schema));
      [apply writes_above_ret, As|].
    eapply writes_above_bind; [apply writes_above_getM, As|]. intros a Aa.
    eapply writes_above_bind with (P := above n).
    + intros h s h' L C E.
      destruct (array_elems h a) as [members|] eqn:Ee.
      * eapply (writes_above_getM n a "0" Aa); eassumption.
      * injection E as <- <-. repeat split; auto.
    + intros s As'. eapply writes_above_bind;
        [apply writes_above_for_in_keys; [exact As' | exact IH]|].
      intros _ _. apply writes_above_ret, As'.
Qed.

Lemma writes_above_mapM_store {A B} n (f : A -> M B) (P : B -> Prop) xs :
  Forall (fun x => writes_above n (f x) P) xs ->
  writes_above n (mapM_store f xs) (Forall P).
Proof.
  induction 1 as [|x xs Hx F IH]; cbn [mapM_store].
  - apply writes_above_ret. constructor.
  - eapply writes_above_bind; [exact Hx|]. intros v Pv.
    eapply writes_above_bind; [exact IH|]. intros vs Pvs.
    apply writes_above_ret. constructor; assumption.
Qed.

(** [JSON.parse] only creates objects. *)
Lemma writes_above_alloc n : forall j, writes_above n (alloc j) (above n).
Proof.
  induction j as [| |b|z|s|xs IH|kvs IH] using json_ind_deep;
    try (apply writes_above_ret; exact I); cbn [alloc].
  - eapply writes_above_bind; [apply writes_above_mapM_store; exact IH|].
    intros vs Fvs. apply writes_above_newM. exact Fvs.
  - eapply writes_above_bind with (P := Forall (fun kv => above n (snd kv))).
    + apply writes_above_mapM_store.
      eapply Forall_impl; [exact IH|]. intros [k x] Hx. cbn [snd] in Hx.
      eapply writes_above_bind; [exact Hx|]. intros v Av.
      apply writes_above_ret. exact Av.
    + intros ps Fps. apply writes_above_newM. exact Fps.
Qed.

Lemma writes_above_json_clone n fuel v :
  writes_above n (json_clone fuel v) (above n).
Proof.
  intros h d h' L C E. unfold json_clone in E.
  destruct (reify fuel h v) as [j|]; [|discriminate].
  assert (E' : alloc (json_norm j) h = Ret d h') by (destruct j; try discriminate; exact E).
  exact (writes_above_alloc n (json_norm j) h d h' L C E').
Qed.

Lemma closed_above_length (h : heap) : closed_above (List.length h) h.
Proof.
  intros l o L E. apply lookup_lt_Some in E. lia.
Qed.

Lemma clone_then_helper_argument (proc : nat -> value -> M value) :
  (forall n fuel v, above n v -> writes_above n (proc fuel v) (above n)) ->
  forall fuel j arg,
    argument_after (call fuel (fun doc => let* clone := json_clone fuel doc in
                                          let* _ := proc fuel clone in
                                          ret clone) j) = Some arg ->
    arg = j.
Proof.
  intros Hproc fuel j arg E. unfold argument_after in E.
  match type of E with
  | match ?c with _ => _ end = _ => destruct c as [[o a] hf| | |] eqn:Ecall
  end; try discriminate.
  injection E as ->. unfold call in Ecall.
  apply bind_Ret_inv in Ecall as (doc & h1 & Ea & E).
  apply bind_Ret_inv in E as (c & h3 & Eop & E).
  destruct (alloc_rep j []) as (doc' & h1' & Ea' & Rdoc).
  cbn [app] in Ea', Rdoc. rewrite Ea in Ea'. injection Ea' as <- <-.
  assert (W : writes_above (List.length h1)
                (let* clone := json_clone fuel doc in
                 let* _ := proc fuel clone in ret clone) (above (List.length h1))).
  { eapply writes_above_bind; [apply writes_above_json_clone|]. intros d Ad.
    eapply writes_above_bind; [apply Hproc, Ad|]. intros _ _.
    apply writes_above_ret, Ad. }
  destruct (W h1 c h3 (le_n _) (closed_above_length h1) Eop) as (T & _ & _ & _).
  rewrite firstn_all in T.
  assert (R3 : rep h3 j doc).
  { rewrite <- (take_drop (List.length h1) h3), T. apply rep_ext, Rdoc. }
  apply bind_Ret_inv in E as (o1 & h4 & Eo & E).
  assert (h4 = h3) as ->.
  { unfold readback in Eo. destruct (reify fuel h3 c); [|discriminate].
    injection Eo as _ <-. reflexivity. }
  apply bind_Ret_inv in E as (a1 & h5 & Earg & E). injection E as _ <- _.
  unfold readback in Earg.
  destruct (reify fuel h3 doc) as [a2|] eqn:Er; [|discriminate].
  injection Earg as <- _. eapply reify_rep_inv; eassumption.
Qed.

(** [flattenAllOf], [selectFirstOfOneOf] and [selectFirstOfAnyOf] never
    change their argument: whenever a call returns, the caller's document
    reads as before. *)
Theorem composition_keeps_argument (fuel : nat) (j arg : json) :
  (argument_after (call fuel (flattenAllOf fuel) j) = Some arg -> arg = j)
  /\ (argument_after (call fuel (selectFirstOfOneOf fuel) j) = Some arg -> arg = j)
  /\ (argument_after (call fuel (selectFirstOfAnyOf fuel) j) = Some arg -> arg = j).
Proof.
  repeat split; intros E.
  - apply (clone_then_helper_argument processAllOf
             (fun n fuel v => writes_above_processAllOf n fuel v) fuel j arg E).
  - apply (clone_then_helper_argument (processFirstOf "oneOf")
             (fun n fuel v => writes_above_processFirstOf "oneOf" n fuel v)
             fuel j arg E).
  - apply (clone_then_helper_argument (processFirstOf "anyOf")
             (fun n fuel v => writes_above_processFirstOf "anyOf" n fuel v)
             fuel j arg E).
Qed.

Lemma composition_keeps_argument_witness :
  argument_after (call 20 (flattenAllOf 20) doc_two_members)
    = Some doc_two_members.
Proof.
  destruct (argument_after (call 20 (flattenAllOf 20) doc_two_members))
    as [arg|] eqn:E.
  - f_equal.
    exact (proj1 (composition_keeps_argument 20 doc_two_members arg) E).
  - vm_compute in E. discriminate.
Defined.

(** ** What an assignment changes *)

Lemma index_of_string_Some k i : index_of_string k = Some i -> k = string_of_nat i.
Proof.
  unfold index_of_string. destruct (NilZero.uint_of_string k) as [d|]; [|discriminate].
  destruct (String.eqb (string_of_nat (Nat.of_uint d)) k) eqn:E; [|discriminate].
  intros [= <-]. symmetry. apply String.eqb_eq. exact E.
Qed.

Lemma string_of_nat_inj i j : string_of_nat i = string_of_nat j -> i = j.
Proof.
  intros E. pose proof (index_of_string_of_nat i) as Hi.
  rewrite E, index_of_string_of_nat in Hi. congruence.
Qed.

Lemma setM_same_slot l k x h h' :
  In k (enum_keys h (VRef l)) -> setM (VRef l) k x h = Ret tt h' ->
  own_get h' (VRef l) k = Some x.
Proof.
  unfold setM, enum_keys, own_get.
  destruct (h !! l) as [[props|elems]|] eqn:El; [| |discriminate].
  - intros _ E. injection E as <-.
    rewrite list_lookup_insert_eq by (eapply lookup_lt_Some; exact El).
    rewrite assoc_assoc_set, String.eqb_refl. reflexivity.
  - intros Hin E. apply in_map_iff in Hin as (i & <- & Hi). apply in_seq in Hi.
    rewrite index_of_string_of_nat in E. injection E as <-.
    rewrite list_lookup_insert_eq by (eapply lookup_lt_Some; exact El).
    rewrite string_of_nat_not_length, index_of_string_of_nat.
    apply list_lookup_insert_eq. lia.
Qed.

Lemma setM_other_slot l k x h h' l' k' :
  setM (VRef l) k x h = Ret tt h' -> l' <> l \/ k' <> k ->
  own_get h' (VRef l') k' = own_get h (VRef l') k'.
Proof.
  unfold setM, own_get. intros E N.
  destruct (h !! l) as [[props|elems]|] eqn:El; [| |discriminate].
  - injection E as <-. destruct (decide (l' = l)) as [->|Nl].
    + rewrite list_lookup_insert_eq by (eapply lookup_lt_Some; exact El).
      rewrite El, assoc_assoc_set.
      destruct (String.eqb k' k) eqn:Ek; [|reflexivity].
      apply String.eqb_eq in Ek. destruct N; contradiction.
    + rewrite list_lookup_insert_ne by congruence. reflexivity.
  - destruct (index_of_string k) as [i|] eqn:Ei; injection E as <-; [|reflexivity].
    destruct (decide (l' = l)) as [->|Nl].
    + rewrite list_lookup_insert_eq by (eapply lookup_lt_Some; exact El).
      rewrite El, length_insert.
      destruct (String.eqb k' "length"); [reflexivity|].
      destruct (index_of_string k') as [i'|] eqn:Ei'; [|reflexivity].
      apply list_lookup_insert_ne. intros ->.
      apply index_of_string_Some in Ei, Ei'. destruct N; congruence.
    + rewrite list_lookup_insert_ne by congruence. reflexivity.
Qed.

Lemma own_get_enum h l k x :
  own_get h (VRef l) k = Some x ->
  In k (enum_keys h (VRef l)) \/ is_object x = false.
Proof.
  unfold own_get, enum_keys.
  destruct (h !! l) as [[props|elems]|]; [| |discriminate].
  - intros E. left. eapply assoc_Some_key; exact E.
  - destruct (String.eqb k "length"); [intros [= <-]; right; reflexivity|].
    destruct (index_of_string k) as [i|] eqn:Ei; [|discriminate].
    intros E. left. apply index_of_string_Some in Ei as ->.
    apply in_map, in_seq. apply lookup_lt_Some in E. lia.
Qed.

(** ** [resolveRef] and [processSchema] keep every shape *)

Lemma resolveRef_keeps api : forall fuel obj h r h',
  resolveRef fuel obj api h = Ret r h' -> keeps_shapes h h'.
Proof.
  induction fuel as [|fuel IH]; intros obj h r h' E; [discriminate|].
  rewrite resolveRef_S in E.
  apply bind_Ret_inv in E as (x & h0 & Er & E).
  assert (h0 = h) as ->.
  { unfold ref_of in Er. destruct (truthy obj).
    - apply getM_Ret_inv in Er as [-> _]. reflexivity.
    - injection Er as _ <-. reflexivity. }
  destruct (truthy x).
  - destruct x as [| | | |pointer|]; try discriminate.
    apply bind_Ret_inv in E as (d & h1 & Ew & E).
    apply walk_Ret_heap in Ew as ->. eapply IH; exact E.
  - apply bind_Ret_inv in E as ([] & h1 & El & E). injection E as _ <-.
    destruct (is_object obj).
    + eapply for_in_keys_keeps; [|exact El].
      intros v h2 r2 h2' E2. eapply IH; exact E2.
    + injection El as <-. apply keeps_shapes_refl.
Qed.

Lemma processSchema_keeps api : forall fuel schema h r h',
  processSchema fuel api schema h = Ret r h' -> keeps_shapes h h'.
Proof.
  induction fuel as [|fuel IH]; intros schema h r h' E; [discriminate|].
  rewrite processSchema_S in E.
  destruct (negb (truthy schema)); [injection E as _ <-; apply keeps_shapes_refl|].
  apply bind_Ret_inv in E as (x & h0 & Eg & E).
  apply getM_Ret_inv in Eg as [-> _].
  apply bind_Ret_inv in E as (s1 & h1 & Es & E).
  assert (K1 : keeps_shapes h h1).
  { destruct (truthy x).
    - eapply resolveRef_keeps; exact Es.
    - injection Es as _ <-. apply keeps_shapes_refl. }
  apply bind_Ret_inv in E as ([] & h2 & El & E). injection E as _ <-.
  eapply keeps_shapes_trans; [exact K1|].
  destruct (is_object s1).
  - eapply for_in_keys_keeps; [|exact El]. exact IH.
  - injection El as <-. apply keeps_shapes_refl.
Qed.

(** ** The loops of [dereferenceApi] build a resolved subgraph *)

Lemma in_set_mono (dn dn' : loc -> Prop) v :
  (forall l, dn l -> dn' l) -> in_set dn v -> in_set dn' v.
Proof. intros Hsub. destruct v; cbn; auto. Qed.

Lemma walk_inv_slots_mono kw ok h dn pending
  (slots slots' : loc -> string -> Prop) :
  (forall l k, slots' l k -> slots l k) ->
  walk_inv kw ok h dn pending slots -> walk_inv kw ok h dn pending slots'.
Proof.
  intros Hsub (R & P & S & B). split; [exact R | split; [exact P|split]].
  - intros l k x Hs. apply S, Hsub, Hs.
  - intros l [Hl|[Hl|[k Hl]]]; apply B; [left | right; left | right; right; exists k];
      auto.
Qed.

Lemma lacks_after_set kw l1 k x h h' l :
  In k (enum_keys h (VRef l1)) -> setM (VRef l1) k x h = Ret tt h' ->
  (k = kw -> truthy x = false) ->
  lacks kw h l -> lacks kw h' l.
Proof.
  intros Hin Es Hx N. unfold lacks in *.
  destruct (decide (l = l1)) as [->|Nl].
  - destruct (string_dec kw k) as [<-|Nk].
    + rewrite (setM_same_slot _ _ _ _ _ Hin Es). apply Hx. reflexivity.
    + rewrite (setM_other_slot _ _ _ _ _ l1 kw Es (or_intror Nk)). exact N.
  - rewrite (setM_other_slot _ _ _ _ _ l kw Es (or_introl Nl)). exact N.
Qed.

Lemma own_get_after_set l1 k x h h' l k' y dn :
  In k (enum_keys h (VRef l1)) -> setM (VRef l1) k x h = Ret tt h' ->
  in_set dn x ->
  own_get h' (VRef l) k' = Some y ->
  (own_get h (VRef l) k' = Some y -> (l <> l1 \/ k' <> k) -> in_set dn y) ->
  in_set dn y.
Proof.
  intros Hin Es Hx Ey Hold.
  destruct (decide (l = l1)) as [->|Nl].
  - destruct (string_dec k' k) as [->|Nk].
    + rewrite (setM_same_slot _ _ _ _ _ Hin Es) in Ey. injection Ey as <-. exact Hx.
    + rewrite (setM_other_slot _ _ _ _ _ l1 k' Es (or_intror Nk)) in Ey.
      apply Hold; [exact Ey | right; exact Nk].
  - rewrite (setM_other_slot _ _ _ _ _ l k' Es (or_introl Nl)) in Ey.
    apply Hold; [exact Ey | left; exact Nl].
Qed.

Lemma setM_walk_inv kw (ok : heap -> value -> Prop) h h' dn pending slots l1 k x :
  (forall h h' v, keeps_shapes h h' -> ok h v -> ok h' v) ->
  walk_inv kw ok h dn pending slots -> ok h (VRef l1) ->
  In k (enum_keys h (VRef l1)) -> in_set dn x ->
  (k = kw -> truthy x = false) ->
  setM (VRef l1) k x h = Ret tt h' ->
  walk_inv kw ok h' dn pending (fun l k' => slots l k' \/ (l = l1 /\ k' = k)).
Proof.
  intros Okeeps (R & P & S & B) Ol1 Hin Hx Hf Es.
  assert (K : keeps_shapes h h') by (eapply setM_keeps; eassumption).
  split; [|split; [|split]].
  - intros l Hl. split.
    + eapply lacks_after_set; try eassumption. apply R, Hl.
    + intros k' y Ey. eapply own_get_after_set; try eassumption.
      intros Ey' _. eapply R; eassumption.
  - intros l Hl. eapply lacks_after_set; try eassumption. apply P, Hl.
  - intros l k' y Hs Ey. eapply own_get_after_set; try eassumption.
    intros Ey' N. destruct Hs as [Hs|[-> ->]].
    + eapply S; eassumption.
    + destruct N; contradiction.
  - intros l Hl. apply (Okeeps h h' _ K).
    destruct Hl as [Hl|[Hl|[k' [Hl|[-> _]]]]];
      [apply B; left; exact Hl | apply B; right; left; exact Hl
       | apply B; right; right; exists k'; exact Hl | exact Ol1].
Qed.

Lemma for_in_walk_inv kw good ok f l1 :
  store_discipline kw good ok -> resolves kw good ok f ->
  forall ks h h' dn pending slots,
    good h -> walk_inv kw ok h dn pending slots -> pending l1 ->
    (forall k, In k ks -> In k (enum_keys h (VRef l1))) ->
    for_in f (VRef l1) ks h = Ret tt h' ->
    keeps_shapes h h' /\ good h'
    /\ exists dn', (forall l, dn l -> dn' l)
                   /\ walk_inv kw ok h' dn' pending
                        (fun l k => slots l k \/ (l = l1 /\ In k ks)).
Proof.
  intros (Oprim & Okeeps & Oget & Oset) Hf.
  induction ks as [|k ks IH]; intros h h' dn pending slots G W Hp Hk E;
    cbn [for_in] in E.
  - injection E as <-. split; [apply keeps_shapes_refl|]. split; [exact G|].
    exists dn. split; [auto|].
    eapply walk_inv_slots_mono; [|exact W]. intros l k [Hs|[_ []]]. exact Hs.
  - apply bind_Ret_inv in E as (v & h0 & Eg & E).
    apply getM_Ret_inv in Eg as [-> ->].
    apply bind_Ret_inv in E as (v' & h1 & Ef & E).
    apply bind_Ret_inv in E as ([] & h2 & Es & E).
    destruct (Hf _ _ _ _ G (Oget h l1 k G) Ef) as (K1 & G1 & Ov' & Hfalsy & Hinv).
    destruct (Hinv dn pending slots W) as (dn1 & Sub1 & W1 & Hv').
    assert (Hin1 : In k (enum_keys h1 (VRef l1))).
    { eapply enum_keys_keeps; [exact K1 | apply Hk; left; reflexivity]. }
    assert (K2 : keeps_shapes h1 h2) by (eapply setM_keeps; eassumption).
    assert (Hx : k = kw -> truthy v' = false).
    { intros ->. destruct W as (_ & P & _). specialize (P l1 Hp).
      unfold lacks in P. rewrite (Hfalsy P). exact P. }
    assert (G2 : good h2) by (eapply Oset; eassumption).
    assert (Ol1 : ok h1 (VRef l1)).
    { destruct W1 as (_ & _ & _ & B1). apply B1. right; left; exact Hp. }
    assert (W2 : walk_inv kw ok h2 dn1 pending
                   (fun l k' => slots l k' \/ (l = l1 /\ k' = k))).
    { eapply setM_walk_inv; eassumption. }
    destruct (IH h2 h' dn1 pending _ G2 W2 Hp) as (K3 & G3 & dn' & Sub2 & W3);
      [|exact E|].
    { intros k' Hin. eapply enum_keys_keeps; [exact K2|].
      eapply enum_keys_keeps; [exact K1 | apply Hk; right; exact Hin]. }
    split; [eapply keeps_shapes_trans; [exact K1|];
            eapply keeps_shapes_trans; eassumption|].
    split; [exact G3|].
    exists dn'. split; [auto|].
    eapply walk_inv_slots_mono; [|exact W3].
    intros l k' [Hs|[-> [<-|Hin]]]; [left; left; exact Hs | left; right; auto
                                     | right; auto].
Qed.

Lemma enum_keys_same h h' l :
  keeps_shapes h h' -> h !! l <> None ->
  enum_keys h' (VRef l) = enum_keys h (VRef l).
Proof.
  intros K N. unfold enum_keys. destruct (h !! l) as [o|] eqn:El; [|contradiction].
  destruct (K l o El) as (o' & -> & S).
  destruct o, o'; cbn in S; try contradiction; rewrite S; reflexivity.
Qed.

Lemma in_set_prim dn v : is_object v = false -> in_set dn v.
Proof. destruct v; try discriminate; intros _; exact I. Qed.

Lemma loop_object kw good ok f l1 h h' dn pending slots :
  store_discipline kw good ok -> resolves kw good ok f ->
  good h -> ok h (VRef l1) ->
  walk_inv kw ok h dn pending slots -> lacks kw h l1 ->
  for_in_keys f (VRef l1) h = Ret tt h' ->
  keeps_shapes h h' /\ good h'
  /\ exists dn', (forall l, dn l -> dn' l)
                 /\ walk_inv kw ok h' dn' pending slots /\ dn' l1.
Proof.
  intros D Hf G Ol1 (R & P & S & B) N E. unfold for_in_keys in E.
  destruct (for_in_walk_inv kw good ok f l1 D Hf (enum_keys h (VRef l1)) h h' dn
              (fun l => pending l \/ l = l1) slots)
    as (K & G' & dn1 & Sub & W1);
    [ exact G | | right; reflexivity | auto | exact E | ].
  { split; [exact R | split; [|split; [exact S|]]].
    - intros l [Hl| ->]; [apply P, Hl | exact N].
    - intros l [Hl|[[Hl| ->]|Hl]];
        [apply B; left; exact Hl | apply B; right; left; exact Hl | exact Ol1
         | apply B; right; right; exact Hl]. }
  split; [exact K|]. split; [exact G'|]. destruct W1 as (R1 & P1 & S1 & B1).
  exists (fun l => dn1 l \/ l = l1).
  split; [intros l Hl; left; apply Sub, Hl|]. split; [|right; reflexivity].
  split; [|split; [|split]].
  - intros l [Hl| ->]; split.
    + apply R1, Hl.
    + intros k x Ex. eapply in_set_mono; [|eapply R1; eassumption]. auto.
    + apply P1. right; reflexivity.
    + intros k x Ex. destruct (own_get_enum _ _ _ _ Ex) as [Hin|Hprim];
        [|apply in_set_prim, Hprim].
      eapply in_set_mono; [intros l Hl; left; exact Hl|].
      apply (S1 l1 k x); [|exact Ex]. right. split; [reflexivity|].
      destruct (h !! l1) as [o|] eqn:El.
      * rewrite <- (enum_keys_same h h' l1 K); [exact Hin | congruence].
      * unfold enum_keys in E. rewrite El in E. cbn in E. injection E as <-.
        exact Hin.
  - intros l Hl. apply P1. left; exact Hl.
  - intros l k x Hs Ex. eapply in_set_mono; [intros l' Hl'; left; exact Hl'|].
    apply (S1 l k x); [left; exact Hs | exact Ex].
  - intros l [[Hl| ->]|[Hl|[k Hl]]];
      [apply B1; left; exact Hl | apply B1; right; left; right; reflexivity
       | apply B1; right; left; left; exact Hl
       | apply B1; right; right; exists k; left; exact Hl].
Qed.

Lemma any_store_discipline kw : store_discipline kw any_store any_value.
Proof. repeat split. Qed.

Lemma ref_of_heap obj h x h0 :
  ref_of obj h = Ret x h0 ->
  h0 = h /\ (truthy obj = false -> x = obj)
  /\ (truthy obj = true -> x = default VUndef (own_get h obj "$ref")).
Proof.
  unfold ref_of. destruct (truthy obj); intros E.
  - apply getM_Ret_inv in E as [-> ->].
    split; [reflexivity | split; [discriminate | reflexivity]].
  - injection E as <- <-.
    split; [reflexivity | split; [reflexivity | discriminate]].
Qed.

Lemma resolveRef_resolves api : forall fuel,
  resolves "$ref" any_store any_value (fun v => resolveRef fuel v api).
Proof.
  induction fuel as [|fuel IH]; intros v h r h' _ _ E; [discriminate|].
  rewrite resolveRef_S in E.
  apply bind_Ret_inv in E as (x & h0 & Er & E).
  destruct (ref_of_heap _ _ _ _ Er) as (-> & Hfalsy & Htruthy).
  destruct (truthy x) eqn:Tx.
  - destruct x as [| | | |pointer|]; try discriminate.
    apply bind_Ret_inv in E as (d & h1 & Ew & E).
    apply walk_Ret_heap in Ew as ->.
    destruct (IH _ _ _ _ I I E) as (K & _ & _ & _ & Inv).
    split; [exact K | split; [exact I | split; [exact I | split; [|exact Inv]]]].
    intros Tv. rewrite (Hfalsy Tv) in Tx. congruence.
  - apply bind_Ret_inv in E as ([] & h1 & El & E). injection E as <- <-.
    destruct (is_object v) eqn:Ov.
    2:{ injection El as <-. split; [apply keeps_shapes_refl|].
        split; [exact I|]. split; [exact I|].
        split; [reflexivity|]. intros dn pending slots W.
        exists dn. split; [auto|]. split; [exact W | apply in_set_prim, Ov]. }
    destruct v as [| | | | |l1]; try discriminate.
    assert (N : lacks "$ref" h l1)
      by (unfold lacks; rewrite <- (Htruthy eq_refl); exact Tx).
    split; [|split; [exact I | split; [exact I | split; [reflexivity|]]]].
    + eapply for_in_keys_keeps; [|exact El].
      intros v h2 r2 h2' E2. eapply resolveRef_keeps; exact E2.
    + intros dn pending slots W.
      destruct (loop_object "$ref" any_store any_value _ l1 h h1 dn pending slots
                  (any_store_discipline _) IH I I W N El)
        as (_ & _ & dn' & Sub & W' & Hl1).
      exists dn'. split; [exact Sub|]. split; [exact W' | exact Hl1].
Qed.

Lemma processSchema_resolves api : forall fuel,
  resolves "$ref" any_store any_value (processSchema fuel api).
Proof.
  induction fuel as [|fuel IH]; intros v h r h' _ _ E; [discriminate|].
  split; [eapply processSchema_keeps; exact E|].
  split; [exact I|]. split; [exact I|].
  rewrite processSchema_S in E.
  destruct (truthy v) eqn:Tv; cbn [negb] in E.
  2:{ injection E as <- <-. split; [reflexivity|].
      intros dn pending slots W. exists dn.
      split; [auto|]. split; [exact W|].
      apply in_set_prim. destruct v; try reflexivity; discriminate. }
  split; [discriminate|].
  apply bind_Ret_inv in E as (x & h0 & Eg & E).
  apply getM_Ret_inv in Eg as [-> ->].
  apply bind_Ret_inv in E as (s1 & h1 & Es & E).
  apply bind_Ret_inv in E as ([] & h2 & El & E). injection E as <- <-.
  intros dn pending slots W.
  assert (H1 : exists dn1, (forall l, dn l -> dn1 l)
                 /\ walk_inv "$ref" any_value h1 dn1 pending slots
                 /\ (forall l1, s1 = VRef l1 -> lacks "$ref" h1 l1)).
  { destruct (truthy (default VUndef (own_get h v "$ref"))) eqn:Tx.
    - destruct (resolveRef_resolves api fuel _ _ _ _ I I Es)
        as (_ & _ & _ & _ & Inv).
      destruct (Inv dn pending slots W) as (dn1 & Sub & W1 & Hs1).
      exists dn1. split; [exact Sub|]. split; [exact W1|].
      intros l1 ->. exact (proj1 (proj1 W1 l1 Hs1)).
    - injection Es as <- <-. exists dn. split; [auto|]. split; [exact W|].
      intros l1 ->. exact Tx. }
  destruct H1 as (dn1 & Sub1 & W1 & N1).
  destruct (is_object s1) eqn:Os.
  2:{ injection El as <-. exists dn1.
      split; [exact Sub1|]. split; [exact W1 | apply in_set_prim, Os]. }
  destruct s1 as [| | | | |l1]; try discriminate.
  destruct (loop_object "$ref" any_store any_value _ l1 h1 h2 dn1 pending slots
              (any_store_discipline _) IH I I W1 (N1 l1 eq_refl) El)
    as (_ & _ & dn' & Sub & W' & Hl1).
  exists dn'. split; [auto|]. split; [exact W' | exact Hl1].
Qed.

(** ** The check of the test suite on a resolved subgraph *)

Lemma hasRefs_resolved h dn : resolved_set "$ref" h dn ->
  forall fuel v, in_set dn v -> hasRefs fuel h v <> Some true.
Proof.
  intros R. induction fuel as [|fuel IH]; intros v Hv; [discriminate|].
  cbn [hasRefs]. destruct v as [| | | | |l]; try discriminate.
  cbn [is_object negb in_set] in *. destruct (R l Hv) as [N Hch].
  unfold lacks in N. rewrite N.
  generalize (enum_keys h (VRef l)). intros ks.
  induction ks as [|k ks IHks]; [discriminate|].
  assert (Hc : in_set dn (default VUndef (own_get h (VRef l) k))).
  { destruct (own_get h (VRef l) k) as [x|] eqn:Ex; [|exact I].
    eapply Hch; exact Ex. }
  pose proof (IH _ Hc) as Hn.
  set (child := default VUndef (own_get h (VRef l) k)) in *.
  set (loop := fix loop (ks : list string) : option bool :=
         match ks with
         | [] => Some false
         | k :: ks' =>
             match hasRefs fuel h (default VUndef (own_get h (VRef l) k)) with
             | Some true => Some true
             | Some false => loop ks'
             | None => None
             end
         end) in *.
  change (loop (k :: ks)) with (match hasRefs fuel h child with
                                | Some true => Some true
                                | Some false => loop ks
                                | None => None
                                end).
  destruct (hasRefs fuel h child) as [[|]|];
    [exfalso; apply Hn; reflexivity | exact IHks | discriminate].
Qed.

Lemma walk_inv_empty kw ok h :
  walk_inv kw ok h (fun _ => False) (fun _ => False) (fun _ _ => False).
Proof.
  split; [intros l []|split; [intros l [] | split; [intros l k x []|]]].
  intros l [[]|[[]|[k []]]].
Qed.

Lemma processSchema_hasRefs fuel api v r h h' :
  processSchema fuel api v h = Ret r h' ->
  forall n, hasRefs n h' r <> Some true.
Proof.
  intros E n.
  destruct (processSchema_resolves api fuel _ _ _ _ I I E)
    as (_ & _ & _ & _ & Inv).
  destruct (Inv _ _ _ (walk_inv_empty _ _ h)) as (dn & _ & (R & _) & Hr).
  eapply hasRefs_resolved; eassumption.
Qed.

(** Whatever [resolveRef] or [processSchema] returns holds no reference:
    the check of the test suite, run on the returned value in the store
    the call leaves, never answers [true]. *)
Theorem processed_section_has_no_refs
  (fuel : nat) (api v r : value) (h h' : heap) :
  (resolveRef fuel v api h = Ret r h' ->
   forall n, hasRefs n h' r <> Some true)
  /\ (processSchema fuel api v h = Ret r h' ->
      forall n, hasRefs n h' r <> Some true).
Proof.
  split; intros E n.
  - destruct (resolveRef_resolves api fuel _ _ _ _ I I E)
      as (_ & _ & _ & _ & Inv).
    destruct (Inv _ _ _ (walk_inv_empty _ _ h)) as (dn & _ & (R & _) & Hr).
    eapply hasRefs_resolved; eassumption.
  - eapply processSchema_hasRefs; exact E.
Qed.

Lemma processed_section_has_no_refs_witness :
  hasRefs 10 heap_chain (VRef 2) <> Some true.
Proof.
  refine (proj2 (processed_section_has_no_refs 5 api_chain (VRef 0) (VRef 2)
                   heap_chain heap_chain) _ 10).
  vm_compute; reflexivity.
Defined.

(** ** The first test of the suite, for every document *)

Lemma processSchema_non_ref fuel api v h r h' :
  truthy (default VUndef (own_get h v "$ref")) = false ->
  processSchema fuel api v h = Ret r h' -> r = v.
Proof.
  intros N E. destruct fuel as [|fuel]; [discriminate|].
  rewrite processSchema_S in E.
  destruct (negb (truthy v)); [injection E as <- _; reflexivity|].
  apply bind_Ret_inv in E as (x & h0 & Eg & E).
  apply getM_Ret_inv in Eg as [-> ->]. rewrite N in E.
  apply bind_Ret_inv in E as (s1 & h1 & Es & E). injection Es as <- <-.
  apply bind_Ret_inv in E as ([] & h2 & El & E). injection E as <- _.
  reflexivity.
Qed.

Lemma json_clone_Ret_rep fuel h j v d h' :
  rep h j v -> is_json j = true -> json_clone fuel v h = Ret d h' ->
  rep h' j d.
Proof.
  intros R J E. unfold json_clone in E.
  destruct (reify fuel h v) as [j'|] eqn:Er; [|discriminate].
  rewrite (reify_rep_inv h _ _ _ _ R Er), (json_norm_id _ J) in E.
  destruct (alloc_rep j h) as (d' & ext & Ea & Rd).
  assert (E' : alloc j h = Ret d h') by (destruct j; try discriminate; exact E).
  rewrite Ea in E'. injection E' as <- <-. exact Rd.
Qed.

Lemma rep_root_ref h j v :
  rep h j v ->
  truthy (default VUndef (own_get h v "$ref"))
  = jtruthy (default JUndef (jget j "$ref")).
Proof.
  intros R. pose proof (rep_own_get h j v "$ref" R) as G.
  destruct (jget j "$ref") as [x|].
  - destruct G as (y & -> & Rxy). apply (rep_truthy _ _ _ Rxy).
  - rewrite G. reflexivity.
Qed.

(** For every JSON document whose root is not itself a reference node: when
    [dereferenceApi(apiDoc)] returns and the test's [hasRefs] check of the
    returned document finishes, the check answers [false]. *)
Theorem fully_dereferenced_check
  (fuel : nat) (j : json) (refsExist : bool) (h : heap)
  (Hjson : is_json j = true)
  (Hroot : jtruthy (default JUndef (jget j "$ref")) = false)
  (Hrun : refs_exist_after_dereference fuel j = Ret (Some refsExist) h) :
  refsExist = false.
Proof.
  unfold refs_exist_after_dereference in Hrun.
  apply bind_Ret_inv in Hrun as (doc & h1 & Ea & E).
  apply bind_Ret_inv in E as (d & hf & Ed & E).
  destruct (alloc_rep j []) as (doc' & h1' & Ea' & Rdoc).
  cbn [app] in Ea', Rdoc. rewrite Ea in Ea'. injection Ea' as <- <-.
  unfold dereferenceApi in Ed.
  apply bind_Ret_inv in Ed as (d0 & h2 & Ec & Ed).
  pose proof (json_clone_Ret_rep _ _ _ _ _ _ Rdoc Hjson Ec) as Rd.
  apply bind_Ret_inv in Ed as (start & h2' & Ej & Ed).
  unfold JSONPath in Ej. cbn [select] in Ej.
  destruct (truthy d0); injection Ej as <- <-; [|discriminate].
  apply bind_Ret_inv in Ed as (r & h3 & Ep & Ed).
  apply bind_Ret_inv in Ed as (again & h3' & Ej & Ed).
  assert (h3' = h3) as ->.
  { unfold JSONPath in Ej. destruct (truthy d0); injection Ej as _ <-; reflexivity. }
  injection Ed as <- <-.
  assert (N : truthy (default VUndef (own_get h2 d0 "$ref")) = false).
  { rewrite (rep_root_ref _ _ _ Rd). exact Hroot. }
  pose proof (processSchema_non_ref _ _ _ _ _ _ N Ep) as ->.
  pose proof (processSchema_hasRefs _ _ _ _ _ _ Ep fuel) as Hn.
  injection E as E _. rewrite E in Hn.
  destruct refsExist; [exfalso; apply Hn; reflexivity | reflexivity].
Qed.

Lemma fully_dereferenced_check_witness :
  exists h, refs_exist_after_dereference 20 doc_nested_ref = Ret (Some false) h.
Proof.
  destruct (refs_exist_after_dereference 20 doc_nested_ref) as [[b|] h| | |] eqn:E;
    try (vm_compute in E; discriminate).
  exists h. do 2 f_equal.
  exact (fully_dereferenced_check 20 doc_nested_ref b h eq_refl eq_refl E).
Defined.

(** ** A scope below the root *)

(** When the node that [startAt] selects in the clone is not itself a
    reference node and the call returns, the call returns the clone, and
    the [hasRefs] check of the test suite never answers [true] on the
    selected node. *)
Theorem scope_has_no_refs
  (fuel : nat) (apiDoc : value) (startAt : path) (h0 h2 hf : heap)
  (dereferencedDoc s0 r : value) (rest : list value)
  (Hclone : json_clone fuel apiDoc h0 = Ret dereferencedDoc h2)
  (Hscope : JSONPath startAt dereferencedDoc h2 = Ret (Some (s0 :: rest)) h2)
  (Hnode : truthy (default VUndef (own_get h2 s0 "$ref")) = false)
  (Hrun : dereferenceApi fuel apiDoc startAt h0 = Ret r hf) :
  r = dereferencedDoc /\ forall n, hasRefs n hf s0 <> Some true.
Proof.
  unfold dereferenceApi in Hrun.
  rewrite (bind_ret _ _ _ _ _ Hclone), (bind_ret _ _ _ _ _ Hscope) in Hrun.
  apply bind_Ret_inv in Hrun as (section & h3 & Ep & E).
  apply bind_Ret_inv in E as (again & h3' & Ej & E).
  assert (h3' = h3) as ->.
  { unfold JSONPath in Ej.
    destruct (truthy dereferencedDoc); injection Ej as _ <-; reflexivity. }
  injection E as <- <-. split; [reflexivity|].
  pose proof (processSchema_non_ref _ _ _ _ _ _ Hnode Ep) as ->.
  intros n. eapply processSchema_hasRefs; exact Ep.
Qed.

Lemma scope_has_no_refs_witness :
  hasRefs 10 after_nested_ref scope_nested_ref <> Some true.
Proof.
  refine (proj2 (scope_has_no_refs 20 api_nested_ref ["components"]
                   heap_nested_ref (snd clone_nested_ref) after_nested_ref
                   (fst clone_nested_ref) scope_nested_ref
                   (fst clone_nested_ref) [] _ _ _ _) 10);
    vm_compute; reflexivity.
Defined.

(** ** The deep copy *)

(** [JSON.parse(JSON.stringify(v))] of a stored JSON tree returns a value
    that reads back as the same tree, is made of objects created by the
    copy only, and leaves every existing object as it was. *)
Theorem json_clone_fresh_copy (fuel : nat) (h : heap) (j : json) (v : value)
  (Hrep : rep h j v) (Hjson : is_json j = true) (Hfuel : height j <= fuel) :
  exists d ext,
    json_clone fuel v h = Ret d (h ++ ext)
    /\ reify fuel (h ++ ext) d = Some j
    /\ reify fuel (h ++ ext) v = Some j
    /\ above (List.length h) d
    /\ closed_above (List.length h) (h ++ ext).
Proof.
  destruct (json_clone_rep fuel h j v Hrep Hjson Hfuel) as (d & ext & Ec & Rd).
  exists d, ext. split; [exact Ec|].
  destruct (writes_above_json_clone (List.length h) fuel v h d (h ++ ext)
              (le_n _) (closed_above_length h) Ec) as (_ & C & _ & A).
  repeat split; try assumption.
  - apply rep_reify; assumption.
  - apply rep_reify; [apply rep_ext; exact Hrep | exact Hfuel].
Qed.

Lemma json_clone_fresh_copy_witness :
  exists d ext,
    json_clone 5 api_chain heap_chain = Ret d (heap_chain ++ ext)
    /\ reify 5 (heap_chain ++ ext) d = Some doc_chain.
Proof.
  destruct (json_clone_fresh_copy 5 heap_chain doc_chain api_chain)
    as (d & ext & E & R & _).
  - destruct (alloc_rep doc_chain []) as (v & h & Ea & Rv).
    vm_compute in Ea. injection Ea as <- <-. exact Rv.
  - reflexivity.
  - simpl; lia.
  - exists d, ext. split; assumption.
Defined.

(** ** The caller's document keeps its shape *)

Lemma json_clone_keeps fuel v h d h' :
  json_clone fuel v h = Ret d h' -> keeps_shapes h h'.
Proof.
  unfold json_clone. destruct (reify fuel h v) as [j|]; [|discriminate].
  intros E.
  assert (E' : alloc (json_norm j) h = Ret d h')
    by (destruct j; try discriminate; exact E).
  destruct (alloc_rep (json_norm j) h) as (d' & ext & Ea & _).
  rewrite Ea in E'. injection E' as _ <-. apply keeps_shapes_app.
Qed.

(** [dereferenceApi] replaces values of properties in the objects it is
    given, but never adds or removes a property and never changes the
    length of an array. *)
Theorem dereferenceApi_keeps_shapes
  (fuel : nat) (apiDoc : value) (startAt : path) (h h' : heap) (r : value)
  (Hrun : dereferenceApi fuel apiDoc startAt h = Ret r h') :
  keeps_shapes h h'.
Proof.
  unfold dereferenceApi in Hrun.
  apply bind_Ret_inv in Hrun as (d & h1 & Ec & E).
  pose proof (json_clone_keeps _ _ _ _ _ Ec) as K1.
  apply bind_Ret_inv in E as (start & h1' & Ej & E).
  assert (h1' = h1) as ->.
  { unfold JSONPath in Ej. destruct (truthy d); injection Ej as _ <-; reflexivity. }
  destruct start as [[|s0 rest]|]; [injection E as _ <-; exact K1| |discriminate].
  apply bind_Ret_inv in E as (section & h2 & Ep & E).
  apply bind_Ret_inv in E as (again & h2' & Ej' & E).
  assert (h2' = h2) as ->.
  { unfold JSONPath in Ej'. destruct (truthy d); injection Ej' as _ <-; reflexivity. }
  injection E as _ <-.
  eapply keeps_shapes_trans; [exact K1 | eapply processSchema_keeps; exact Ep].
Qed.

Lemma dereferenceApi_keeps_shapes_witness :
  keeps_shapes heap_nested_ref after_nested_ref.
Proof.
  refine (dereferenceApi_keeps_shapes 20 api_nested_ref ["components"]
            heap_nested_ref after_nested_ref (fst clone_nested_ref) _).
  vm_compute; reflexivity.
Defined.

(** ** A [$ref] that is not a string *)

(** A node whose [$ref] is truthy but not a string (a number, [true], an
    object such as the schema of a property named [$ref]) makes
    [resolveRef], [processSchema] and a [dereferenceApi] call that reaches
    it as scope node throw a [TypeError]. *)
Theorem non_string_ref_throws
  (fuel : nat) (h : heap) (obj api r : value)
  (Hown : own_get h obj "$ref" = Some r) (Htruthy : truthy r = true)
  (Hkind : forall s, r <> VStr s) :
  resolveRef (S fuel) obj api h = Throw TypeError
  /\ processSchema (S (S fuel)) api obj h = Throw TypeError
  /\ forall h0 doc startAt rest,
       json_clone (S (S fuel)) api h0 = Ret doc h ->
       JSONPath startAt doc h = Ret (Some (obj :: rest)) h ->
       dereferenceApi (S (S fuel)) api startAt h0 = Throw TypeError.
Proof.
  pose proof (own_ref_ref_of _ _ _ Hown) as Hr.
  assert (R : resolveRef (S fuel) obj api h = Throw TypeError).
  { rewrite resolveRef_S, (bind_ret _ _ _ _ _ Hr), Htruthy.
    destruct r; try reflexivity. exfalso. eapply Hkind; reflexivity. }
  assert (Tobj : truthy obj = true).
  { destruct obj; try discriminate; reflexivity. }
  assert (Eg : getM obj "$ref" h = Ret r h).
  { unfold ref_of in Hr. rewrite Tobj in Hr. exact Hr. }
  assert (P : processSchema (S (S fuel)) api obj h = Throw TypeError).
  { rewrite processSchema_S, Tobj. cbn [negb].
    rewrite (bind_ret _ _ _ _ _ Eg), Htruthy. apply bind_throw, R. }
  repeat split; try assumption.
  intros h0 doc startAt rest Ec Ej. unfold dereferenceApi.
  rewrite (bind_ret _ _ _ _ _ Ec), (bind_ret _ _ _ _ _ Ej).
  apply bind_throw, P.
Qed.

Lemma non_string_ref_throws_witness :
  resolveRef 1 (VRef 1) (VRef 2) heap_property_named_ref = Throw TypeError.
Proof.
  refine (proj1 (non_string_ref_throws 0 heap_property_named_ref (VRef 1)
                   (VRef 2) (VRef 0) eq_refl eq_refl _)).
  discriminate.
Defined.

(** ** Falsy [$ref] values *)

Lemma rep_plain_truthy h : forall j v,
  rep h j v -> has_truthy_ref j = false -> plain_within (height j) h v.
Proof.
  induction j as [| |b|n|s|xs IH|kvs IH] using json_ind_deep;
    intros v R K; inversion R; subst;
    try (apply plain_within_prim; reflexivity).
  - cbn [height plain_within].
    match goal with H : h !! _ = Some _ |- _ => rewrite H end.
    match goal with H : Forall2 _ xs _ |- _ => revert IH K H end.
    clear. cbn [has_truthy_ref]. intros IH K F.
    induction F as [|x v xs vs Rx F IHF]; [constructor|].
    cbn [existsb] in K. apply orb_false_iff in K as [K1 K2].
    cbn [fold_right]. constructor.
    + eapply plain_within_mono; [apply Nat.le_max_l|].
      apply (Forall_inv IH); assumption.
    + eapply Forall_impl; [apply IHF; [eapply Forall_inv_tail; exact IH | exact K2]|].
      intros y Hy. eapply plain_within_mono; [apply Nat.le_max_r | exact Hy].
  - cbn [height plain_within].
    match goal with H : h !! _ = Some _ |- _ => rewrite H end.
    match goal with H : Forall2 _ kvs _ |- _ => rename H into F end.
    cbn [has_truthy_ref] in K. apply orb_false_iff in K as [Kr K].
    split.
    + pose proof (assoc_None_fst (rep h) "$ref" _ _ F) as A.
      destruct (assoc "$ref" kvs) as [x|].
      * destruct A as (y & -> & Rxy). cbn [default from_option id] in *.
        rewrite (rep_truthy _ _ _ Rxy). exact Kr.
      * rewrite A. reflexivity.
    + revert IH K F. clear. intros IH K F.
      induction F as [|[k x] [k' v] kvs ps [Hk Rx] F IHF]; [constructor|].
      cbn [existsb fst snd] in K. apply orb_false_iff in K as [K1 K2].
      cbn [fold_right snd] in *. constructor.
      * eapply plain_within_mono; [apply Nat.le_max_l|].
        apply (Forall_inv IH); assumption.
      * eapply Forall_impl; [apply IHF; [eapply Forall_inv_tail; exact IH | exact K2]|].
        intros y Hy. eapply plain_within_mono; [apply Nat.le_max_r | exact Hy].
Qed.

Lemma jget_truthy_sub j k j' :
  jget j k = Some j' -> has_truthy_ref j = false -> has_truthy_ref j' = false.
Proof.
  destruct j as [| |b|n|s|xs|kvs]; cbn [jget]; try discriminate.
  - destruct (String.eqb k "length"); [intros [= <-]; reflexivity|].
    destruct (index_of_string k); [|discriminate].
    destruct (char_at s n); [|discriminate]. intros [= <-]; reflexivity.
  - destruct (String.eqb k "length"); [intros [= <-]; reflexivity|].
    destruct (index_of_string k) as [i|]; [|discriminate]. intros E K.
    cbn [has_truthy_ref] in K. eapply existsb_false_lookup; eassumption.
  - intros E K. destruct (assoc_lookup _ _ _ E) as (i & k' & L).
    cbn [has_truthy_ref] in K. apply orb_false_iff in K as [_ K].
    exact (existsb_false_lookup _ kvs i _ K L).
Qed.

Lemma jselect_truthy_sub : forall p j j',
  jselect j p = Some j' -> has_truthy_ref j = false -> has_truthy_ref j' = false.
Proof.
  induction p as [|k p IH]; intros j j' E K; cbn [jselect] in E.
  - injection E as <-. exact K.
  - destruct (jget j k) as [j1|] eqn:G; [|discriminate].
    eapply IH; [exact E | eapply jget_truthy_sub; eassumption].
Qed.

(** A [$ref] whose value is falsy ([null], [false], [0], the empty string)
    is not a reference: a JSON document in which no [$ref] is truthy comes
    back from [dereferenceApi] equal to the input, its [$ref] keys
    included, and the caller's document is unchanged. *)
Theorem dereferenceApi_falsy_refs (j : json) (p : path) (fuel : nat)
  (Hjson : is_json j = true) (Hrefs : has_truthy_ref j = false)
  (Hscope : matches j p = true) (Hfuel : height j < fuel) :
  result (call fuel (fun d => dereferenceApi fuel d p) j) = Some j
  /\ argument_after (call fuel (fun d => dereferenceApi fuel d p) j) = Some j.
Proof.
  unfold matches in Hscope. apply andb_true_iff in Hscope as [Tj Hs].
  destruct (jselect j p) as [js|] eqn:Es; [clear Hs | discriminate].
  destruct (alloc_rep j []) as (doc & h1 & Ea & Rdoc). cbn [app] in Ea, Rdoc.
  destruct (json_clone_rep fuel h1 j doc Rdoc Hjson ltac:(lia))
    as (d & ext & Ec & Rd).
  set (h2 := h1 ++ ext) in *.
  assert (Rdoc2 : rep h2 j doc) by (apply rep_ext; exact Rdoc).
  destruct (rep_select h2 p j d js Rd Es) as (s0 & Esel & Rs).
  destruct (jselect_sub "$ref" p j js Es) as [Hjs _].
  assert (Ej : JSONPath p d h2 = Ret (Some [s0]) h2).
  { unfold JSONPath. rewrite (rep_truthy _ _ _ Rd), Tj, Esel. reflexivity. }
  assert (Ep : processSchema fuel doc s0 h2 = Ret s0 h2).
  { apply (processSchema_plain doc fuel (height js)); [lia|].
    apply rep_plain_truthy; [exact Rs | eapply jselect_truthy_sub; eassumption]. }
  assert (E : call fuel (fun d => dereferenceApi fuel d p) j = Ret (j, j) h2).
  { unfold call. rewrite (bind_ret _ _ _ _ _ Ea).
    assert (Ed : dereferenceApi fuel doc p h1 = Ret d h2).
    { unfold dereferenceApi.
      rewrite (bind_ret _ _ _ _ _ Ec), (bind_ret _ _ _ _ _ Ej).
      rewrite (bind_ret _ _ _ _ _ Ep), (bind_ret _ _ _ _ _ Ej). reflexivity. }
    rewrite (bind_ret _ _ _ _ _ Ed).
    rewrite (bind_ret _ _ _ _ _ (readback_rep fuel h2 j d Rd ltac:(lia))).
    rewrite (bind_ret _ _ _ _ _ (readback_rep fuel h2 j doc Rdoc2 ltac:(lia))).
    reflexivity. }
  rewrite E. split; reflexivity.
Qed.

Lemma dereferenceApi_falsy_refs_witness :
  result (call 6 (fun d => dereferenceApi 6 d []) doc_falsy_refs)
    = Some doc_falsy_refs.
Proof.
  refine (proj1 (dereferenceApi_falsy_refs doc_falsy_refs [] 6 _ _ _ _));
    try reflexivity.
  simpl; lia.
Defined.

(** ** The keys of a flattened node *)

Lemma allOf_merge_properties merged sub h r h' :
  allOf_merge merged sub h = Ret r h' ->
  exists lm props lp,
    r = VRef lm /\ h' !! lm = Some (OObj props)
    /\ assoc "properties" props = Some (VRef lp)
    /\ List.length h <= lp /\ lp < lm.
Proof.
  unfold allOf_merge. intros E.
  apply bind_Ret_inv in E as (mp & h0 & Eg & E).
  apply getM_Ret_inv in Eg as [-> _].
  apply bind_Ret_inv in E as (sp & h0 & Eg & E).
  apply getM_Ret_inv in Eg as [-> _].
  apply bind_Ret_inv in E as (p & h1 & Ep & E).
  unfold newM in Ep, E. injection Ep as <- <-. injection E as <- <-.
  eexists _, _, (List.length h). split; [reflexivity|].
  split; [apply list_lookup_middle; reflexivity|].
  split; [rewrite assoc_assoc_set; reflexivity|].
  rewrite length_app. cbn [List.length]. lia.
Qed.

Lemma reduce_allOf_merge_properties : forall members acc h r h',
  members <> [] ->
  reduce allOf_merge members acc h = Ret r h' ->
  exists lm props lp,
    r = VRef lm /\ h' !! lm = Some (OObj props)
    /\ assoc "properties" props = Some (VRef lp)
    /\ List.length h <= lp /\ lp < lm.
Proof.
  induction members as [|x members IH]; intros acc h r h' N E; [contradiction|].
  cbn [reduce] in E. apply bind_Ret_inv in E as (acc' & h1 & Em & E).
  destruct members as [|y members].
  - injection E as <- <-. eapply allOf_merge_properties; exact Em.
  - destruct (allOf_merge_fresh _ _ _ _ _ Em) as (K1 & _).
    pose proof (keeps_shapes_length _ _ K1) as L1.
    assert (N' : y :: members <> []) by discriminate.
    destruct (IH acc' h1 r h' N' E)
      as (lm & props & lp & -> & El & Ep & Hl & Hlt).
    exists lm, props, lp. repeat split; try assumption. lia.
Qed.

(** Flattening always adds a [properties] object: for a non-empty [allOf]
    array without [null] members, the merged node has a [properties] entry
    that is an object created by the merge, also when no member has
    [properties]. *)
Theorem merged_node_has_properties
  (h : heap) (x : value) (members : list value)
  (Hmembers : existsb is_nullish (x :: members) = false) :
  exists merged h' p,
    merge_allOf (x :: members) h = Ret (VRef merged) h'
    /\ own_get h' (VRef merged) "properties" = Some (VRef p)
    /\ List.length h <= p.
Proof.
  pose proof (reduce_allOf_merge_outcome (x :: members) (List.length h)
                (h ++ [OObj []])) as R.
  rewrite Hmembers in R. destruct R as (lm & hm & Er).
  assert (N : x :: members <> []) by discriminate.
  destruct (reduce_allOf_merge_properties _ _ _ _ _ N Er)
    as (lm' & props & lp & [= ->] & El & Ep & Hl & Hlt).
  rewrite length_app in Hl. cbn [List.length] in Hl.
  exists lm', (<[lm' := OObj (assoc_del "allOf" props)]> hm), lp.
  rewrite merge_allOf_start, (bind_ret _ _ _ _ _ Er).
  split; [unfold bind, delM; rewrite El; reflexivity|].
  split; [|lia].
  unfold own_get.
  rewrite list_lookup_insert_eq by (eapply lookup_lt_Some; exact El).
  rewrite assoc_assoc_del. exact Ep.
Qed.

Lemma merged_node_has_properties_witness :
  exists merged h' p,
    merge_allOf [VRef 0; VRef 3] heap_two_members = Ret (VRef merged) h'
    /\ own_get h' (VRef merged) "properties" = Some (VRef p).
Proof.
  destruct (merged_node_has_properties heap_two_members (VRef 0) [VRef 3] eq_refl)
    as (merged & h' & p & E & Ep & _).
  exists merged, h', p. split; assumption.
Defined.

(** ** Keys beside [allOf] *)

Lemma fst_combine {A B} : forall (xs : list A) (ys : list B),
  List.length xs = List.length ys -> map fst (combine xs ys) = xs.
Proof.
  induction xs as [|x xs IH]; intros [|y ys] L; try discriminate; [reflexivity|].
  cbn [combine map fst]. f_equal. apply IH. injection L as L. exact L.
Qed.

Lemma spread_keys h v : map fst (spread h v) = enum_keys h v.
Proof.
  destruct v as [| | | |s|l]; cbn [spread enum_keys]; try reflexivity.
  - rewrite map_map. reflexivity.
  - destruct (h !! l) as [[props|elems]|]; try reflexivity.
    apply fst_combine. rewrite length_map, length_seq. reflexivity.
Qed.

Lemma spread_app h ext v : allocated h v -> spread (h ++ ext) v = spread h v.
Proof.
  destruct v as [| | | |s|l]; cbn [allocated spread]; try reflexivity.
  intros Hl. rewrite lookup_app_l by exact Hl. reflexivity.
Qed.

Lemma allocated_app h ext v : allocated h v -> allocated (h ++ ext) v.
Proof.
  destruct v as [| | | |s|l]; cbn [allocated]; try tauto.
  rewrite length_app. lia.
Qed.

Lemma assoc_spread_into_None k more : forall acc,
  assoc k acc = None -> ~ In k (map fst more) ->
  assoc k (spread_into acc more) = None.
Proof.
  unfold spread_into. induction more as [|[k1 v1] more IH]; intros acc Ha N;
    cbn [fold_left]; [exact Ha|].
  cbn [map fst] in N. apply IH; [|intros I; apply N; right; exact I].
  rewrite assoc_assoc_set. cbn [fst snd].
  destruct (String.eqb k k1) eqn:E; [|exact Ha].
  apply String.eqb_eq in E as ->. exfalso. apply N. left; reflexivity.
Qed.

Lemma allOf_merge_store merged sub h r h' :
  allOf_merge merged sub h = Ret r h' ->
  exists p,
    r = VRef (S (List.length h))
    /\ h' = (h ++ [OObj p])
            ++ [OObj (assoc_set "properties" (VRef (List.length h))
                        (spread_into (spread_into [] (spread (h ++ [OObj p]) merged))
                                     (spread (h ++ [OObj p]) sub)))].
Proof.
  unfold allOf_merge. intros E.
  apply bind_Ret_inv in E as (mp & h0 & Eg & E).
  apply getM_Ret_inv in Eg as [-> _].
  apply bind_Ret_inv in E as (sp & h0 & Eg & E).
  apply getM_Ret_inv in Eg as [-> _].
  apply bind_Ret_inv in E as (p & h1 & Ep & E).
  unfold newM in Ep, E. injection Ep as <- <-. injection E as <- <-.
  eexists. split; [|reflexivity].
  rewrite length_app. cbn [List.length]. f_equal. lia.
Qed.

(** The accumulator of the fold has no property [k] that no member has. *)
Lemma reduce_allOf_merge_absent k :
  k <> "properties" ->
  forall members la h props r h',
    h !! la = Some (OObj props) -> assoc k props = None ->
    (forall m, In m members -> allocated h m /\ ~ In k (enum_keys h m)) ->
    reduce allOf_merge members (VRef la) h = Ret r h' ->
    exists lm props',
      r = VRef lm /\ h' !! lm = Some (OObj props') /\ assoc k props' = None.
Proof.
  intros Hk. induction members as [|x members IH];
    intros la h props r h' El Ha Hm E; cbn [reduce] in E.
  - injection E as <- <-. exists la, props. repeat split; assumption.
  - apply bind_Ret_inv in E as (acc' & h1 & Em & E).
    destruct (allOf_merge_store _ _ _ _ _ Em) as (p & -> & ->).
    destruct (Hm x (or_introl eq_refl)) as [Ax Nx].
    eapply IH; [| | |exact E].
    + replace (S (List.length h)) with (List.length (h ++ [OObj p]))
        by (rewrite length_app; cbn [List.length]; lia).
      apply list_lookup_middle. reflexivity.
    + rewrite assoc_assoc_set.
      destruct (String.eqb k "properties") eqn:Ek;
        [apply String.eqb_eq in Ek; contradiction|].
      apply assoc_spread_into_None.
      * apply assoc_spread_into_None; [reflexivity|].
        rewrite spread_keys. unfold enum_keys.
        rewrite lookup_app_l by (eapply lookup_lt_Some; exact El).
        rewrite El. intros I. apply assoc_In in I as (v & Ev & _). congruence.
      * rewrite spread_app by exact Ax. rewrite spread_keys. exact Nx.
    + intros m Im. destruct (Hm m (or_intror Im)) as [Am Nm].
      split; [do 2 apply allocated_app; exact Am|].
      rewrite <- spread_keys, <- app_assoc, spread_app by exact Am.
      rewrite spread_keys. exact Nm.
Qed.

(** A node with an [allOf] array is replaced by the merge of the members:
    the flattened node has no [allOf], and of the keys that stood beside
    [allOf] on the node only those that a member has too (and
    [properties]) are left. *)
Theorem allOf_siblings_dropped
  (fuel : nat) (h h' : heap) (l : loc) (members : list value) (r : value)
  (k : string)
  (Hnode : array_elems h (default VUndef (own_get h (VRef l) "allOf"))
           = Some members)
  (Hmembers : Forall (allocated h) members)
  (Hrun : processAllOf (S fuel) (VRef l) h = Ret r h')
  (Hk : k = "allOf"
        \/ k <> "properties"
           /\ forall m, In m members -> ~ In k (enum_keys h m)) :
  r <> VRef l /\ own_get h' r k = None.
Proof.
  rewrite processAllOf_S in Hrun. cbn [truthy is_object negb orb] in Hrun.
  apply bind_Ret_inv in Hrun as (a & h0 & Eg & Hrun).
  apply getM_Ret_inv in Eg as [-> ->].
  apply bind_Ret_inv in Hrun as (s1 & h1 & Es & Hrun).
  rewrite Hnode in Es.
  destruct (own_get h (VRef l) "allOf") as [a0|] eqn:Eo; [|discriminate].
  apply bind_Ret_inv in Hrun as ([] & h2 & Ef & Hrun).
  injection Hrun as <- <-.
  rewrite merge_allOf_start in Es.
  apply bind_Ret_inv in Es as (m & hm & Er & Es).
  apply bind_Ret_inv in Es as ([] & hd & Ed & Es). injection Es as <- <-.
  assert (Hl : l < List.length h).
  { unfold own_get in Eo. destruct (h !! l) eqn:El; [|discriminate].
    eapply lookup_lt_Some; exact El. }
  assert (Hle : List.length h <= List.length (h ++ [OObj []]))
    by (rewrite length_app; lia).
  destruct (reduce_allOf_merge_fresh (List.length h) _ _ _ _ _
              (ex_intro _ (List.length h) (conj eq_refl (le_n _))) Hle Er)
    as (K & lm & -> & Hlm).
  assert (Hobj : exists props, hm !! lm = Some (OObj props)
                 /\ (k = "allOf" \/ assoc k props = None)).
  { destruct Hk as [->|[Hk Hno]].
    - assert (N : members <> [] \/ members = [])
        by (destruct members; [right; reflexivity | left; discriminate]).
      destruct N as [N| ->].
      + destruct (reduce_allOf_merge_properties _ _ _ _ _ N Er)
          as (lm' & props & lp & [= <-] & El & _).
        exists props. split; [exact El | left; reflexivity].
      + cbn [reduce] in Er. injection Er as <- <-.
        exists []. split; [apply list_lookup_middle; reflexivity
                          | left; reflexivity].
    - assert (Ei : (h ++ [OObj []]) !! List.length h = Some (OObj []))
        by (apply list_lookup_middle; reflexivity).
      assert (Hm : forall m0, In m0 members ->
                allocated (h ++ [OObj []]) m0
                /\ ~ In k (enum_keys (h ++ [OObj []]) m0)).
      { intros m0 Im. split.
        * apply allocated_app.
          rewrite Forall_forall in Hmembers. apply Hmembers.
          apply list_elem_of_In. exact Im.
        * rewrite <- spread_keys, spread_app, spread_keys; [apply Hno; exact Im|].
          rewrite Forall_forall in Hmembers. apply Hmembers.
          apply list_elem_of_In. exact Im. }
      destruct (reduce_allOf_merge_absent k Hk members _ _ _ _ _
                  Ei eq_refl Hm Er)
        as (lm' & props & [= <-] & El & Ha).
      exists props. split; [exact El | right; exact Ha]. }
  destruct Hobj as (props & El & Hprops).
  split; [intros [= ->]; lia|].
  unfold delM in Ed. rewrite El in Ed. injection Ed as <-.
  assert (Ek : assoc k (assoc_del "allOf" props) = None).
  { rewrite assoc_assoc_del. destruct Hprops as [->|Ha];
      [rewrite String.eqb_refl; reflexivity|].
    destruct (String.eqb k "allOf"); [reflexivity | exact Ha]. }
  pose proof (for_in_keys_keeps _ _ _ _
                (fun v h r h' => processAllOf_keeps fuel v h r h') Ef) as Kf.
  destruct (Kf lm (OObj (assoc_del "allOf" props))) as (o' & Eo' & Sh).
  { apply list_lookup_insert_eq. eapply lookup_lt_Some; exact El. }
  unfold own_get. rewrite Eo'.
  destruct o' as [props'|]; [|contradiction]. cbn [same_shape] in Sh.
  apply assoc_not_In. rewrite <- Sh. intros I.
  apply assoc_In in I as (v & Ev & _). congruence.
Qed.

Lemma allOf_siblings_dropped_witness :
  own_get heap_sibling_keys (VRef 4) "description" = Some (VStr "a pet")
  /\ exists r h',
       processAllOf 6 (VRef 4) heap_sibling_keys = Ret r h'
       /\ own_get h' r "description" = None.
Proof.
  split; [reflexivity|].
  assert (E : exists r h', processAllOf 6 (VRef 4) heap_sibling_keys = Ret r h')
    by (eexists _, _; vm_compute; reflexivity).
  destruct E as (r & h' & E). exists r, h'. split; [exact E|].
  refine (proj2 (allOf_siblings_dropped 5 heap_sibling_keys h' 4
                   [VRef 0; VRef 2] r "description" eq_refl _ E _)).
  - repeat constructor; cbn; lia.
  - right. split; [discriminate|].
    intros m [<-|[<-|[]]]; cbn; intros [H|[]]; discriminate H.
Defined.

(** ** Flattened subgraphs *)

Lemma hasAllOf_resolved h dn : resolved_set "allOf" h dn ->
  forall fuel v, in_set dn v -> hasAllOf fuel h v <> Some true.
Proof.
  intros R. induction fuel as [|fuel IH]; intros v Hv; [discriminate|].
  cbn [hasAllOf]. destruct v as [| | | | |l]; try discriminate.
  cbn [is_object negb in_set] in *. destruct (R l Hv) as [N Hch].
  unfold lacks in N. rewrite N. unfold object_values.
  induction (enum_keys h (VRef l)) as [|k ks IHks]; [discriminate|].
  cbn [map array_some].
  assert (Hc : in_set dn (default VUndef (own_get h (VRef l) k))).
  { destruct (own_get h (VRef l) k) as [x|] eqn:Ex; [|exact I].
    eapply Hch; exact Ex. }
  pose proof (IH _ Hc) as Hn.
  destruct (hasAllOf fuel h (default VUndef (own_get h (VRef l) k))) as [[|]|];
    [exfalso; apply Hn; reflexivity | exact IHks | discriminate].
Qed.

(** ** Stores that use [allOf] as the composition keyword *)

Lemma allocated_keeps h h' v :
  keeps_shapes h h' -> allocated h v -> allocated h' v.
Proof.
  intros K. destruct v as [| | | | |l]; cbn [allocated]; try tauto.
  pose proof (keeps_shapes_length _ _ K). lia.
Qed.

Lemma allocated_prim h v : is_object v = false -> allocated h v.
Proof. destruct v; try discriminate; intros _; exact I. Qed.

Lemma keeps_shapes_arrays h h' : keeps_shapes h h' -> keeps_arrays h h'.
Proof.
  intros K. split; [apply keeps_shapes_length, K|].
  intros l elems El. destruct (K l _ El) as ([props|elems'] & E' & Sh);
    [contradiction|]. exists elems'. exact E'.
Qed.

Lemma keeps_arrays_trans h1 h2 h3 :
  keeps_arrays h1 h2 -> keeps_arrays h2 h3 -> keeps_arrays h1 h3.
Proof.
  intros [L1 A1] [L2 A2]. split; [lia|].
  intros l elems El. destruct (A1 l elems El) as (e2 & E2). eapply A2; exact E2.
Qed.

Lemma entry_ok_keeps h h' kv :
  keeps_arrays h h' -> entry_ok h kv -> entry_ok h' kv.
Proof.
  intros [L A] [Ha Hk]. split.
  - destruct (snd kv); cbn [allocated] in *; try tauto. lia.
  - intros Ek. destruct (Hk Ek) as [F|Arr]; [left; exact F|]. right.
    unfold array_elems in *. destruct (snd kv) as [| | | | |l]; try congruence.
    destruct (h !! l) as [[props|elems]|] eqn:El; try congruence.
    destruct (A l elems El) as (e' & ->). discriminate.
Qed.

Lemma object_ok_keeps h h' o :
  keeps_arrays h h' -> object_ok h o -> object_ok h' o.
Proof.
  intros K. destruct o as [props|elems]; cbn [object_ok]; intros F.
  - eapply Forall_impl; [exact F|]. intros kv. apply entry_ok_keeps, K.
  - eapply Forall_impl; [exact F|]. intros v Hv. destruct K as [L _].
    destruct v; cbn [allocated] in *; try tauto. lia.
Qed.

Lemma allOf_store_lookup h l o :
  allOf_store h -> h !! l = Some o -> object_ok h o.
Proof. intros G El. exact (proj1 (Forall_lookup _ _) G l o El). Qed.

Lemma allOf_store_app h o :
  allOf_store h -> object_ok h o -> allOf_store (h ++ [o]).
Proof.
  intros G Ho.
  assert (K : keeps_arrays h (h ++ [o])) by
    (apply keeps_shapes_arrays, keeps_shapes_app).
  apply Forall_app. split.
  - eapply Forall_impl; [exact G|]. intros o'. apply object_ok_keeps, K.
  - constructor; [|constructor]. eapply object_ok_keeps; eassumption.
Qed.

Lemma allOf_store_insert h l o' :
  allOf_store h -> keeps_arrays h (<[l := o']> h) ->
  object_ok h o' -> allOf_store (<[l := o']> h).
Proof.
  intros G K Ho. apply Forall_lookup. intros i o Ei.
  eapply object_ok_keeps; [exact K|].
  destruct (decide (i = l)) as [->|N].
  - apply list_lookup_insert_Some in Ei as [(_ & <- & _)|[N _]];
      [exact Ho | contradiction].
  - rewrite list_lookup_insert_ne in Ei by congruence.
    eapply allOf_store_lookup; eassumption.
Qed.

Lemma assoc_set_Forall {A} (Q : string * A -> Prop) k x kvs :
  Forall Q kvs -> Q (k, x) -> Forall Q (assoc_set k x kvs).
Proof.
  intros F Hx. induction kvs as [|[k' y] kvs IH]; cbn [assoc_set].
  - constructor; [exact Hx | constructor].
  - apply Forall_cons in F as [Hy F].
    destruct (String.eqb k k') eqn:E.
    + apply String.eqb_eq in E as <-. constructor; assumption.
    + constructor; [exact Hy | apply IH, F].
Qed.

Lemma assoc_del_Forall {A} (Q : string * A -> Prop) k kvs :
  Forall Q kvs -> Forall Q (assoc_del k kvs).
Proof.
  intros F. induction kvs as [|[k' y] kvs IH]; cbn [assoc_del]; [constructor|].
  apply Forall_cons in F as [Hy F].
  destruct (String.eqb k k'); [apply IH, F | constructor; [exact Hy | apply IH, F]].
Qed.

Lemma spread_into_Forall (Q : string * value -> Prop) more : forall acc,
  Forall Q acc -> Forall Q more -> Forall Q (spread_into acc more).
Proof.
  unfold spread_into. induction more as [|[k x] more IH]; intros acc Fa Fm;
    cbn [fold_left]; [exact Fa|].
  apply Forall_cons in Fm as [Hx Fm].
  apply IH; [|exact Fm]. apply assoc_set_Forall; assumption.
Qed.

Lemma index_name_not_allOf i : string_of_nat i <> "allOf".
Proof.
  intros E. pose proof (index_of_string_of_nat i) as Hi.
  rewrite E in Hi. discriminate Hi.
Qed.

(** What a spread copies from a store that uses [allOf] as the keyword. *)
Lemma spread_ok h v : allOf_store h -> Forall (entry_ok h) (spread h v).
Proof.
  intros G. destruct v as [| | | |s|l]; cbn [spread]; try constructor.
  - apply Forall_forall. intros kv Hin.
    apply list_elem_of_In, in_map_iff in Hin as (i & <- & _).
    split; [exact I|]. intros E. destruct (index_name_not_allOf _ E).
  - destruct (h !! l) as [[props|elems]|] eqn:El; [| |constructor].
    + exact (allOf_store_lookup _ _ _ G El).
    + pose proof (allOf_store_lookup _ _ _ G El) as F. cbn [object_ok] in F.
      apply Forall_forall. intros [k x] Hin. apply list_elem_of_In in Hin.
      split.
      * apply in_combine_r in Hin. rewrite Forall_forall in F.
        apply F, list_elem_of_In, Hin.
      * cbn [fst]. intros ->. apply in_combine_l, in_map_iff in Hin
          as (i & E & _). destruct (index_name_not_allOf _ E).
Qed.

Lemma spread_or_empty_ok h v :
  allOf_store h -> Forall (entry_ok h) (spread_or_empty h v).
Proof.
  intros G. unfold spread_or_empty.
  destruct (truthy v); [apply spread_ok, G | constructor].
Qed.

Lemma own_get_allocated h l k :
  allOf_store h -> allocated h (default VUndef (own_get h (VRef l) k)).
Proof.
  intros G. unfold own_get.
  destruct (h !! l) as [[props|elems]|] eqn:El; try exact I.
  - pose proof (allOf_store_lookup _ _ _ G El) as F. cbn [object_ok] in F.
    destruct (assoc k props) as [x|] eqn:Ex; [|exact I].
    destruct (assoc_lookup _ _ _ Ex) as (i & k' & Ei).
    exact (proj1 (proj1 (Forall_lookup _ _) F i _ Ei)).
  - pose proof (allOf_store_lookup _ _ _ G El) as F. cbn [object_ok] in F.
    destruct (String.eqb k "length"); [exact I|].
    destruct (index_of_string k) as [i|]; [|exact I].
    destruct (elems !! i) as [x|] eqn:Ei; [|exact I].
    exact (proj1 (Forall_lookup _ _) F i _ Ei).
Qed.

Lemma allOf_store_discipline : store_discipline "allOf" allOf_store allocated.
Proof.
  split; [exact allocated_prim|].
  split; [intros h h' v K; apply allocated_keeps, K|].
  split; [intros h l k G; apply own_get_allocated, G|].
  intros l1 k x h h' G Hin Ox Hx Es.
  assert (K : keeps_shapes h h') by (eapply setM_keeps; eassumption).
  unfold setM in Es.
  destruct (h !! l1) as [[props|elems]|] eqn:El; [| |discriminate].
  - injection Es as <-.
    apply allOf_store_insert; [exact G | apply keeps_shapes_arrays, K|].
    cbn [object_ok]. apply assoc_set_Forall.
    + exact (allOf_store_lookup _ _ _ G El).
    + split; [exact Ox|]. cbn [fst snd]. intros ->. left. apply Hx. reflexivity.
  - destruct (index_of_string k) as [i|]; injection Es as <-; [|exact G].
    apply allOf_store_insert; [exact G | apply keeps_shapes_arrays, K|].
    cbn [object_ok].
    pose proof (allOf_store_lookup _ _ _ G El) as F. cbn [object_ok] in F.
    apply Forall_lookup. intros j y Ej.
    destruct (decide (j = i)) as [->|N].
    + apply list_lookup_insert_Some in Ej as [(_ & <- & _)|[N _]];
        [exact Ox | contradiction].
    + rewrite list_lookup_insert_ne in Ej by congruence.
      exact (proj1 (Forall_lookup _ _) F j y Ej).
Qed.

(** ** The merge in such a store *)

Lemma allOf_merge_good merged sub h r h' :
  allOf_store h -> allOf_merge merged sub h = Ret r h' ->
  allOf_store h'
  /\ exists p m, r = VRef (S (List.length h)) /\ h' = h ++ [OObj p; OObj m].
Proof.
  unfold allOf_merge. intros G E.
  apply bind_Ret_inv in E as (mp & h0 & Eg & E).
  apply getM_Ret_inv in Eg as [-> _].
  apply bind_Ret_inv in E as (sp & h0 & Eg & E).
  apply getM_Ret_inv in Eg as [-> _].
  apply bind_Ret_inv in E as (p & h1 & Ep & E).
  unfold newM in Ep, E. injection Ep as <- <-. injection E as <- <-.
  assert (G1 : allOf_store (h ++ [OObj (spread_into
                 (spread_into [] (spread_or_empty h mp))
                 (spread_or_empty h sp))])).
  { apply allOf_store_app; [exact G|]. cbn [object_ok].
    apply spread_into_Forall; [|apply spread_or_empty_ok, G].
    apply spread_into_Forall; [constructor | apply spread_or_empty_ok, G]. }
  split.
  - apply allOf_store_app; [exact G1|]. cbn [object_ok].
    apply assoc_set_Forall.
    + apply spread_into_Forall; [|apply spread_ok, G1].
      apply spread_into_Forall; [constructor | apply spread_ok, G1].
    + split; [|discriminate]. cbn [snd allocated].
      rewrite length_app. cbn [List.length]. lia.
  - eexists _, _. split.
    + rewrite length_app. cbn [List.length]. f_equal. lia.
    + rewrite <- app_assoc. reflexivity.
Qed.

Lemma reduce_allOf_merge_good : forall members la h p0 r h',
  allOf_store h -> h !! la = Some (OObj p0) ->
  reduce allOf_merge members (VRef la) h = Ret r h' ->
  allOf_store h'
  /\ exists lm props ext,
       r = VRef lm /\ h' = h ++ ext /\ h' !! lm = Some (OObj props)
       /\ (lm = la \/ List.length h <= lm).
Proof.
  induction members as [|x members IH]; intros la h p0 r h' G El E;
    cbn [reduce] in E.
  - injection E as <- <-. split; [exact G|].
    exists la, p0, []. rewrite app_nil_r.
    repeat split; try assumption. left; reflexivity.
  - apply bind_Ret_inv in E as (acc' & h1 & Em & E).
    destruct (allOf_merge_good _ _ _ _ _ G Em) as (G1 & p & m & -> & ->).
    assert (El1 : (h ++ [OObj p; OObj m]) !! S (List.length h) = Some (OObj m)).
    { replace (S (List.length h)) with (List.length (h ++ [OObj p]))
        by (rewrite length_app; cbn [List.length]; lia).
      change (h ++ [OObj p; OObj m]) with (h ++ [OObj p] ++ [OObj m]).
      rewrite app_assoc. apply list_lookup_middle. reflexivity. }
    destruct (IH _ _ _ _ _ G1 El1 E)
      as (G' & lm & props & ext & -> & -> & Elm & Hlm).
    split; [exact G'|].
    exists lm, props, ([OObj p; OObj m] ++ ext).
    split; [reflexivity|]. split; [rewrite app_assoc; reflexivity|].
    split; [exact Elm|]. right.
    destruct Hlm as [->|Hlm]; [lia|].
    rewrite length_app in Hlm. lia.
Qed.

Lemma lookup_prefix_app (h ext : heap) l :
  l < List.length h -> (h ++ ext) !! l = h !! l.
Proof. intros Hl. apply lookup_app_l. exact Hl. Qed.

(** The merge of an [allOf] array: a new object without [allOf], in a
    store that extends the one before. *)
Lemma merge_allOf_good members h r h' :
  allOf_store h -> merge_allOf members h = Ret r h' ->
  allOf_store h' /\ keeps_shapes h h'
  /\ (forall l, l < List.length h -> h' !! l = h !! l)
  /\ exists lm, r = VRef lm /\ List.length h <= lm < List.length h'
                /\ lacks "allOf" h' lm.
Proof.
  intros G E. rewrite merge_allOf_start in E.
  apply bind_Ret_inv in E as (m & hm & Er & E).
  apply bind_Ret_inv in E as ([] & hd & Ed & E). injection E as <- <-.
  assert (G0 : allOf_store (h ++ [OObj []]))
    by (apply allOf_store_app; [exact G | constructor]).
  assert (E0 : (h ++ [OObj []]) !! List.length h = Some (OObj []))
    by (apply list_lookup_middle; reflexivity).
  destruct (reduce_allOf_merge_good _ _ _ _ _ _ G0 E0 Er)
    as (Gm & lm & props & ext & -> & -> & Elm & Hlm).
  assert (Hge : List.length h <= lm).
  { destruct Hlm as [->|Hlm]; [lia|]. rewrite length_app in Hlm. lia. }
  unfold delM in Ed. rewrite Elm in Ed. injection Ed as <-.
  assert (Hlt : lm < List.length ((h ++ [OObj []]) ++ ext))
    by (eapply lookup_lt_Some; exact Elm).
  split; [|split; [|split]].
  - apply allOf_store_insert; [exact Gm| |].
    + split; [rewrite length_insert; lia|].
      intros l elems El. destruct (decide (l = lm)) as [->|N]; [congruence|].
      exists elems. rewrite list_lookup_insert_ne by congruence. exact El.
    + cbn [object_ok]. apply assoc_del_Forall.
      exact (allOf_store_lookup _ _ _ Gm Elm).
  - intros l o El. exists o. split; [|destruct o; reflexivity].
    pose proof (lookup_lt_Some _ _ _ El) as Hl.
    rewrite list_lookup_insert_ne by lia.
    rewrite <- app_assoc, lookup_app_l by exact Hl. exact El.
  - intros l Hl. rewrite list_lookup_insert_ne by lia.
    rewrite <- app_assoc. apply lookup_app_l. exact Hl.
  - exists lm. split; [reflexivity|]. split; [rewrite length_insert; lia|].
    unfold lacks, own_get. rewrite list_lookup_insert_eq by exact Hlt.
    rewrite assoc_assoc_del, String.eqb_refl. reflexivity.
Qed.

Lemma assoc_Some_In {A} k (kvs : list (string * A)) x :
  assoc k kvs = Some x -> In (k, x) kvs.
Proof.
  intros E. destruct (assoc_In k kvs (assoc_Some_key _ _ _ E)) as (v & Ev & Hin).
  congruence.
Qed.

Lemma walk_inv_extend kw h h' dn pending slots :
  walk_inv kw allocated h dn pending slots ->
  keeps_shapes h h' ->
  (forall l, l < List.length h -> h' !! l = h !! l) ->
  walk_inv kw allocated h' dn pending slots.
Proof.
  intros (R & P & S & B) K Pre.
  assert (Hget : forall l k, allocated h (VRef l) ->
            own_get h' (VRef l) k = own_get h (VRef l) k).
  { intros l k Hl. unfold own_get. rewrite (Pre l Hl). reflexivity. }
  split; [|split; [|split]].
  - intros l Hl. pose proof (B l (or_introl Hl)) as Al. split.
    + unfold lacks. rewrite Hget by exact Al. apply R, Hl.
    + intros k x. rewrite Hget by exact Al. apply R, Hl.
  - intros l Hl. unfold lacks.
    rewrite Hget by (apply B; right; left; exact Hl). apply P, Hl.
  - intros l k x Hs. rewrite Hget by (apply B; right; right; exists k; exact Hs).
    apply S, Hs.
  - intros l Hl. eapply allocated_keeps; [exact K | apply B, Hl].
Qed.

(** [processAllOf] leaves what it returns without [allOf]. *)
Lemma processAllOf_resolves : forall fuel,
  resolves "allOf" allOf_store allocated (processAllOf fuel).
Proof.
  induction fuel as [|fuel IH]; intros v h r h' G Ov E; [discriminate|].
  rewrite processAllOf_S in E.
  destruct (negb (truthy v) || negb (is_object v)) eqn:C.
  { injection E as <- <-. split; [apply keeps_shapes_refl|].
    split; [exact G|]. split; [exact Ov|]. split; [reflexivity|].
    intros dn pending slots W. exists dn. split; [auto|]. split; [exact W|].
    apply in_set_prim. destruct v; try reflexivity; discriminate. }
  apply orb_false_elim in C as [_ C]. apply negb_false_iff in C.
  destruct v as [| | | | |l]; try discriminate. clear C.
  apply bind_Ret_inv in E as (a & h0 & Eg & E).
  apply getM_Ret_inv in Eg as [-> ->].
  apply bind_Ret_inv in E as (s1 & h1 & Es & E).
  apply bind_Ret_inv in E as ([] & h2 & El & E). injection E as <- <-.
  assert (H1 : allOf_store h1 /\ keeps_shapes h h1
               /\ (forall l0, l0 < List.length h -> h1 !! l0 = h !! l0)
               /\ exists l1, s1 = VRef l1 /\ l1 < List.length h1
                             /\ lacks "allOf" h1 l1).
  { destruct (array_elems h (default VUndef (own_get h (VRef l) "allOf")))
      as [members|] eqn:Ea.
    - destruct (merge_allOf_good _ _ _ _ G Es) as (G1 & K1 & Pre & lm & -> & Hlm & N).
      split; [exact G1|]. split; [exact K1|]. split; [exact Pre|].
      exists lm. split; [reflexivity|]. split; [lia | exact N].
    - injection Es as <- <-. split; [exact G|].
      split; [apply keeps_shapes_refl|]. split; [reflexivity|].
      exists l. split; [reflexivity|]. split; [exact Ov|].
      unfold lacks. unfold own_get in *.
      destruct (h !! l) as [[props|elems]|] eqn:Eo; try reflexivity.
      destruct (assoc "allOf" props) as [a|] eqn:Ep; [|reflexivity].
      pose proof (allOf_store_lookup _ _ _ G Eo) as F. cbn [object_ok] in F.
      rewrite Forall_forall in F.
      destruct (F _ (proj2 (list_elem_of_In _ _) (assoc_Some_In _ _ _ Ep)))
        as [_ Hk].
      destruct (Hk eq_refl) as [Hf|Harr]; [exact Hf|].
      cbn [default snd] in *. contradiction. }
  destruct H1 as (G1 & K1 & Pre & l1 & -> & Hl1 & N).
  destruct (loop_object "allOf" allOf_store allocated _ l1 h1 h2
              (fun _ => False) (fun _ => False) (fun _ _ => False)
              allOf_store_discipline IH G1 Hl1 (walk_inv_empty _ _ _) N El)
    as (K2 & G2 & _).
  split; [eapply keeps_shapes_trans; eassumption|].
  split; [exact G2|].
  split; [eapply allocated_keeps; [exact K2 | exact Hl1]|].
  split; [discriminate|].
  intros dn pending slots W.
  pose proof (walk_inv_extend _ _ _ _ _ _ W K1 Pre) as W1.
  destruct (loop_object "allOf" allOf_store allocated _ l1 h1 h2 dn pending slots
              allOf_store_discipline IH G1 Hl1 W1 N El)
    as (_ & _ & dn' & Sub & W' & Hd).
  exists dn'. split; [exact Sub|]. split; [exact W' | exact Hd].
Qed.

(** ** Documents that use [allOf] as the composition keyword *)

Lemma array_elems_keeps h h' v :
  keeps_arrays h h' -> array_elems h v <> None -> array_elems h' v <> None.
Proof.
  intros [_ A]. unfold array_elems. destruct v as [| | | | |l]; try tauto.
  destruct (h !! l) as [[props|elems]|] eqn:El; try tauto.
  destruct (A l elems El) as (e' & ->). discriminate.
Qed.

(** [JSON.parse] of such a document, in such a store, gives such a store. *)
Lemma alloc_good : forall j h v h',
  allOf_store h -> allOf_arrays j = true -> alloc j h = Ret v h' ->
  allOf_store h' /\ keeps_shapes h h' /\ allocated h' v
  /\ (jtruthy j = false -> truthy v = false)
  /\ ((exists xs, j = JArr xs) -> array_elems h' v <> None).
Proof.
  induction j as [| |b|n|s|xs IH|kvs IH] using json_ind_deep;
    intros h v h' G J E;
    try (injection E as <- <-;
         split; [exact G|]; split; [apply keeps_shapes_refl|];
         split; [exact I|]; split; [cbn; intros T; exact T|];
         intros [xs Hx]; discriminate Hx).
  - cbn [alloc] in E. apply bind_Ret_inv in E as (vs & h1 & Em & En).
    unfold newM in En. injection En as <- <-.
    assert (L : allOf_store h1 /\ keeps_shapes h h1 /\ Forall (allocated h1) vs).
    { cbn [allOf_arrays] in J. clear -IH G J Em. revert h vs h1 G J Em.
      induction xs as [|x xs IHxs]; intros h vs h1 G J Em.
      - injection Em as <- <-.
        split; [exact G|]. split; [apply keeps_shapes_refl | constructor].
      - cbn [mapM_store] in Em. cbn [forallb] in J.
        apply andb_true_iff in J as [Jx J].
        apply bind_Ret_inv in Em as (v & h0 & Ev & Em).
        apply bind_Ret_inv in Em as (vs' & h2 & Evs & Em).
        injection Em as <- <-.
        destruct (Forall_inv IH _ _ _ G Jx Ev) as (G0 & K0 & A0 & _).
        destruct (IHxs (Forall_inv_tail IH) _ _ _ G0 J Evs) as (G2 & K2 & A2).
        split; [exact G2|]. split; [eapply keeps_shapes_trans; eassumption|].
        constructor; [eapply allocated_keeps; eassumption | exact A2]. }
    destruct L as (G1 & K1 & A1).
    assert (Ka : keeps_arrays h1 (h1 ++ [OArr vs]))
      by apply keeps_shapes_arrays, keeps_shapes_app.
    split; [apply allOf_store_app; [exact G1 | exact A1]|].
    split; [eapply keeps_shapes_trans; [exact K1 | apply keeps_shapes_app]|].
    split; [cbn [allocated]; rewrite length_app; cbn [List.length]; lia|].
    split; [discriminate|]. intros _.
    cbn [array_elems]. rewrite list_lookup_middle by reflexivity. discriminate.
  - cbn [alloc] in E. apply bind_Ret_inv in E as (props & h1 & Em & En).
    unfold newM in En. injection En as <- <-.
    assert (L : allOf_store h1 /\ keeps_shapes h h1 /\ Forall (entry_ok h1) props).
    { cbn [allOf_arrays] in J. clear -IH G J Em. revert h props h1 G J Em.
      induction kvs as [|[k x] kvs IHkvs]; intros h props h1 G J Em.
      - injection Em as <- <-.
        split; [exact G|]. split; [apply keeps_shapes_refl | constructor].
      - cbn [mapM_store] in Em. cbn [forallb fst snd] in J.
        apply andb_true_iff in J as [Jx J].
        apply andb_true_iff in Jx as [Jx Jk].
        apply bind_Ret_inv in Em as (p & h0 & Ep & Em).
        apply bind_Ret_inv in Ep as (v & h0' & Ev & Ep). injection Ep as <- <-.
        apply bind_Ret_inv in Em as (ps & h2 & Eps & Em).
        injection Em as <- <-.
        destruct (Forall_inv IH _ _ _ G Jx Ev) as (G0 & K0 & A0 & T0 & Arr0).
        cbn [snd] in T0, Arr0.
        destruct (IHkvs (Forall_inv_tail IH) _ _ _ G0 J Eps) as (G2 & K2 & A2).
        split; [exact G2|]. split; [eapply keeps_shapes_trans; eassumption|].
        constructor; [|exact A2].
        split; [eapply allocated_keeps; eassumption|].
        cbn [fst snd]. intros ->. cbn [String.eqb Ascii.eqb Bool.eqb negb orb] in Jk.
        destruct (jtruthy x) eqn:Tx; cbn [negb orb] in Jk.
        + right. eapply array_elems_keeps;
            [apply keeps_shapes_arrays; exact K2|].
          apply Arr0. destruct x; try discriminate. eexists; reflexivity.
        + left. apply T0. reflexivity. }
    destruct L as (G1 & K1 & A1).
    split; [apply allOf_store_app; [exact G1 | exact A1]|].
    split; [eapply keeps_shapes_trans; [exact K1 | apply keeps_shapes_app]|].
    split; [cbn [allocated]; rewrite length_app; cbn [List.length]; lia|].
    split; [discriminate|]. intros [xs Hx]. discriminate Hx.
Qed.

(** ** No [allOf] is left *)

Ltac store_entries :=
  repeat first
    [ apply Forall_nil_2
    | apply Forall_cons_2
    | progress cbn [object_ok]
    | split; [cbn; first [exact I | lia]
             | cbn [fst snd]; intros Hk;
               first [discriminate Hk | right; cbn; discriminate
                     | left; reflexivity]]
    | cbn; lia
    | exact I ].

(** In a store that uses [allOf] as the composition keyword (an [allOf]
    property is an array unless it is falsy, and no property dangles),
    what [processAllOf] returns holds no [allOf]: the check of the test
    suite, run on the returned value in the store the call leaves, never
    answers [true]. *)
Theorem processAllOf_result_flat
  (fuel : nat) (v r : value) (h h' : heap)
  (Hstore : allOf_store h) (Hv : allocated h v)
  (Hrun : processAllOf fuel v h = Ret r h') :
  allOf_store h' /\ forall n, hasAllOf n h' r <> Some true.
Proof.
  destruct (processAllOf_resolves fuel _ _ _ _ Hstore Hv Hrun)
    as (_ & G & _ & _ & Inv).
  split; [exact G|]. intros n.
  destruct (Inv _ _ _ (walk_inv_empty _ _ h)) as (dn & _ & (R & _) & Hr).
  eapply hasAllOf_resolved; eassumption.
Qed.

Lemma processAllOf_result_flat_witness :
  exists r h',
    processAllOf 8 (VRef 5) heap_sibling_keys = Ret r h'
    /\ hasAllOf 10 h' r <> Some true.
Proof.
  assert (E : exists r h', processAllOf 8 (VRef 5) heap_sibling_keys = Ret r h')
    by (eexists _, _; vm_compute; reflexivity).
  destruct E as (r & h' & E). exists r, h'. split; [exact E|].
  refine (proj2 (processAllOf_result_flat 8 (VRef 5) r heap_sibling_keys h'
                   _ _ E) 10).
  - unfold allOf_store.
    let h := eval vm_compute in heap_sibling_keys in
    change heap_sibling_keys with h.
    store_entries.
  - cbn. lia.
Defined.

Lemma json_clone_alloc fuel h j v d h' :
  rep h j v -> is_json j = true -> json_clone fuel v h = Ret d h' ->
  alloc j h = Ret d h'.
Proof.
  intros R J E. unfold json_clone in E.
  destruct (reify fuel h v) as [j'|] eqn:Er; [|discriminate].
  rewrite (reify_rep_inv h _ _ _ _ R Er), (json_norm_id _ J) in E.
  destruct j; try discriminate; exact E.
Qed.

Lemma rep_root_truthy h j v k :
  rep h j v ->
  truthy (default VUndef (own_get h v k)) = jtruthy (default JUndef (jget j k)).
Proof.
  intros R. pose proof (rep_own_get h j v k R) as G.
  destruct (jget j k) as [x|].
  - destruct G as (y & -> & Rxy). apply (rep_truthy _ _ _ Rxy).
  - rewrite G. reflexivity.
Qed.

Lemma array_elems_truthy h a members :
  array_elems h a = Some members -> truthy a = true.
Proof. destruct a; try discriminate. reflexivity. Qed.

(** A node without an [allOf] array is processed in place. *)
Lemma processAllOf_same_node fuel v h r h' :
  truthy (default VUndef (own_get h v "allOf")) = false ->
  processAllOf fuel v h = Ret r h' -> r = v.
Proof.
  intros N E. destruct fuel as [|fuel]; [discriminate|].
  rewrite processAllOf_S in E.
  destruct (negb (truthy v) || negb (is_object v));
    [injection E as <- _; reflexivity|].
  apply bind_Ret_inv in E as (a & h0 & Eg & E).
  apply getM_Ret_inv in Eg as [-> ->].
  apply bind_Ret_inv in E as (s1 & h1 & Es & E).
  apply bind_Ret_inv in E as ([] & h2 & El & E). injection E as <- _.
  destruct (array_elems h (default VUndef (own_get h v "allOf")))
    as [members|] eqn:Ea.
  - apply array_elems_truthy in Ea. congruence.
  - injection Es as <- _. reflexivity.
Qed.

(** The flattening test, for every document: take a JSON document in which
    an [allOf] property is an array unless it is falsy, and whose root has
    no [allOf].  When [flattenAllOf] returns and the test's [hasAllOf]
    check of the returned document finishes, the check answers [false]. *)
Theorem flattened_document_check
  (fuel : nat) (j : json) (allOfExists : bool) (h : heap)
  (Hjson : is_json j = true)
  (Hkeyword : allOf_arrays j = true)
  (Hroot : jtruthy (default JUndef (jget j "allOf")) = false)
  (Hrun : allOf_exists_after_flatten fuel j = Ret (Some allOfExists) h) :
  allOfExists = false.
Proof.
  unfold allOf_exists_after_flatten in Hrun.
  apply bind_Ret_inv in Hrun as (doc & h1 & Ea & E).
  apply bind_Ret_inv in E as (d & hf & Ef & E).
  destruct (alloc_rep j []) as (doc' & h1' & Ea' & Rdoc).
  cbn [app] in Ea', Rdoc. rewrite Ea in Ea'. injection Ea' as <- <-.
  assert (G0 : allOf_store []) by constructor.
  destruct (alloc_good _ _ _ _ G0 Hkeyword Ea) as (G1 & _).
  unfold flattenAllOf in Ef.
  apply bind_Ret_inv in Ef as (d0 & h2 & Ec & Ef).
  apply bind_Ret_inv in Ef as (r & h3 & Ep & Ef). injection Ef as <- <-.
  pose proof (json_clone_Ret_rep _ _ _ _ _ _ Rdoc Hjson Ec) as Rd.
  pose proof (json_clone_alloc _ _ _ _ _ _ Rdoc Hjson Ec) as Ec'.
  destruct (alloc_good _ _ _ _ G1 Hkeyword Ec') as (G2 & _ & A2 & _).
  assert (N : truthy (default VUndef (own_get h2 d0 "allOf")) = false).
  { rewrite (rep_root_truthy _ _ _ _ Rd). exact Hroot. }
  pose proof (processAllOf_same_node _ _ _ _ _ N Ep) as ->.
  destruct (processAllOf_resolves fuel _ _ _ _ G2 A2 Ep)
    as (_ & _ & _ & _ & Inv).
  destruct (Inv _ _ _ (walk_inv_empty _ _ h2)) as (dn & _ & (R & _) & Hr).
  pose proof (hasAllOf_resolved _ _ R fuel _ Hr) as Hn.
  injection E as E _. rewrite E in Hn.
  destruct allOfExists; [exfalso; apply Hn; reflexivity | reflexivity].
Qed.

Lemma flattened_document_check_witness :
  exists h, allOf_exists_after_flatten 20 doc_two_members = Ret (Some false) h.
Proof.
  destruct (allOf_exists_after_flatten 20 doc_two_members) as [[b|] h| | |] eqn:E;
    try (vm_compute in E; discriminate).
  exists h. do 2 f_equal.
  exact (flattened_document_check 20 doc_two_members b h eq_refl eq_refl eq_refl E).
Defined.

(* ================================================================== *)
(** * Walks along a trail *)

(** ** Loops in pieces *)

Lemma for_in_app f o : forall ks1 ks2 h h1,
  for_in f o ks1 h = Ret tt h1 ->
  for_in f o (ks1 ++ ks2) h = for_in f o ks2 h1.
Proof.
  induction ks1 as [|k ks1 IH]; intros ks2 h h1 E; cbn [for_in app] in *.
  - injection E as <-. reflexivity.
  - apply bind_Ret_inv in E as (v & h2 & Eg & E).
    apply bind_Ret_inv in E as (v' & h3 & Ef & E).
    apply bind_Ret_inv in E as ([] & h4 & Es & E).
    rewrite (bind_ret _ _ _ _ _ Eg), (bind_ret _ _ _ _ _ Ef),
      (bind_ret _ _ _ _ _ Es).
    apply IH. exact E.
Qed.

Lemma setM_same_value l k h :
  In k (enum_keys h (VRef l)) ->
  setM (VRef l) k (default VUndef (own_get h (VRef l) k)) h = Ret tt h.
Proof.
  unfold enum_keys. intros Hin.
  destruct (h !! l) as [[props|elems]|] eqn:El; [| |destruct Hin].
  - destruct (assoc_In _ _ Hin) as (v & Ev & _).
    unfold setM, own_get. rewrite El, Ev. change (default VUndef (Some v)) with v.
    rewrite (assoc_set_same _ _ _ Ev), (list_insert_id _ _ _ El). reflexivity.
  - apply in_map_iff in Hin as (i & <- & Hi). apply in_seq in Hi.
    destruct (lookup_lt_is_Some_2 elems i) as [v Ev]; [lia|].
    unfold setM, own_get.
    rewrite El, string_of_nat_not_length, index_of_string_of_nat, Ev.
    change (default VUndef (Some v)) with v.
    rewrite (list_insert_id _ _ _ Ev), (list_insert_id _ _ _ El). reflexivity.
Qed.

Lemma getM_object l k h :
  getM (VRef l) k h = Ret (default VUndef (own_get h (VRef l) k)) h.
Proof. reflexivity. Qed.

Lemma last_cons_cons {A} (x y : A) ys d : List.last (x :: y :: ys) d = List.last (y :: ys) d.
Proof. reflexivity. Qed.

Section Trail.
Variable f : nat -> value -> M value.
Variable passes : heap -> value -> Prop.
Variable inert : nat -> heap -> value -> Prop.
Hypothesis f_passes : forall n v h,
  passes h v -> f (S n) v h = (let* _ := for_in_keys (f n) v in ret v) h.
Hypothesis f_inert : forall n m v h,
  m < n -> inert m h v -> f n v h = Ret v h.

Lemma for_in_inert n m l h : forall ks,
  m < n ->
  (forall k, In k ks ->
     In k (enum_keys h (VRef l))
     /\ inert m h (default VUndef (own_get h (VRef l) k))) ->
  for_in (f n) (VRef l) ks h = Ret tt h.
Proof.
  intros ks Hlt Hk. apply for_in_unchanged. intros k Hin.
  destruct (Hk k Hin) as [He Hi].
  exists (default VUndef (own_get h (VRef l) k)).
  split; [apply getM_object|].
  split; [eapply f_inert; eassumption | apply setM_same_value, He].
Qed.

(** A result [r] at the end of the trail is stored in the last object of
    the trail, and nothing else changes, when the processing of [t]
    leaves the objects that existed before as they were and the inert
    values stay inert. *)
Lemma trail_returns m n h h' hf lq t r : forall trail v,
  leads_only passes (inert m) h v trail lq t ->
  m < n -> f n t h = Ret r h' ->
  (forall l o, h !! l = Some o -> h' !! l = Some o) ->
  setM (VRef lq) (List.last trail "") r h' = Ret tt hf ->
  (forall x, inert m h x -> inert m hf x) ->
  f (n + List.length trail) v h = Ret v hf.
Proof.
  intros trail v L Hlt E Fr Es St.
  assert (Hget : forall l k x, own_get h (VRef l) k = Some x ->
            own_get h' (VRef l) k = Some x).
  { intros l k x Ex. unfold own_get in *.
    destruct (h !! l) as [o|] eqn:El; [|discriminate].
    rewrite (Fr _ _ El). exact Ex. }
  assert (Henum : forall l k, In k (enum_keys h (VRef l)) ->
            enum_keys h' (VRef l) = enum_keys h (VRef l)).
  { intros l k Hin. unfold enum_keys in *.
    destruct (h !! l) as [o|] eqn:El; [|destruct Hin].
    rewrite (Fr _ _ El). reflexivity. }
  assert (Hlast : In (List.last trail "") (enum_keys h (VRef lq))).
  { clear -L. revert v L.
    induction trail as [|key trail IH]; intros v L; [destruct L|].
    cbn [leads_only] in L.
    destruct L as (l & before & after & c & -> & _ & Ek & _ & _ & _ & _ & L).
    destruct trail as [|key' trail'].
    - destruct L as [-> _]. cbn [List.last]. rewrite Ek.
      apply in_or_app. right; left; reflexivity.
    - destruct L as [_ L]. rewrite last_cons_cons. eapply IH; exact L. }
  assert (Kf : keeps_shapes h' hf).
  { eapply setM_keeps; [|exact Es].
    rewrite (Henum _ _ Hlast). exact Hlast. }
  clear Hlast. revert v L. induction trail as [|key trail IH]; intros v L; [destruct L|].
  cbn [leads_only] in L.
  destruct L as (l & before & after & c & -> & P & Ek & Nb & Na & Ec & Hs & L).
  cbn [List.length]. rewrite Nat.add_succ_r, (f_passes _ _ _ P).
  unfold bind, for_in_keys. rewrite Ek.
  assert (B : for_in (f (n + List.length trail)) (VRef l) before h = Ret tt h).
  { apply (for_in_inert _ m); [lia|]. intros k Hin. split.
    - rewrite Ek. apply in_or_app. left; exact Hin.
    - apply Hs. apply in_or_app. left; exact Hin. }
  rewrite (for_in_app _ _ _ _ _ _ B). cbn [for_in].
  rewrite (bind_ret _ _ _ _ _ (getM_object l key h)), Ec.
  cbn [default from_option].
  assert (Hkey : In key (enum_keys h (VRef l)))
    by (rewrite Ek; apply in_or_app; right; left; reflexivity).
  assert (A : forall r',
            own_get hf (VRef l) key = Some r' ->
            (forall k, k <> key ->
               own_get hf (VRef l) k = own_get h (VRef l) k) ->
            enum_keys hf (VRef l) = enum_keys h (VRef l) ->
            for_in (f (n + List.length trail)) (VRef l) after hf = Ret tt hf).
  { intros r' _ Hother Hen. apply (for_in_inert _ m); [lia|].
    intros k Hin.
    assert (Nk : k <> key) by (intros ->; contradiction).
    rewrite Hen, (Hother k Nk). split.
    - rewrite Ek. apply in_or_app. right; right; exact Hin.
    - apply St, Hs. apply in_or_app. right; exact Hin. }
  assert (Hen' : enum_keys h' (VRef l) = enum_keys h (VRef l))
    by (eapply Henum; exact Hkey).
  assert (Henf : enum_keys hf (VRef l) = enum_keys h (VRef l)).
  { rewrite <- Hen'. apply enum_keys_same; [exact Kf|].
    unfold enum_keys in Hkey. destruct (h !! l) as [o|] eqn:El; [|destruct Hkey].
    rewrite (Fr _ _ El). discriminate. }
  destruct trail as [|key' trail'].
  - destruct L as [-> ->]. cbn [List.length List.last] in *.
    rewrite Nat.add_0_r in *.
    rewrite (bind_ret _ _ _ _ _ E), (bind_ret _ _ _ _ _ Es).
    rewrite A with (r' := r).
    + reflexivity.
    + eapply setM_same_slot; [|exact Es]. rewrite Hen'. exact Hkey.
    + intros k Nk.
      rewrite (setM_other_slot _ _ _ _ _ lq k Es (or_intror Nk)).
      unfold own_get. destruct (h !! lq) as [o|] eqn:El.
      * rewrite (Fr _ _ El). reflexivity.
      * unfold enum_keys in Hkey. rewrite El in Hkey. destruct Hkey.
    + exact Henf.
  - destruct L as [Nl L]. rewrite last_cons_cons in Es.
    specialize (IH Es c L). rewrite (bind_ret _ _ _ _ _ IH).
    assert (Hsame : forall k, own_get hf (VRef l) k = own_get h (VRef l) k).
    { intros k.
      rewrite (setM_other_slot _ _ _ _ _ l k Es (or_introl Nl)).
      unfold own_get. destruct (h !! l) as [o|] eqn:El.
      - rewrite (Fr _ _ El). reflexivity.
      - unfold enum_keys in Hkey. rewrite El in Hkey. destruct Hkey. }
    assert (Ew : setM (VRef l) key c hf = Ret tt hf).
    { replace c with (default VUndef (own_get hf (VRef l) key))
        by (rewrite Hsame, Ec; reflexivity).
      apply setM_same_value. rewrite Henf. exact Hkey. }
    rewrite (bind_ret _ _ _ _ _ Ew). rewrite A with (r' := c).
    + reflexivity.
    + rewrite Hsame. exact Ec.
    + intros k _. apply Hsame.
    + exact Henf.
Qed.
End Trail.

(** ** Pointers given by their segments *)

Lemma split_on_plain sep : forall w,
  contains_char sep w = false -> split_on sep w = [w].
Proof.
  induction w as [|c r IH]; cbn [contains_char split_on]; [reflexivity|].
  intros E. apply orb_false_elim in E as [Ec Er].
  rewrite Ec, (IH Er). reflexivity.
Qed.

Lemma split_on_append sep : forall w rest,
  contains_char sep w = false ->
  split_on sep (String.append w (String sep rest)) = w :: split_on sep rest.
Proof.
  induction w as [|c r IH]; intros rest E; cbn [String.append split_on].
  - rewrite Ascii.eqb_refl. reflexivity.
  - cbn [contains_char] in E. apply orb_false_elim in E as [Ec Er].
    rewrite Ec, (IH rest Er). reflexivity.
Qed.

(** Splitting the text of a pointer gives back its segments. *)
Lemma split_pointer_to segs :
  segments_ok segs -> split_on "/" (strip_fragment (pointer_to segs)) = segs.
Proof.
  intros [N F]. cbn [pointer_to strip_fragment].
  induction segs as [|w segs IH]; [contradiction|].
  apply Forall_cons in F as [Hw F].
  destruct segs as [|w' segs'].
  - cbn [join_with]. apply split_on_plain, Hw.
  - change (join_with "/" (w :: w' :: segs'))
      with (String.append w (String "/" (join_with "/" (w' :: segs')))).
    rewrite (split_on_append _ _ _ Hw). f_equal. apply IH; [discriminate | exact F].
Qed.

Lemma pointer_to_not_empty segs : pointer_to segs <> "".
Proof. discriminate. Qed.

(** A pointer whose segments are own properties with truthy values
    resolves to the node they lead to, whatever the prototypes hold. *)
Lemma follow_walk pointer h : forall segs v t,
  follow h v segs = Some t -> walk pointer segs v h = Ret t h.
Proof.
  induction segs as [|s segs IH]; intros v t E; cbn [follow walk] in *.
  - injection E as <-. reflexivity.
  - destruct (own_get h v s) as [x|] eqn:Ex; [|discriminate].
    destruct (truthy x) eqn:Tx; [|discriminate].
    rewrite (bind_ret _ _ _ _ _ (lookupM_own _ _ _ _ Ex)), Tx.
    apply IH, E.
Qed.

Lemma own_get_frame h h' v k x :
  (forall l o, h !! l = Some o -> h' !! l = Some o) ->
  own_get h v k = Some x -> own_get h' v k = Some x.
Proof.
  intros Fr. destruct v as [| | | | |l]; try (intros E; exact E).
  unfold own_get. destruct (h !! l) as [o|] eqn:El; [|discriminate].
  rewrite (Fr _ _ El). tauto.
Qed.

Lemma follow_frame h h' :
  (forall l o, h !! l = Some o -> h' !! l = Some o) ->
  forall segs v t, follow h v segs = Some t -> follow h' v segs = Some t.
Proof.
  intros Fr. induction segs as [|s segs IH]; intros v t E; cbn [follow] in *;
    [exact E|].
  destruct (own_get h v s) as [x|] eqn:Ex; [|discriminate].
  rewrite (own_get_frame _ _ _ _ _ Fr Ex).
  destruct (truthy x); [apply IH, E | discriminate].
Qed.

(** ** Reference-free subgraphs in a store that changes elsewhere *)

Lemma plain_within_agree h h' : forall n x,
  plain_within n h x ->
  (forall l o m, plain_within m h (VRef l) -> h !! l = Some o ->
                 h' !! l = Some o) ->
  plain_within n h' x.
Proof.
  induction n as [|n IH]; intros x Hp A; destruct x as [| | | | |l];
    try exact I; [destruct Hp|].
  pose proof Hp as Hp'. cbn [plain_within] in Hp |- *.
  destruct (h !! l) as [o|] eqn:El; [|contradiction].
  rewrite (A l o (S n) Hp' El).
  destruct o as [props|elems].
  - destruct Hp as [Hr Hp]. split; [exact Hr|].
    eapply Forall_impl; [exact Hp|]. intros kv Hkv. apply IH; assumption.
  - eapply Forall_impl; [exact Hp|]. intros y Hy. apply IH; assumption.
Qed.

Lemma plain_within_own_get n h l k x :
  plain_within (S n) h (VRef l) -> own_get h (VRef l) k = Some x ->
  plain_within n h x.
Proof.
  cbn [plain_within]. unfold own_get.
  destruct (h !! l) as [[props|elems]|]; [| |contradiction].
  - intros [_ F] E. apply assoc_Some_In in E.
    rewrite Forall_forall in F.
    exact (F _ (proj2 (list_elem_of_In _ _) E)).
  - intros F E. destruct (String.eqb k "length");
      [injection E as <-; apply plain_within_prim; reflexivity|].
    destruct (index_of_string k) as [i|]; [|discriminate].
    exact (proj1 (Forall_lookup _ _) F i x E).
Qed.

Lemma reference_not_plain n h a pointer :
  own_get h a "$ref" = Some (VStr pointer) -> pointer <> "" ->
  ~ plain_within n h a.
Proof.
  intros E Hne Hp. destruct a as [| | | | |l]; try discriminate.
  destruct n as [|n]; [exact Hp|].
  cbn [plain_within] in Hp. unfold own_get in E.
  destruct (h !! l) as [[props|elems]|]; [| |discriminate].
  - destruct Hp as [Hr _]. rewrite E in Hr.
    change (truthy (VStr pointer) = false) in Hr.
    rewrite (truthy_pointer _ Hne) in Hr. discriminate.
  - cbn in E. discriminate.
Qed.

(** ** Errors reach the caller *)

Lemma processSchema_passes api n v h :
  passes_ref h v ->
  processSchema (S n) api v h
  = (let* _ := for_in_keys (processSchema n api) v in ret v) h.
Proof.
  intros [O T]. destruct v as [| | | | |l]; try discriminate.
  rewrite processSchema_S. cbn [truthy negb].
  rewrite (bind_ret _ _ _ _ _ (getM_object l "$ref" h)), T.
  reflexivity.
Qed.

Lemma resolveRef_passes api n v h :
  passes_ref h v ->
  resolveRef (S n) v api h
  = (let* _ := for_in_keys (fun x => resolveRef n x api) v in ret v) h.
Proof.
  intros [O T]. destruct v as [| | | | |l]; try discriminate.
  rewrite resolveRef_S.
  assert (E : ref_of (VRef l) h = Ret (default VUndef (own_get h (VRef l) "$ref")) h)
    by reflexivity.
  rewrite (bind_ret _ _ _ _ _ E), T. reflexivity.
Qed.

(** A loop throws what the processing of a property throws, when the
    properties visited before it are left as they are. *)
Lemma for_in_keys_throws (f : nat -> value -> M value) n m l h
  before key after c e :
  (forall k j x h0, j < k -> plain_within j h0 x -> f k x h0 = Ret x h0) ->
  m < n ->
  enum_keys h (VRef l) = before ++ key :: after ->
  own_get h (VRef l) key = Some c ->
  (forall k, In k before ->
             plain_within m h (default VUndef (own_get h (VRef l) k))) ->
  f n c h = Throw e ->
  for_in_keys (f n) (VRef l) h = Throw e.
Proof.
  intros Hf Hlt Ek Ec Hb E. unfold for_in_keys. rewrite Ek.
  assert (B : for_in (f n) (VRef l) before h = Ret tt h).
  { apply (for_in_inert f plain_within Hf n m); [exact Hlt|].
    intros k Hin. split; [|apply Hb, Hin].
    rewrite Ek. apply in_or_app. left; exact Hin. }
  rewrite (for_in_app _ _ _ _ _ _ B). cbn [for_in].
  rewrite (bind_ret _ _ _ _ _ (getM_object l key h)), Ec.
  apply bind_throw. exact E.
Qed.

(** What [resolveRef] throws at the first reference of the walk, it throws
    at its start. *)
Lemma resolveRef_reaches api m n h t e : forall steps v,
  reaches_first m h api v steps t ->
  m < n -> resolveRef n t api h = Throw e ->
  resolveRef (n + List.length steps) v api h = Throw e.
Proof.
  induction steps as [|[key|] steps IH]; intros v L Hlt E;
    cbn [reaches_first] in L.
  - subst v. rewrite Nat.add_0_r. exact E.
  - destruct L as (before & after & c & P & Ek & Ec & Hb & L).
    cbn [List.length]. rewrite Nat.add_succ_r, (resolveRef_passes _ _ _ _ P).
    pose proof (proj1 P) as O. destruct v as [| | | | |l]; try discriminate.
    apply bind_throw.
    apply (for_in_keys_throws (fun k x => resolveRef k x api) _ m l h
             before key after c e); try assumption; [|lia|].
    + intros k j x h0 Hl Hp. apply (resolveRef_plain api k j); assumption.
    + apply IH; assumption.
  - destruct L as (segs & d & Er & Hs & Hf & L).
    cbn [List.length]. rewrite Nat.add_succ_r, resolveRef_S.
    rewrite (bind_ret _ _ _ _ _ (own_ref_ref_of _ _ _ Er)).
    rewrite (truthy_pointer _ (pointer_to_not_empty segs)).
    rewrite (split_pointer_to _ Hs).
    rewrite (bind_ret _ _ _ _ _ (follow_walk _ _ _ _ _ Hf)).
    apply IH; assumption.
Qed.

Lemma processSchema_reaches api m n h t e : forall steps v,
  reaches_first m h api v steps t ->
  m < n -> truthy (default VUndef (own_get h t "$ref")) = true ->
  resolveRef n t api h = Throw e ->
  processSchema (S n + List.length steps) api v h = Throw e.
Proof.
  induction steps as [|[key|] steps IH]; intros v L Hlt T E;
    cbn [reaches_first] in L.
  - subst v. rewrite Nat.add_0_r, processSchema_S.
    destruct t as [| | | |s|l]; try (vm_compute in T; discriminate).
    cbn [truthy negb].
    rewrite (bind_ret _ _ _ _ _ (getM_object l "$ref" h)), T.
    apply bind_throw. exact E.
  - destruct L as (before & after & c & P & Ek & Ec & Hb & L).
    cbn [List.length]. rewrite Nat.add_succ_r, (processSchema_passes _ _ _ _ P).
    pose proof (proj1 P) as O. destruct v as [| | | | |l]; try discriminate.
    apply bind_throw.
    apply (for_in_keys_throws (fun k x => processSchema k api x) _ m l h
             before key after c e); try assumption; [|lia|].
    + intros k j x h0 Hl Hp. apply (processSchema_plain api k j); assumption.
    + apply IH; assumption.
  - pose proof L as L'. destruct L as (segs & d & Er & Hs & Hf & L).
    cbn [List.length]. rewrite Nat.add_succ_r, processSchema_S.
    destruct v as [| | | |s|l]; try discriminate.
    cbn [truthy negb].
    rewrite (bind_ret _ _ _ _ _ (getM_object l "$ref" h)), Er.
    change (truthy (default VUndef (Some (VStr (pointer_to segs)))))
      with (truthy (VStr (pointer_to segs))).
    rewrite (truthy_pointer _ (pointer_to_not_empty segs)).
    apply bind_throw.
    change (S n + List.length steps) with (S (n + List.length steps)).
    rewrite <- Nat.add_succ_r.
    apply (resolveRef_reaches api m n h t e (Ref :: steps)); assumption.
Qed.



(** ** The clone and the caller's document *)

Lemma json_clone_ext fuel v h d h' :
  json_clone fuel v h = Ret d h' -> exists ext, h' = h ++ ext.
Proof.
  unfold json_clone. destruct (reify fuel h v) as [j|]; [|discriminate].
  intros E.
  assert (E' : alloc (json_norm j) h = Ret d h')
    by (destruct j; try discriminate; exact E).
  destruct (alloc_rep (json_norm j) h) as (d' & ext & Ea & _).
  rewrite Ea in E'. injection E' as _ <-. exists ext. reflexivity.
Qed.

Lemma json_clone_above fuel v h d h' :
  json_clone fuel v h = Ret d h' ->
  above (List.length h) d /\ closed_above (List.length h) h'.
Proof.
  intros E.
  destruct (writes_above_json_clone (List.length h) fuel v h d h'
              (le_n _) (closed_above_length h) E) as (_ & C & _ & A).
  split; assumption.
Qed.

Lemma select_above n h : closed_above n h ->
  forall p v, above n v -> Forall (above n) (select h v p).
Proof.
  intros C. induction p as [|k p IH]; intros v A; cbn [select].
  - constructor; [exact A | constructor].
  - destruct (own_get h v k) as [x|] eqn:Ex; [|constructor].
    apply IH. eapply above_own_get; eassumption.
Qed.

Lemma leads_only_last passes inert h lq t : forall trail v,
  leads_only passes inert h v trail lq t ->
  In (List.last trail "") (enum_keys h (VRef lq))
  /\ own_get h (VRef lq) (List.last trail "") = Some t.
Proof.
  induction trail as [|key trail IH]; intros v L; [destruct L|].
  cbn [leads_only] in L.
  destruct L as (l & before & after & c & -> & _ & Ek & _ & _ & Ec & _ & L).
  destruct trail as [|key' trail'].
  - destruct L as [-> ->]. cbn [List.last]. split; [|exact Ec].
    rewrite Ek. apply in_or_app. right; left; reflexivity.
  - destruct L as [_ L]. rewrite last_cons_cons. eapply IH; exact L.
Qed.

Lemma leads_only_above passes inert n h lq t : closed_above n h ->
  forall trail v, above n v ->
  leads_only passes inert h v trail lq t -> n <= lq.
Proof.
  intros C. induction trail as [|key trail IH]; intros v A L; [destruct L|].
  cbn [leads_only] in L.
  destruct L as (l & before & after & c & -> & _ & _ & _ & _ & Ec & _ & L).
  destruct trail as [|key' trail'].
  - destruct L as [-> _]. exact A.
  - destruct L as [_ L]. eapply IH; [|exact L].
    eapply above_own_get; eassumption.
Qed.

Lemma setM_lookup_ne l1 k x h h' l :
  setM (VRef l1) k x h = Ret tt h' -> l <> l1 -> h' !! l = h !! l.
Proof.
  unfold setM. intros E N.
  destruct (h !! l1) as [[props|elems]|]; [| |discriminate].
  - injection E as <-. apply list_lookup_insert_ne. congruence.
  - destruct (index_of_string k); injection E as <-; [|reflexivity].
    apply list_lookup_insert_ne. congruence.
Qed.

Lemma setM_enumerated l k x h :
  In k (enum_keys h (VRef l)) -> exists h', setM (VRef l) k x h = Ret tt h'.
Proof.
  unfold enum_keys, setM.
  destruct (h !! l) as [[props|elems]|]; [| |intros []].
  - intros _. eexists. reflexivity.
  - intros Hin. apply in_map_iff in Hin as (i & <- & _).
    rewrite index_of_string_of_nat. eexists. reflexivity.
Qed.

(** The path along the trail in the store after the walk. *)
Lemma select_trail passes inert h hf lq t r : forall trail v,
  leads_only passes inert h v trail lq t ->
  (forall l k x, l <> lq -> own_get h (VRef l) k = Some x ->
                 own_get hf (VRef l) k = Some x) ->
  own_get hf (VRef lq) (List.last trail "") = Some r ->
  select hf v trail = [r].
Proof.
  induction trail as [|key trail IH]; intros v L Ho Er; [destruct L|].
  cbn [leads_only] in L.
  destruct L as (l & before & after & c & -> & _ & _ & _ & _ & Ec & _ & L).
  cbn [select]. destruct trail as [|key' trail'].
  - destruct L as [-> ->]. cbn [List.last] in Er. rewrite Er. reflexivity.
  - destruct L as [Nl L]. rewrite (Ho _ _ _ Nl Ec).
    rewrite last_cons_cons in Er. apply IH; assumption.
Qed.

Lemma JSONPath_scope startAt d h s0 rest :
  JSONPath startAt d h = Ret (Some (s0 :: rest)) h ->
  select h d startAt = s0 :: rest.
Proof.
  unfold JSONPath. destruct (truthy d); intros E; [|discriminate].
  injection E as E. exact E.
Qed.

Lemma JSONPath_heap startAt d h : exists x, JSONPath startAt d h = Ret x h.
Proof. unfold JSONPath. destruct (truthy d); eexists; reflexivity. Qed.

(** ** Chains of references *)



(** ** The merge rule *)

Lemma assoc_del_keys {A} k k' (kvs : list (string * A)) :
  In k' (map fst (assoc_del k kvs)) -> In k' (map fst kvs).
Proof.
  induction kvs as [|[k1 v1] kvs IH]; cbn [assoc_del map fst]; [tauto|].
  destruct (String.eqb k k1); cbn [map fst In]; tauto.
Qed.

Lemma assoc_del_NoDup {A} k (kvs : list (string * A)) :
  NoDup (map fst kvs) -> NoDup (map fst (assoc_del k kvs)).
Proof.
  induction kvs as [|[k1 v1] kvs IH]; cbn [assoc_del map fst]; [tauto|].
  intros N. apply NoDup_cons in N as [N1 N].
  destruct (String.eqb k k1); [apply IH, N|].
  cbn [map fst]. apply NoDup_cons. split; [|apply IH, N].
  intros Hin. apply N1. apply list_elem_of_In.
  apply list_elem_of_In in Hin. eapply assoc_del_keys; exact Hin.
Qed.

Lemma assoc_NoDup_In {A} k (v : A) kvs :
  NoDup (map fst kvs) -> In (k, v) kvs -> assoc k kvs = Some v.
Proof.
  induction kvs as [|[k1 v1] kvs IH]; cbn [map fst assoc In]; [tauto|].
  intros N. apply NoDup_cons in N as [N1 N]. intros [E|Hin].
  - injection E as -> ->. rewrite String.eqb_refl. reflexivity.
  - destruct (String.eqb k k1) eqn:Ek; [|apply IH; assumption].
    apply String.eqb_eq in Ek as ->. exfalso. apply N1.
    apply list_elem_of_In. apply in_map_iff. exists (k1, v). split; [reflexivity|].
    exact Hin.
Qed.

Lemma latest_Some h k v : forall members,
  latest h members k = Some v ->
  exists m, In m members /\ own_get h m k = Some v.
Proof.
  induction members as [|x members IH] using rev_ind; [discriminate|].
  rewrite latest_snoc. intros E.
  destruct (own_get h x k) as [y|] eqn:Ex.
  - injection E as ->. exists x. split; [apply in_or_app; right; left; reflexivity|].
    exact Ex.
  - destruct (IH E) as (m & Hin & Em). exists m.
    split; [apply in_or_app; left; exact Hin | exact Em].
Qed.

Lemma latest_property_Some h k v : forall members,
  latest_property h members k = Some v ->
  exists m, In m members /\ own_get h (props_of h m) k = Some v.
Proof.
  induction members as [|x members IH] using rev_ind; [discriminate|].
  rewrite latest_property_snoc. intros E.
  destruct (own_get h (props_of h x) k) as [y|] eqn:Ex.
  - injection E as ->. exists x. split; [apply in_or_app; right; left; reflexivity|].
    exact Ex.
  - destruct (IH E) as (m & Hin & Em). exists m.
    split; [apply in_or_app; left; exact Hin | exact Em].
Qed.

(** The fold of [processAllOf], with the [delete] that follows it: for
    members that are objects it returns a new object in which every key
    other than [properties] has the value of the last member, in array
    order, that has the key, [allOf] is absent, and [properties] is a new
    object that has, for every name, the entry of the last member whose
    [properties] has that name; the objects that existed before are as
    they were. *)
Lemma merge_allOf_rule (h : heap) (members : list value)
  (Hmembers : Forall (schema_member h) members) :
  exists lm hm mprops,
    merge_allOf members h = Ret (VRef lm) hm
    /\ List.length h <= lm
    /\ (forall l o, h !! l = Some o -> hm !! l = Some o)
    /\ hm !! lm = Some (OObj mprops) /\ NoDup (map fst mprops)
    /\ (forall k, k <> "properties" -> k <> "allOf" ->
                  assoc k mprops = latest h members k)
    /\ assoc "allOf" mprops = None
    /\ absent_or_object hm (default VUndef (assoc "properties" mprops))
    /\ above (List.length h) (default VUndef (assoc "properties" mprops))
    /\ (forall k, own_get hm (default VUndef (assoc "properties" mprops)) k
                  = latest_property h members k).
Proof.
  assert (I0 : merged_inv h (h ++ [OObj []]) (VRef (List.length h)) []).
  { exists (List.length h), []. repeat split.
    - apply list_lookup_middle. reflexivity.
    - constructor.
    - left. reflexivity.
    - discriminate. }
  destruct (reduce_allOf_merge_inv h members [] _ _ I0 Hmembers)
    as (m & ext & Er & (la & aprops & -> & Ela & Na & Hk & Hao & Hne & Hp)).
  cbn [app] in Hk, Hp.
  assert (Hle : List.length h <= List.length (h ++ [OObj []]))
    by (rewrite length_app; lia).
  destruct (reduce_allOf_merge_fresh (List.length h) _ _ _ _ _
              (ex_intro _ (List.length h) (conj eq_refl (le_n _))) Hle Er)
    as (_ & la' & [= <-] & Hla).
  set (hc := h ++ ext) in *.
  set (P := default VUndef (assoc "properties" aprops)) in *.
  assert (Lla : la < List.length hc) by (eapply lookup_lt_Some; exact Ela).
  assert (EP : default VUndef (assoc "properties" (assoc_del "allOf" aprops)) = P).
  { rewrite assoc_assoc_del. reflexivity. }
  assert (AP : above (List.length h) P).
  { destruct members as [|x members].
    - cbn [reduce] in Er. injection Er as E1 E2.
      assert (E3 : (h ++ [OObj []]) !! la = Some (OObj aprops))
        by (rewrite E2; exact Ela).
      rewrite <- E1, list_lookup_middle in E3 by reflexivity.
      injection E3 as <-. exact I.
    - assert (N : x :: members <> []) by discriminate.
      destruct (reduce_allOf_merge_properties _ _ _ _ _ N Er)
        as (lm' & props & lp & [= <-] & El & Ep & Hl & _).
      rewrite Ela in El. injection El as <-. unfold P. rewrite Ep.
      change (List.length h <= lp).
      rewrite length_app in Hl. cbn [List.length] in Hl. lia. }
  exists la, (<[la := OObj (assoc_del "allOf" aprops)]> hc),
    (assoc_del "allOf" aprops).
  split.
  { unfold merge_allOf, newM at 1. unfold bind at 1.
    rewrite (bind_ret _ _ _ _ _ Er). unfold bind, delM. rewrite Ela. reflexivity. }
  split; [exact Hla|].
  split.
  { intros l o El. pose proof (lookup_lt_Some _ _ _ El) as Hl.
    rewrite list_lookup_insert_ne by lia.
    unfold hc. apply lookup_app_l_Some. exact El. }
  split; [apply list_lookup_insert_eq; exact Lla|].
  split; [apply assoc_del_NoDup, Na|].
  split.
  { intros k N1 N2. rewrite assoc_assoc_del.
    destruct (String.eqb k "allOf") eqn:E;
      [apply String.eqb_eq in E; contradiction | apply Hk, N1]. }
  split; [rewrite assoc_assoc_del, String.eqb_refl; reflexivity|].
  rewrite EP.
  assert (HPl : forall lp, P = VRef lp ->
            (<[la := OObj (assoc_del "allOf" aprops)]> hc) !! lp = hc !! lp).
  { intros lp E. apply list_lookup_insert_ne. intros ->. apply Hne. exact E. }
  split.
  { destruct Hao as [E|(lp & pp & E & Elp & Np)]; [left; exact E|].
    right. exists lp, pp. split; [exact E|]. split; [|exact Np].
    rewrite (HPl lp E). exact Elp. }
  split; [exact AP|].
  intros k. rewrite <- Hp.
  destruct Hao as [E|(lp & pp & E & Elp & _)]; rewrite E; [reflexivity|].
  unfold own_get. rewrite (HPl lp E). reflexivity.
Qed.

(** ** Keyword-free subgraphs in a store that changes elsewhere *)

Lemma keyword_free_own_get kw n h v k x :
  keyword_free_within kw n h v -> own_get h v k = Some x ->
  keyword_free_within kw n h x.
Proof.
  intros Hp E. destruct v as [| | | |s|l]; try discriminate.
  - apply keyword_free_within_prim. unfold own_get in E.
    destruct (String.eqb k "length"); [injection E as <-; reflexivity|].
    destruct (index_of_string k); [|discriminate].
    destruct (char_at s n0); [injection E as <-; reflexivity | discriminate].
  - destruct n as [|n]; [destruct Hp|].
    apply (keyword_free_within_mono kw h n (S n)); [lia|].
    pose proof (keyword_free_children kw n h l Hp) as F.
    unfold own_get in E.
    destruct (h !! l) as [[props|elems]|]; [| |discriminate].
    + apply assoc_Some_In in E. rewrite Forall_forall in F.
      exact (F _ (proj2 (list_elem_of_In _ _) E)).
    + destruct (String.eqb k "length");
        [injection E as <-; apply keyword_free_within_prim; reflexivity|].
      destruct (index_of_string k) as [i|]; [|discriminate].
      exact (proj1 (Forall_lookup _ _) F i x E).
Qed.

Lemma keyword_free_stored kw n h l :
  keyword_free_within kw n h (VRef l) -> h !! l <> None.
Proof.
  destruct n as [|n]; [intros []|]. cbn [keyword_free_within].
  destruct (h !! l); [discriminate | intros []].
Qed.

Lemma keyword_free_agree kw h h' : forall n x,
  keyword_free_within kw n h x ->
  (forall l o m, keyword_free_within kw m h (VRef l) -> h !! l = Some o ->
                 h' !! l = Some o) ->
  keyword_free_within kw n h' x.
Proof.
  induction n as [|n IH]; intros x Hp A; destruct x as [| | | | |l];
    try exact I; [destruct Hp|].
  pose proof Hp as Hp'. cbn [keyword_free_within] in Hp |- *.
  destruct (h !! l) as [o|] eqn:El; [|contradiction].
  rewrite (A l o (S n) Hp' El).
  destruct o as [props|elems].
  - destruct Hp as [Hr Hp]. split.
    + destruct (assoc kw props) as [a|] eqn:Ea; [|reflexivity].
      change (default VUndef (Some a)) with a in *.
      apply assoc_Some_In in Ea. rewrite Forall_forall in Hp.
      pose proof (Hp _ (proj2 (list_elem_of_In _ _) Ea)) as Ha. cbn [snd] in Ha.
      destruct a as [| | | | |la]; try reflexivity.
      unfold array_elems in *.
      destruct (h !! la) as [oa|] eqn:Ela;
        [|exfalso; exact (keyword_free_stored _ _ _ _ Ha Ela)].
      rewrite (A la oa n Ha Ela). exact Hr.
    + eapply Forall_impl; [exact Hp|]. intros kv Hkv. apply IH; assumption.
  - eapply Forall_impl; [exact Hp|]. intros y Hy. apply IH; assumption.
Qed.

Lemma allOf_node_not_free n h v members :
  array_elems h (default VUndef (own_get h v "allOf")) = Some members ->
  ~ keyword_free_within "allOf" n h v.
Proof.
  intros E Hp. destruct v as [| | | |s|l]; try discriminate.
  destruct n as [|n]; [exact Hp|].
  cbn [keyword_free_within] in Hp. unfold own_get in E.
  destruct (h !! l) as [[props|elems]|]; [| |discriminate].
  - destruct Hp as [Hr _]. congruence.
  - discriminate.
Qed.

(** ** A node with an [allOf] array, in the walk *)

Lemma processAllOf_passes n v h :
  passes_allOf h v ->
  processAllOf (S n) v h
  = (let* _ := for_in_keys (processAllOf n) v in ret v) h.
Proof.
  intros [O T]. destruct v as [| | | | |l]; try discriminate.
  rewrite processAllOf_S. cbn [truthy is_object negb orb].
  rewrite (bind_ret _ _ _ _ _ (getM_object l "allOf" h)).
  unfold bind at 1. rewrite T. reflexivity.
Qed.

(** The merge of members without [allOf] arrays below them gives a node
    without [allOf] arrays below it. *)
Lemma merged_keyword_free n h hm lm mprops members :
  (forall l o, h !! l = Some o -> hm !! l = Some o) ->
  Forall (keyword_free_within "allOf" n h) members ->
  hm !! lm = Some (OObj mprops) -> NoDup (map fst mprops) ->
  (forall k, k <> "properties" -> k <> "allOf" ->
             assoc k mprops = latest h members k) ->
  assoc "allOf" mprops = None ->
  absent_or_object hm (default VUndef (assoc "properties" mprops)) ->
  (forall k, own_get hm (default VUndef (assoc "properties" mprops)) k
             = latest_property h members k) ->
  keyword_free_within "allOf" (S (S n)) hm (VRef lm).
Proof.
  intros Fr Hfree Elm Nm Hk Hall Hao Hp.
  assert (Lift : forall m x, keyword_free_within "allOf" m h x ->
                   keyword_free_within "allOf" m hm x).
  { intros m x Hx. apply (keyword_free_agree _ h); [exact Hx|].
    intros l o _ _ El. apply Fr, El. }
  assert (Hmem : forall m k v, In m members -> own_get h m k = Some v ->
                   keyword_free_within "allOf" n h v).
  { intros m k v Hin E. rewrite Forall_forall in Hfree.
    eapply keyword_free_own_get; [|exact E].
    apply Hfree, list_elem_of_In, Hin. }
  assert (Hpm : forall m, In m members ->
                  keyword_free_within "allOf" n h (props_of h m)).
  { intros m Hin. unfold props_of.
    destruct (own_get h m "properties") as [p|] eqn:E;
      [|apply keyword_free_within_prim; reflexivity].
    eapply Hmem; eassumption. }
  cbn [keyword_free_within]. rewrite Elm, Hall. split; [reflexivity|].
  apply Forall_forall. intros [k v] Hin. apply list_elem_of_In in Hin.
  pose proof (assoc_NoDup_In _ _ _ Nm Hin) as Ev. cbn [snd].
  destruct (string_dec k "allOf") as [->|Nall]; [congruence|].
  destruct (string_dec k "properties") as [->|Nprop].
  2:{ rewrite (Hk k Nprop Nall) in Ev.
      destruct (latest_Some _ _ _ _ Ev) as (m & Hm & Em).
      apply (keyword_free_within_mono _ _ n (S n)); [lia|].
      apply Lift. eapply Hmem; eassumption. }
  rewrite Ev in Hao, Hp. change (default VUndef (Some v)) with v in Hao, Hp.
  destruct Hao as [->|(lp & pp & -> & Elp & Np)]; [exact I|].
  cbn [keyword_free_within]. rewrite Elp.
  assert (Hentry : forall k' v', assoc k' pp = Some v' ->
            exists m, In m members /\ own_get h (props_of h m) k' = Some v'
                      /\ keyword_free_within "allOf" n h v').
  { intros k' v' E'.
    assert (E2 : own_get hm (VRef lp) k' = Some v')
      by (unfold own_get; rewrite Elp; exact E').
    rewrite Hp in E2. destruct (latest_property_Some _ _ _ _ E2) as (m & Hm & Em).
    exists m. split; [exact Hm|]. split; [exact Em|].
    eapply keyword_free_own_get; [apply Hpm; exact Hm | exact Em]. }
  split.
  - destruct (assoc "allOf" pp) as [a|] eqn:Ea; [|reflexivity].
    change (default VUndef (Some a)) with a.
    destruct (Hentry _ _ Ea) as (m & Hm & Em & Ha).
    pose proof (Hpm m Hm) as Hq.
    assert (Na : array_elems h a = None).
    { destruct (props_of h m) as [| | | |s|lq] eqn:Eq; try discriminate.
      destruct n as [|n']; [destruct Hq|].
      cbn [keyword_free_within] in Hq. unfold own_get in Em.
      destruct (h !! lq) as [[qp|qe]|]; [| |discriminate].
      - destruct Hq as [Hr _]. rewrite Em in Hr. exact Hr.
      - discriminate. }
    destruct a as [| | | | |la]; try reflexivity.
    unfold array_elems in *.
    destruct (h !! la) as [oa|] eqn:Ela;
      [|exfalso; exact (keyword_free_stored _ _ _ _ Ha Ela)].
    rewrite (Fr _ _ Ela). exact Na.
  - apply Forall_forall. intros [k' v'] Hin'. apply list_elem_of_In in Hin'.
    pose proof (assoc_NoDup_In _ _ _ Np Hin') as E'. cbn [snd].
    destruct (Hentry _ _ E') as (m & _ & _ & Hv). apply Lift, Hv.
Qed.

Lemma processAllOf_node (fuel n : nat) (h : heap) (node : value)
  (members : list value)
  (Hnode : array_elems h (default VUndef (own_get h node "allOf")) = Some members)
  (Hmembers : Forall (schema_member h) members)
  (Hfree : Forall (keyword_free_within "allOf" n h) members)
  (Hfuel : S (S n) < fuel) :
  exists lm hm mprops,
    processAllOf (S fuel) node h = Ret (VRef lm) hm
    /\ List.length h <= lm
    /\ (forall l o, h !! l = Some o -> hm !! l = Some o)
    /\ hm !! lm = Some (OObj mprops)
    /\ (forall k, k <> "properties" -> k <> "allOf" ->
                  assoc k mprops = latest h members k)
    /\ assoc "allOf" mprops = None
    /\ above (List.length h) (default VUndef (assoc "properties" mprops))
    /\ (forall k, own_get hm (default VUndef (assoc "properties" mprops)) k
                  = latest_property h members k).
Proof.
  destruct (merge_allOf_rule h members Hmembers)
    as (lm & hm & mprops & Em & Hlm & Fr & Elm & Nm & Hk & Hall & Hao & AP & Hp).
  exists lm, hm, mprops.
  split; [|repeat split; assumption].
  assert (O : exists l, node = VRef l).
  { destruct node as [| | | |s|l]; try discriminate. exists l; reflexivity. }
  destruct O as (l & ->).
  rewrite processAllOf_S. cbn [truthy is_object negb orb].
  rewrite (bind_ret _ _ _ _ _ (getM_object l "allOf" h)).
  unfold bind at 1. rewrite Hnode, Em.
  pose proof (merged_keyword_free n h hm lm mprops members Fr Hfree Elm Nm Hk
                Hall Hao Hp) as Kf.
  assert (L : for_in_keys (processAllOf fuel) (VRef lm) hm = Ret tt hm).
  { apply for_in_keys_unchanged with (Q := keyword_free_within "allOf" (S n) hm).
    - intros v Hv. apply (processAllOf_keyword_free fuel (S n)); [lia | exact Hv].
    - apply keyword_free_children, Kf. }
  rewrite (bind_ret _ _ _ _ _ L). reflexivity.
Qed.

Lemma own_get_other_object l1 k x h h' v k' :
  setM (VRef l1) k x h = Ret tt h' -> v <> VRef l1 ->
  own_get h' v k' = own_get h v k'.
Proof.
  intros Es N. destruct v as [| | | | |l]; try reflexivity.
  apply (setM_other_slot _ _ _ _ _ l k' Es). left. congruence.
Qed.



